(** * CodeLine: a single-line, syntax-aware editing engine

    A shallow embedding of [CodeLine.ts] (the widget-based engine), of
    [widget/Widget.ts] and of the two widget presets, together with the
    properties of segmentation, node lookup, offset mapping, editing and
    teardown that the engine is specified to have.

    Conventions.
    - A JavaScript string is a sequence of UTF-16 code units; nothing in the
      engine looks inside a code unit, so a string is a [list ascii] here and
      [length] is the JavaScript [length].
    - Offsets are JavaScript numbers holding integers; they are [Z].  The
      two agree as long as the numbers stay safe integers (at most
      [2^53 - 1] in absolute value), beyond which JavaScript's [+] rounds;
      where a property adds to an offset that is not bounded by a string
      length, it asks for safe integers.
    - The parser ([web-tree-sitter]) is an external capability: it is a
      record of functions the engine is parameterised by. *)

From Stdlib Require Import Ascii String.
From Stdlib Require Import ZArith List Bool Lia Sorted Permutation.
Import ListNotations.
Local Open Scope Z_scope.

(** ** JavaScript strings *)

Definition jsstring := list ascii.

Definition js (s : string) : jsstring := list_ascii_of_string s.

Definition len (s : jsstring) : Z := Z.of_nat (List.length s).

(** [if (s)] on a string: the empty string is the only falsy one. *)
Definition truthy (s : jsstring) : bool :=
  match s with
  | [] => false
  | _ :: _ => true
  end.

(** Relative index of [String.prototype.slice]: a negative argument counts
    from the end, and everything is clamped to [0 .. len]. *)
Definition rel_index (n i : Z) : Z :=
  if i <? 0 then Z.max (n + i) 0 else Z.min i n.

(** [s.slice(a, b)] *)
Definition slice (s : jsstring) (a b : Z) : jsstring :=
  let from := rel_index (len s) a in
  let to := rel_index (len s) b in
  if to <=? from then []
  else firstn (Z.to_nat (to - from)) (skipn (Z.to_nat from) s).

(** [s.slice(a)]: the end defaults to the length. *)
Definition slice_from (s : jsstring) (a : Z) : jsstring :=
  let from := rel_index (len s) a in
  if len s <=? from then []
  else firstn (Z.to_nat (len s - from)) (skipn (Z.to_nat from) s).

(** [Number.isSafeInteger]: the integers a JavaScript number holds exactly.
    On them [+] is the addition of integers whenever the sum is one of
    them. *)
Definition safe_integer (x : Z) : Prop :=
  - (2 ^ 53 - 1) <= x <= 2 ^ 53 - 1.

(** ** Syntax nodes

    A tree-sitter node: its [id] in the tree, a span [startIndex, endIndex)
    and its children in document order.  The [id] tells the nodes of a tree
    apart; it is not the identity of a JavaScript object: the library hands
    out a new object whenever a node is asked for, and two objects can stand
    for the same node. *)

#[warnings="-register-all"] Inductive SyntaxNode : Type :=
  mkNode (nid : nat) (startIndex endIndex : Z) (children : list SyntaxNode).

Definition node_id (n : SyntaxNode) : nat :=
  match n with mkNode i _ _ _ => i end.
Definition startIndex (n : SyntaxNode) : Z :=
  match n with mkNode _ s _ _ => s end.
Definition endIndex (n : SyntaxNode) : Z :=
  match n with mkNode _ _ e _ => e end.
Definition children (n : SyntaxNode) : list SyntaxNode :=
  match n with mkNode _ _ _ cs => cs end.

(** ** Segments ([renderTree], the segmentation loop) *)

Record Segment : Type := mkSegment {
  names : list string;
  text : jsstring;
  offset : Z
}.

Definition Highlight := list (SyntaxNode * list string).

(** The three loop variables of [renderTree]: [result], [source], [index]. *)
Record RenderLoop : Type := mkLoop {
  result : list Segment;
  rest : jsstring;
  index : Z
}.

(** [result.push(seg)] guarded by [if (t)]. *)
Definition push_if (t : jsstring) (seg : Segment) (r : list Segment) :=
  if truthy t then r ++ [seg] else r.

(** One iteration of [for (const [node, names] of highlight)]. *)
Definition render_step (st : RenderLoop) (h : SyntaxNode * list string)
  : RenderLoop :=
  let node := fst h in
  let pre := slice (rest st) 0 (startIndex node - index st) in
  let txt := slice (rest st) (startIndex node - index st)
                   (endIndex node - index st) in
  let source' := slice_from (rest st) (endIndex node - index st) in
  let r1 := push_if pre (mkSegment [] pre (index st)) (result st) in
  let r2 := push_if txt (mkSegment (snd h) txt (startIndex node)) r1 in
  mkLoop r2 source' (endIndex node).

(** The whole segmentation: the loop, then the trailing untagged segment. *)
Definition render_segments (source : jsstring) (highlight : Highlight)
  : list Segment :=
  let st := fold_left render_step highlight (mkLoop [] source 0) in
  push_if (rest st) (mkSegment [] (rest st) (index st)) (result st).

(** *** What the segmentation is specified to produce *)

(** Tagged spans laid out left to right between [from] and [to]: each span
    starts no earlier than the previous one ends (no overlap, ascending
    order) and all of them lie between [from] and [to]. *)
Fixpoint spans_in_order (from : Z) (hl : Highlight) (to : Z) : bool :=
  match hl with
  | [] => from <=? to
  | (n, _) :: hl' =>
      (from <=? startIndex n) && (startIndex n <=? endIndex n)
      && spans_in_order (endIndex n) hl' to
  end.

(** [tiling from segs to]: the segments cover [from, to) one after the
    other, each starting exactly where the previous one ends. *)
Fixpoint tiling (from : Z) (segs : list Segment) (to : Z) : Prop :=
  match segs with
  | [] => from = to
  | s :: segs' => offset s = from /\ tiling (from + len (text s)) segs' to
  end.

Definition source_of (segs : list Segment) : jsstring :=
  concat (map text segs).

(** ** Node lookup ([findSyntaxNode])

    A [TreeCursor] is the current node together with the path back to the
    root: for every ancestor, its own fields, the siblings already passed
    (nearest first) and the siblings still to come. *)

Record Frame : Type := mkFrame {
  f_id : nat;
  f_start : Z;
  f_end : Z;
  f_left : list SyntaxNode;
  f_right : list SyntaxNode
}.

Record TreeCursor : Type := mkCursor {
  currentNode : SyntaxNode;
  path : list Frame
}.

(** [tree.walk()] *)
Definition walk (tree : SyntaxNode) : TreeCursor := mkCursor tree [].

(** [cursor.startIndex] *)
Definition cursor_startIndex (c : TreeCursor) : Z := startIndex (currentNode c).

(** [node.childCount] *)
Definition childCount (n : SyntaxNode) : nat := List.length (children n).

(** [cursor.currentNode.nextSibling]: a node knows its place in the tree; in
    this model the place is the cursor's path. *)
Definition nextSibling (c : TreeCursor) : option SyntaxNode :=
  match path c with
  | [] => None
  | f :: _ => hd_error (f_right f)
  end.

(** [cursor.currentNode.parent] *)
Definition parent (c : TreeCursor) : option SyntaxNode :=
  match path c with
  | [] => None
  | f :: _ =>
      Some (mkNode (f_id f) (f_start f) (f_end f)
                   (rev_append (f_left f) (currentNode c :: f_right f)))
  end.

(** The three cursor moves; each leaves the cursor where it is when the move
    is impossible (the JavaScript method then returns [false]). *)
Definition gotoFirstChild (c : TreeCursor) : TreeCursor :=
  match currentNode c with
  | mkNode i s e (k :: ks) => mkCursor k (mkFrame i s e [] ks :: path c)
  | mkNode _ _ _ [] => c
  end.

Definition gotoNextSibling (c : TreeCursor) : TreeCursor :=
  match path c with
  | f :: fs =>
      match f_right f with
      | r :: rs =>
          mkCursor r (mkFrame (f_id f) (f_start f) (f_end f)
                              (currentNode c :: f_left f) rs :: fs)
      | [] => c
      end
  | [] => c
  end.

Definition gotoParent (c : TreeCursor) : TreeCursor :=
  match parent c, path c with
  | Some p, _ :: fs => mkCursor p fs
  | _, _ => c
  end.

(** The mutually recursive closures [find] and [findNext].  The closure
    variable [lastNode] is threaded through; [fuel] bounds the number of
    calls, and [None] means the fuel ran out. *)
Fixpoint find (fuel : nat) (index : Z) (cursor : TreeCursor)
         (lastNode : option SyntaxNode) : option (option SyntaxNode) :=
  match fuel with
  | O => None
  | S fuel' =>
      if cursor_startIndex cursor <? index then
        let lastNode := Some (currentNode cursor) in
        if (0 <? childCount (currentNode cursor))%nat then
          find fuel' index (gotoFirstChild cursor) lastNode
        else
          findNext fuel' index cursor lastNode
      else Some lastNode
  end
with findNext (fuel : nat) (index : Z) (cursor : TreeCursor)
              (lastNode : option SyntaxNode) : option (option SyntaxNode) :=
  match fuel with
  | O => None
  | S fuel' =>
      match nextSibling cursor with
      | Some _ => find fuel' index (gotoNextSibling cursor) lastNode
      | None =>
          match parent cursor with
          | Some _ => findNext fuel' index (gotoParent cursor) lastNode
          | None => Some lastNode
          end
      end
  end.

(** Number of nodes of a tree. *)
Fixpoint tree_size (n : SyntaxNode) : nat :=
  match n with
  | mkNode _ _ _ cs =>
      S ((fix sizes (l : list SyntaxNode) : nat :=
            match l with
            | [] => O
            | c :: l' => (tree_size c + sizes l')%nat
            end) cs)
  end.

(** Calls that [find] and [findNext] need at most on a tree. *)
Definition find_fuel (tree : SyntaxNode) : nat := S (2 * tree_size tree).

(** [findSyntaxNode(index)] on the current tree. *)
Definition findSyntaxNode (tree : SyntaxNode) (index : Z)
  : option SyntaxNode :=
  match find (find_fuel tree) index (walk tree) None with
  | Some lastNode => lastNode
  | None => None
  end.

(** *** Reference notions for the lookup *)

(** The nodes of a tree in the order a depth-first, descent-first traversal
    visits them. *)
Fixpoint preorder (n : SyntaxNode) : list SyntaxNode :=
  n :: match n with
       | mkNode _ _ _ cs =>
           (fix pre_list (l : list SyntaxNode) : list SyntaxNode :=
              match l with
              | [] => []
              | c :: l' => preorder c ++ pre_list l'
              end) cs
       end.

Definition preorder_list (l : list SyntaxNode) : list SyntaxNode :=
  flat_map preorder l.

(** Visit nodes in order while they start before [index], remembering the
    last one. *)
Fixpoint scan (index : Z) (l : list SyntaxNode) (lastNode : option SyntaxNode)
  : option SyntaxNode :=
  match l with
  | [] => lastNode
  | n :: l' =>
      if startIndex n <? index then scan index l' (Some n) else lastNode
  end.

Fixpoint last_error {A : Type} (l : list A) : option A :=
  match l with
  | [] => None
  | x :: l' =>
      match last_error l' with
      | Some y => Some y
      | None => Some x
      end
  end.

Definition starts_before (index : Z) (n : SyntaxNode) : bool :=
  startIndex n <? index.

(** A well-formed syntax tree: offsets are not negative, a node's span is
    not inverted, children lie inside their parent, and siblings follow one
    another without overlap. *)
Fixpoint wf_node (n : SyntaxNode) : bool :=
  match n with
  | mkNode _ s e cs =>
      (0 <=? s) && (s <=? e)
      && (fix wf_children (from : Z) (l : list SyntaxNode) : bool :=
            match l with
            | [] => from <=? e
            | c :: l' =>
                (from <=? startIndex c) && wf_node c
                && wf_children (endIndex c) l'
            end) s cs
  end.

(** The sibling condition of [wf_node], on its own. *)
Fixpoint wf_children (e from : Z) (l : list SyntaxNode) : bool :=
  match l with
  | [] => from <=? e
  | c :: l' =>
      (from <=? startIndex c) && wf_node c && wf_children e (endIndex c) l'
  end.

(** The nodes a cursor has still to visit once it leaves the subtree of its
    current node: the later siblings of the node, then those of its parent,
    and so on up to the root. *)
Fixpoint after (p : list Frame) : list SyntaxNode :=
  match p with
  | [] => []
  | f :: fs => preorder_list (f_right f) ++ after fs
  end.

Definition le_start (a b : SyntaxNode) : Prop := startIndex a <= startIndex b.

(** ** The parser capability ([web-tree-sitter]) *)

(** [{row, column}] *)
Record Point : Type := mkPoint { row : Z; column : Z }.

(** The argument of [tree.edit]. *)
Record Edit : Type := mkEdit {
  e_startIndex : Z;
  e_oldEndIndex : Z;
  e_newEndIndex : Z;
  e_startPosition : Point;
  e_oldEndPosition : Point;
  e_newEndPosition : Point
}.

(** The optional [change] argument of [sourceChange]. *)
Record Change : Type := mkChange {
  c_start : Z;
  c_newEnd : Z;
  c_oldEnd : Z
}.

(** One capture of a query match: [{node, name}]. *)
Record Capture : Type := mkCapture {
  cap_node : SyntaxNode;
  cap_name : string
}.

(** [query.matches(root)]: each match is its list of captures. *)
Definition Query := SyntaxNode -> list (list Capture).

(** A tree is given by its root node.  [parse text old] is
    [parser.parse(text, old)].  [edit tree e] is the tree as [tree.edit(e)]
    leaves it: the call patches the tree object in place and returns
    nothing.  [query source] is [language.query(source)]: the compiled
    query, and [None] when the source is malformed, in which case the call
    throws. *)
Record Parser : Type := mkParser {
  parse : jsstring -> option SyntaxNode -> SyntaxNode;
  edit : SyntaxNode -> Edit -> SyntaxNode;
  query : string -> option Query
}.

(** ** Tagged nodes ([getHighlight]) *)

(** The [Map] of [getHighlight].  Its keys are node objects, and a [Map]
    compares objects by their identity, not by the node they stand for.  An
    entry is the identity of its key, the node the key stands for and the
    names; the entries are in insertion order. *)
Definition NodeMap := list (nat * (SyntaxNode * list string)).

(** [map.has(node) ? map.get(node).push(name) : map.set(node, [name])] for
    the capture [c], whose node is the object [obj]. *)
Fixpoint map_add (m : NodeMap) (obj : nat) (c : Capture) : NodeMap :=
  match m with
  | [] => [(obj, (cap_node c, [cap_name c]))]
  | (o, (n, ns)) :: m' =>
      if (o =? obj)%nat
      then (o, (n, ns ++ [cap_name c])) :: m'
      else (o, (n, ns)) :: map_add m' obj c
  end.

(** [matches.forEach(v => v.captures.forEach(...))] on the captures of all
    matches.  [query.matches] builds the node of every capture anew (the
    library unmarshals it into a fresh object), so no two captures share
    their node object, not even those that capture the same node of the
    tree.  The objects are numbered in the order of the captures, from
    [next] on. *)
Fixpoint add_captures (m : NodeMap) (next : nat) (caps : list Capture)
  : NodeMap :=
  match caps with
  | [] => m
  | c :: caps' => add_captures (map_add m next c) (S next) caps'
  end.

(** [entries.sort((a, b) => a.startIndex - b.startIndex)]: the sort is
    stable, entries with equal start offsets keep their order. *)
Fixpoint insert_by_start (x : SyntaxNode * list string) (l : Highlight)
  : Highlight :=
  match l with
  | [] => [x]
  | y :: l' =>
      if startIndex (fst x) <=? startIndex (fst y) then x :: y :: l'
      else y :: insert_by_start x l'
  end.

Definition sort_by_start (l : Highlight) : Highlight :=
  fold_right insert_by_start [] l.

Definition getHighlight (highlightQuery : option Query) (tree : SyntaxNode)
  : Highlight :=
  let matches :=
    match highlightQuery with
    | Some q => q tree
    | None => []
    end in
  sort_by_start (map snd (add_captures [] 0 (concat matches))).

(** ** The host: rendered spans, the window selection, event listeners *)

(** The children of [codeArea] are the rendered segments: a [span] with the
    segment's names as classes, its text as only child and its offset in
    the [data-offset] attribute ([offset.toString()], read back with
    [parseInt]). *)

(** Nodes a range boundary can sit in: the text node of the [i]-th span of
    [codeArea], [codeArea] itself, or a node outside the code area.  A node
    outside may lie below an element that carries [data-code-node], a span
    of another engine on the page: [codeNode] is then the [data-offset] of
    the closest such element.  The root element itself is taken not to lie
    inside such a span. *)
Inductive DomNode : Type :=
| SpanText (i : nat)
| CodeAreaNode
| OtherNode (codeNode : option Z).

(** A boundary point [(node, index)]; also what [findNode] returns. *)
Definition Position := (DomNode * Z)%type.

Record DomRange : Type := mkRange {
  range_start : Position;
  range_end : Position
}.

(** [Selection]: absolute offsets [{start, end}]. *)
Record Selection : Type := mkSelection {
  sel_start : Z;
  sel_end : Z
}.

Inductive EventTarget : Type := RootElement | DocumentTarget.
Inductive EventType : Type := InputEvent | SelectionChangeEvent | KeydownEvent.

(** The listener functions the engine and its widgets create; the hot-key
    listener of a completion widget belongs to the widget at position [w]. *)
Inductive Listener : Type :=
| InputListener
| FromSelectionChange
| HotKeyListener (w : nat).

Record Registration : Type := mkReg {
  reg_target : EventTarget;
  reg_type : EventType;
  reg_listener : Listener
}.

(** The two channels of [events]. *)
Inductive EventName : Type := BeforeChange | AfterChange.

(** The handlers widgets subscribe to a channel. *)
Inductive Handler : Type :=
| ErrorWidgetHandler (w : nat)
| CompleteWidgetHandler (w : nat).

(** Release actions kept in a [CompositeDisposable]. *)
Inductive Disposer : Type :=
| RemoveListener (r : Registration)
| Unsubscribe (e : EventName) (h : Handler).

(** The classes of widgets.  A completion widget is built from its
    matchers; [queries] are their query sources, in order. *)
Inductive WidgetKind : Type :=
| PlainWidget
| CodeErrorWidget
| CodeCompleteWidget (queries : list string).

(** A widget: which class it is, whether [codeLine] is set, and its own
    [disposables]. *)
Record Widget : Type := mkWidget {
  kind : WidgetKind;
  attached : bool;
  w_disposables : list Disposer
}.

(** What is recorded of a run, in the order it happens. *)
Inductive Step : Type :=
| Emitted (e : EventName)
| Notified (h : Handler) (e : EventName)
| TreeEdited (d : Edit)
| Parsed (text : jsstring) (incremental : bool)
| WidgetInit (w : nat).

Definition target_eqb (a b : EventTarget) : bool :=
  match a, b with
  | RootElement, RootElement | DocumentTarget, DocumentTarget => true
  | _, _ => false
  end.

Definition type_eqb (a b : EventType) : bool :=
  match a, b with
  | InputEvent, InputEvent
  | SelectionChangeEvent, SelectionChangeEvent
  | KeydownEvent, KeydownEvent => true
  | _, _ => false
  end.

Definition listener_eqb (a b : Listener) : bool :=
  match a, b with
  | InputListener, InputListener
  | FromSelectionChange, FromSelectionChange => true
  | HotKeyListener v, HotKeyListener w => (v =? w)%nat
  | _, _ => false
  end.

Definition reg_eqb (a b : Registration) : bool :=
  target_eqb (reg_target a) (reg_target b)
  && type_eqb (reg_type a) (reg_type b)
  && listener_eqb (reg_listener a) (reg_listener b).

Definition handler_eqb (a b : Handler) : bool :=
  match a, b with
  | ErrorWidgetHandler v, ErrorWidgetHandler w
  | CompleteWidgetHandler v, CompleteWidgetHandler w => (v =? w)%nat
  | _, _ => false
  end.

(** Remove the first element [eqb] accepts. *)
Fixpoint remove_first {A : Type} (eqb : A -> bool) (l : list A) : list A :=
  match l with
  | [] => []
  | x :: l' => if eqb x then l' else x :: remove_first eqb l'
  end.

Fixpoint update_nth {A : Type} (i : nat) (f : A -> A) (l : list A)
  : list A :=
  match l, i with
  | [], _ => []
  | x :: l', O => f x :: l'
  | x :: l', S i' => x :: update_nth i' f l'
  end.

(** ** The engine and its host: one state *)

Record World : Type := mkWorld {
  (* fields of [CodeLine] *)
  source : jsstring;
  tree : option SyntaxNode;
  selection : option Selection;
  widgets : list Widget;
  disposables : list Disposer;
  beforeChange : list Handler;
  afterChange : list Handler;
  (* the host *)
  codeArea : list Segment;
  domSelection : option DomRange;
  listeners : list Registration;
  (* the record of the run *)
  trace : list Step
}.

Definition set_source (v : jsstring) (w : World) : World :=
  mkWorld v (tree w) (selection w) (widgets w) (disposables w)
          (beforeChange w) (afterChange w) (codeArea w) (domSelection w)
          (listeners w) (trace w).
Definition set_tree (v : option SyntaxNode) (w : World) : World :=
  mkWorld (source w) v (selection w) (widgets w) (disposables w)
          (beforeChange w) (afterChange w) (codeArea w) (domSelection w)
          (listeners w) (trace w).
Definition set_selection (v : option Selection) (w : World) : World :=
  mkWorld (source w) (tree w) v (widgets w) (disposables w)
          (beforeChange w) (afterChange w) (codeArea w) (domSelection w)
          (listeners w) (trace w).
Definition set_widgets (v : list Widget) (w : World) : World :=
  mkWorld (source w) (tree w) (selection w) v (disposables w)
          (beforeChange w) (afterChange w) (codeArea w) (domSelection w)
          (listeners w) (trace w).
Definition set_disposables (v : list Disposer) (w : World) : World :=
  mkWorld (source w) (tree w) (selection w) (widgets w) v
          (beforeChange w) (afterChange w) (codeArea w) (domSelection w)
          (listeners w) (trace w).
Definition set_beforeChange (v : list Handler) (w : World) : World :=
  mkWorld (source w) (tree w) (selection w) (widgets w) (disposables w)
          v (afterChange w) (codeArea w) (domSelection w)
          (listeners w) (trace w).
Definition set_afterChange (v : list Handler) (w : World) : World :=
  mkWorld (source w) (tree w) (selection w) (widgets w) (disposables w)
          (beforeChange w) v (codeArea w) (domSelection w)
          (listeners w) (trace w).
Definition set_codeArea (v : list Segment) (w : World) : World :=
  mkWorld (source w) (tree w) (selection w) (widgets w) (disposables w)
          (beforeChange w) (afterChange w) v (domSelection w)
          (listeners w) (trace w).
Definition set_domSelection (v : option DomRange) (w : World) : World :=
  mkWorld (source w) (tree w) (selection w) (widgets w) (disposables w)
          (beforeChange w) (afterChange w) (codeArea w) v
          (listeners w) (trace w).
Definition set_listeners (v : list Registration) (w : World) : World :=
  mkWorld (source w) (tree w) (selection w) (widgets w) (disposables w)
          (beforeChange w) (afterChange w) (codeArea w) (domSelection w)
          v (trace w).
Definition set_trace (v : list Step) (w : World) : World :=
  mkWorld (source w) (tree w) (selection w) (widgets w) (disposables w)
          (beforeChange w) (afterChange w) (codeArea w) (domSelection w)
          (listeners w) v.

(** ** Methods: state passing with exceptions *)

(** What is thrown: by [setStart] and [setEnd] on an index beyond the node,
    by a method call on [undefined], and by [language.query] on a malformed
    query. *)
Inductive Exception : Type := IndexSizeError | TypeError | QueryError.

Inductive Res (A : Type) : Type :=
| Ok (a : A)
| Throw (e : Exception).
Arguments Ok {A} a.
Arguments Throw {A} e.

Definition M (A : Type) : Type := World -> Res (A * World).

Definition ret {A : Type} (a : A) : M A := fun w => Ok (a, w).

Definition bind {A B : Type} (m : M A) (k : A -> M B) : M B :=
  fun w =>
    match m w with
    | Ok (a, w') => k a w'
    | Throw e => Throw e
    end.

Definition get : M World := fun w => Ok (w, w).
Definition modify (f : World -> World) : M unit := fun w => Ok (tt, f w).
Definition throw {A : Type} (e : Exception) : M A := fun _ => Throw e.
Definition lift {A : Type} (r : Res A) : M A :=
  fun w =>
    match r with
    | Ok a => Ok (a, w)
    | Throw e => Throw e
    end.

Declare Scope method_scope.
Delimit Scope method_scope with method.
Notation "x <- m ;; k" := (bind m (fun x => k))
  (at level 100, m at next level, right associativity) : method_scope.
Notation "m ;; k" := (bind m (fun _ => k))
  (at level 100, right associativity) : method_scope.
Local Open Scope method_scope.

(** [l.forEach(f)] *)
Fixpoint forEach {A : Type} (l : list A) (f : A -> M unit) : M unit :=
  match l with
  | [] => ret tt
  | x :: l' => f x ;; forEach l' f
  end.

Definition log (s : Step) : M unit :=
  modify (fun w => set_trace (trace w ++ [s]) w).

(** *** [Emitter] *)

(** Modelled from the spec: [Emitter.ts], the class of the two channels in
    [events], is not among the sources.  The spec describes it as a
    synchronous typed publish/subscribe channel with explicit unsubscribe
    tokens: [on] registers a handler and returns the token that removes it,
    and [emit] calls the registered handlers, in registration order, before
    it returns. *)
Definition handlers (e : EventName) (w : World) : list Handler :=
  match e with
  | BeforeChange => beforeChange w
  | AfterChange => afterChange w
  end.

Definition set_handlers (e : EventName) (hs : list Handler) (w : World)
  : World :=
  match e with
  | BeforeChange => set_beforeChange hs w
  | AfterChange => set_afterChange hs w
  end.

Definition on (e : EventName) (h : Handler) : M Disposer :=
  modify (fun w => set_handlers e (handlers e w ++ [h]) w) ;;
  ret (Unsubscribe e h).

(** Running a widget's handler.  The handlers of [CodeErrorWidget] and
    [CodeCompleteWidget] read the tree, the selection and the rendered spans
    and redraw their own overlay; they change nothing of the engine.  What
    is kept of a call is that it took place. *)
Definition run_handler (e : EventName) (h : Handler) : M unit :=
  log (Notified h e).

Definition emit (e : EventName) : M unit :=
  log (Emitted e) ;;
  w <- get ;;
  forEach (handlers e w) (run_handler e).

(** *** [CompositeDisposable] *)

(** [target.addEventListener(type, listener)]: a listener already
    registered for the same target and type is not registered twice. *)
Definition addEventListener (r : Registration) : M unit :=
  modify (fun w =>
            if existsb (reg_eqb r) (listeners w) then w
            else set_listeners (listeners w ++ [r]) w).

Definition removeEventListener (r : Registration) : M unit :=
  modify (fun w => set_listeners (remove_first (reg_eqb r) (listeners w)) w).

Definition run_disposer (d : Disposer) : M unit :=
  match d with
  | RemoveListener r => removeEventListener r
  | Unsubscribe e h =>
      modify (fun w =>
                set_handlers e (remove_first (handler_eqb h) (handlers e w)) w)
  end.

(** Modelled from the spec: [Disposable.ts], with [CompositeDisposable], is
    not among the sources.  The spec describes a disposal group per
    instance, released at teardown: [add] puts a release action into the
    group, and [dispose] runs every action of the group, in the order they
    were added, leaving the group empty. *)
Definition disposables_add (d : Disposer) : M unit :=
  modify (fun w => set_disposables (disposables w ++ [d]) w).

Definition disposables_dispose : M unit :=
  w <- get ;;
  forEach (disposables w) run_disposer ;;
  modify (set_disposables []).

(** [CodeLine.dispose()] *)
Definition dispose : M unit := disposables_dispose.

(** *** Listening to the host *)

Definition input_registration : Registration :=
  mkReg RootElement InputEvent InputListener.

Definition selectionchange_registration : Registration :=
  mkReg DocumentTarget SelectionChangeEvent FromSelectionChange.

Definition listenInput : M unit :=
  addEventListener input_registration ;;
  disposables_add (RemoveListener input_registration).

Definition listenSelectionChange : M unit :=
  addEventListener selectionchange_registration ;;
  disposables_add (RemoveListener selectionchange_registration).

(** *** Offsets and positions *)

(** [findNode(index)]: the first span whose text contains [index], ends
    included, and the index inside it.  The span is given by its place among
    the children of [codeArea]; the node returned is its text node. *)
Fixpoint findNode_from (i : nat) (spans : list Segment) (index : Z)
  : option (nat * Z) :=
  match spans with
  | [] => None
  | child :: spans' =>
      if (offset child <=? index) && (index <=? offset child + len (text child))
      then Some (i, index - offset child)
      else findNode_from (S i) spans' index
  end.

Definition findNode (spans : list Segment) (index : Z) : option (nat * Z) :=
  findNode_from 0 spans index.

(** [getOffset(node)] of [fromSelectionChange]: the [data-offset] of the
    closest element around [node] that carries [data-code-node], wherever
    in the document it is, and [0] when there is none. *)
Definition getOffset (spans : list Segment) (node : DomNode) : Z :=
  match node with
  | SpanText i =>
      match nth_error spans i with
      | Some child => offset child
      | None => 0
      end
  | CodeAreaNode => 0
  | OtherNode (Some o) => o
  | OtherNode None => 0
  end.

(** The two directions of the mapping. *)
Definition offsetToPosition (spans : list Segment) (o : Z) : option Position :=
  match findNode spans o with
  | Some (i, k) => Some (SpanText i, k)
  | None => None
  end.

Definition positionToOffset (spans : list Segment) (p : Position) : Z :=
  getOffset spans (fst p) + snd p.

(** Length of the text node of the [i]-th span. *)
Definition text_length (spans : list Segment) (i : nat) : Z :=
  match nth_error spans i with
  | Some child => len (text child)
  | None => 0
  end.

(** Tree order of two boundary points in text nodes of spans. *)
Definition boundary_before (p q : nat * Z) : bool :=
  (fst p <? fst q)%nat || ((fst p =? fst q)%nat && (snd p <? snd q)).

(** [range.setStart(node, index)] and [range.setEnd(node, index)] throw
    [IndexSizeError] when the index is beyond the node's length. *)
Definition boundary_ok (spans : list Segment) (p : nat * Z) : bool :=
  (0 <=? snd p) && (snd p <=? text_length spans (fst p)).

(** [selectionToRange(startIndex, endIndex)].  The range of
    [document.createRange()] is collapsed at the very start of the document:
    [setStart] moves both of its ends to the new start, and [setEnd] then
    sets the end, collapsing the range onto it when it lies before the
    start. *)
Definition selectionToRange (spans : list Segment) (startIdx endIdx : Z)
  : Res (option DomRange) :=
  match findNode spans startIdx, findNode spans endIdx with
  | Some p, Some q =>
      if boundary_ok spans p then
        if boundary_ok spans q then
          let ps := (SpanText (fst p), snd p) in
          let qs := (SpanText (fst q), snd q) in
          Ok (Some (if boundary_before q p then mkRange qs qs
                    else mkRange ps qs))
        else Throw IndexSizeError
      else Throw IndexSizeError
  | _, _ => Ok None
  end.

(** [fromSelectionChange]: when the window has a range, record its two ends
    as absolute offsets. *)
Definition fromSelectionChange : M unit :=
  modify (fun w =>
            match domSelection w with
            | Some range =>
                set_selection
                  (Some (mkSelection
                           (positionToOffset (codeArea w) (range_start range))
                           (positionToOffset (codeArea w) (range_end range))))
                  w
            | None => w
            end).

(** [restoreSelection()] *)
Definition restoreSelection : M unit :=
  w <- get ;;
  match selection w with
  | Some sel =>
      range <- lift (selectionToRange (codeArea w) (sel_start sel)
                                      (sel_end sel)) ;;
      match range with
      | Some r => modify (set_domSelection (Some r))
      | None => ret tt
      end
  | None => ret tt
  end.

(** [setSelection(start, end)] *)
Definition setSelection (start end_ : Z) : M unit :=
  modify (set_selection (Some (mkSelection start end_))) ;;
  restoreSelection.

(** *** Widgets *)

Definition update_widget (i : nat) (f : Widget -> Widget) : M unit :=
  modify (fun w => set_widgets (update_nth i f (widgets w)) w).

(** [this.disposables.add(d)] inside the widget at position [i]. *)
Definition widget_disposables_add (i : nat) (d : Disposer) : M unit :=
  update_widget i (fun v => mkWidget (kind v) (attached v)
                                     (w_disposables v ++ [d])).

Definition hotkey_registration (i : nat) : Registration :=
  mkReg RootElement KeydownEvent (HotKeyListener i).

(** [CodeCompleteWidget.initHotKey()] *)
Definition initHotKey (i : nat) : M unit :=
  addEventListener (hotkey_registration i) ;;
  widget_disposables_add i (RemoveListener (hotkey_registration i)).

(** [this.matches.add({query: language.query(matcher.query), run})] for
    one matcher: the query is compiled, which throws when its source is
    malformed.  The compiled matchers are the widget's own; its handler
    works on them. *)
Definition compile_matcher (language : Parser) (querySource : string)
  : M unit :=
  match query language querySource with
  | Some _ => ret tt
  | None => throw QueryError
  end.

(** [widget.init(codeLine)] for the widget at position [i]: the base class
    sets [codeLine]; the error widget adds its overlay and subscribes to
    [afterChange]; the completion widget adds its overlay, registers its
    hot keys, compiles the queries of its matchers and subscribes to
    [afterChange]. *)
Definition widget_init (language : Parser) (i : nat) : M unit :=
  log (WidgetInit i) ;;
  w <- get ;;
  match nth_error (widgets w) i with
  | None => ret tt
  | Some v =>
      update_widget i (fun v => mkWidget (kind v) true (w_disposables v)) ;;
      match kind v with
      | PlainWidget => ret tt
      | CodeErrorWidget =>
          d <- on AfterChange (ErrorWidgetHandler i) ;;
          widget_disposables_add i d
      | CodeCompleteWidget queries =>
          initHotKey i ;;
          forEach queries (compile_matcher language) ;;
          d <- on AfterChange (CompleteWidgetHandler i) ;;
          widget_disposables_add i d
      end
  end.

(** [Widget.dispose()] for the widget at position [i]. *)
Definition widget_dispose (i : nat) : M unit :=
  w <- get ;;
  match nth_error (widgets w) i with
  | None => ret tt
  | Some v =>
      forEach (w_disposables v) run_disposer ;;
      update_widget i (fun v => mkWidget (kind v) (attached v) [])
  end.

(** *** Changing the text *)

(** [codeArea.innerHTML = '']: a boundary of the window's range that was
    inside the removed spans, or among them, moves to the start of the now
    empty [codeArea]. *)
Definition reanchor (p : Position) : Position :=
  match fst p with
  | SpanText _ | CodeAreaNode => (CodeAreaNode, 0)
  | OtherNode _ => p
  end.

Definition clear_codeArea (w : World) : World :=
  set_codeArea []
    (set_domSelection
       (option_map (fun r => mkRange (reanchor (range_start r))
                                     (reanchor (range_end r)))
                   (domSelection w)) w).

Section Engine.

(** The language's parser and the compiled highlight query, if there is
    one ([undefined] when no query was given or it did not compile). *)
Variable language : Parser.
Variable highlightQuery : option Query.

(** [getHighlight()] on the engine's fields: without a highlight query
    [?.] keeps [this.tree.rootNode] from being evaluated. *)
Definition currentHighlight : M Highlight :=
  w <- get ;;
  match highlightQuery, tree w with
  | None, _ => ret []
  | Some q, Some t => ret (getHighlight (Some q) t)
  | Some _, None => throw TypeError
  end.

(** [renderTree()] *)
Definition renderTree : M unit :=
  highlight <- currentHighlight ;;
  w <- get ;;
  let result := render_segments (source w) highlight in
  fromSelectionChange ;;
  modify clear_codeArea ;;
  modify (set_codeArea result) ;;
  restoreSelection ;;
  emit AfterChange.

Definition edit_of (change : Change) : Edit :=
  mkEdit (c_start change) (c_oldEnd change) (c_newEnd change)
         (mkPoint 0 (c_start change))
         (mkPoint 0 (c_oldEnd change))
         (mkPoint 0 (c_newEnd change)).

(** Whether [parser.parse(text, old)] is handed an old tree. *)
Definition given (old : option SyntaxNode) : bool :=
  match old with
  | Some _ => true
  | None => false
  end.

(** [sourceChange(newText, change?)].  With a [change], the field [tree]
    is assigned what [tree.edit(...)] returns: the call patches the old
    tree object in place and returns nothing, so the field holds
    [undefined] afterwards, the patched tree is out of the engine's reach,
    and the parse that follows is handed [undefined] as its old tree. *)
Definition sourceChange (newText : jsstring) (change : option Change)
  : M unit :=
  emit BeforeChange ;;
  modify (set_source newText) ;;
  match change with
  | Some c =>
      w <- get ;;
      match tree w with
      | None => throw TypeError
      | Some _ =>
          log (TreeEdited (edit_of c)) ;;
          modify (set_tree None) ;;
          w <- get ;;
          log (Parsed (source w) (given (tree w))) ;;
          modify (set_tree (Some (parse language (source w) (tree w))))
      end
  | None =>
      w <- get ;;
      log (Parsed (source w) false) ;;
      modify (set_tree (Some (parse language (source w) None)))
  end ;;
  renderTree.

(** [replaceText(start, end, text)] *)
Definition replaceText (start end_ : Z) (txt : jsstring) : M unit :=
  w <- get ;;
  sourceChange (slice (source w) 0 start ++ txt ++ slice_from (source w) end_)
               None ;;
  setSelection (start + len txt) (start + len txt).

(** The listener of [listenInput], called with [codeArea.innerText]. *)
Definition inputListener (innerText : jsstring) : M unit :=
  sourceChange innerText None.

(** [init()], after the parser is ready.  [initRoot] and [initCodeArea]
    only style the elements. *)
Definition init : M unit :=
  listenInput ;;
  listenSelectionChange ;;
  w <- get ;;
  sourceChange (source w) None ;;
  w <- get ;;
  forEach (seq 0 (List.length (widgets w))) (widget_init language).

(** The change with a delta as the specification words it: the tree is
    patched with the edit description, and the new text is then reparsed
    incrementally against the patched tree. *)
Definition applyChange_with_delta (newText : jsstring) (change : Change)
  : M unit :=
  emit BeforeChange ;;
  modify (set_source newText) ;;
  (w <- get ;;
   match tree w with
   | None => throw TypeError
   | Some t =>
       log (TreeEdited (edit_of change)) ;;
       modify (set_tree (Some (edit language t (edit_of change)))) ;;
       w <- get ;;
       log (Parsed (source w) true) ;;
       modify (set_tree (Some (parse language (source w) (tree w))))
   end) ;;
  renderTree.

(** The replacement operation as the specification words it: the change
    is handed on together with its delta. *)
Definition replaceRange_with_delta (start end_ : Z) (txt : jsstring)
  : M unit :=
  w <- get ;;
  applyChange_with_delta
    (slice (source w) 0 start ++ txt ++ slice_from (source w) end_)
    (mkChange start (start + len txt) end_) ;;
  setSelection (start + len txt) (start + len txt).

End Engine.

(** [new CodeLine(root, ops)]: the fields before [init] runs, in a host
    whose window selection is [hostSelection] and where nothing is
    registered yet. *)
Definition construct (src : option jsstring) (ws : list WidgetKind)
           (hostSelection : option DomRange) : World :=
  mkWorld (match src with Some s => s | None => [] end)
          None None
          (map (fun k => mkWidget k false []) ws)
          [] [] []
          [] hostSelection []
          [].

(** [CodeLine.create(root, ops)] *)
Definition create (language : Parser) (highlightQuery : option Query)
           (src : option jsstring) (ws : list WidgetKind)
           (hostSelection : option DomRange) : Res (unit * World) :=
  init language highlightQuery (construct src ws hostSelection).

(** The calls made to the parser during a run. *)
Definition is_parser_call (s : Step) : bool :=
  match s with
  | TreeEdited _ | Parsed _ _ => true
  | _ => false
  end.

Definition parser_calls (t : list Step) : list Step := filter is_parser_call t.

(** ** Notions used to state the properties *)

Definition given_query (q : option Query) : bool :=
  match q with
  | Some _ => true
  | None => false
  end.

(** A node starts between [lo] and [hi]. *)
Definition within (lo hi : Z) (n : SyntaxNode) : Prop :=
  lo <= startIndex n /\ startIndex n <= hi.

(** What the segmentation loop keeps true of its variables: the segments
    pushed so far, followed by the text still to cut, are the source; the
    segments tile the text up to [index]; none of them is empty. *)
Record loop_inv (src : jsstring) (st : RenderLoop) : Prop := {
  inv_source : source_of (result st) ++ rest st = src;
  inv_tiling : tiling 0 (result st) (index st);
  inv_nonempty : Forall (fun s => text s <> []) (result st)
}.

(** The literal reading of "non-overlapping spans inside the text, taken in
    ascending start order", for spans that are not empty. *)
Definition span_in_text (n : SyntaxNode) (src : jsstring) : Prop :=
  0 <= startIndex n /\ startIndex n < endIndex n /\ endIndex n <= len src.

Definition spans_disjoint (a b : SyntaxNode) : Prop :=
  endIndex a <= startIndex b \/ endIndex b <= startIndex a.

(** A span that lies in the text and may be empty. *)
Definition span_within (n : SyntaxNode) (src : jsstring) : Prop :=
  0 <= startIndex n /\ startIndex n <= endIndex n /\ endIndex n <= len src.

(** The query sources of the matchers of a widget all compile. *)
Definition compiles (language : Parser) (k : WidgetKind) : bool :=
  match k with
  | CodeCompleteWidget queries =>
      forallb (fun querySource => given_query (query language querySource))
              queries
  | _ => true
  end.

(** Being inside a segment, ends included. *)
Definition in_segment (o : Z) (s : Segment) : Prop :=
  offset s <= o /\ o <= offset s + len (text s).

(** The calls of the handlers [hs] for one emission. *)
Definition notifications (e : EventName) (hs : list Handler) : list Step :=
  map (fun h => Notified h e) hs.

(** The keydown registrations and the [afterChange] handlers the widgets of
    kinds [ws], placed from position [i] on, set up in their [init]. *)
Fixpoint widget_hotkeys (i : nat) (ws : list WidgetKind) : list Registration :=
  match ws with
  | [] => []
  | k :: ws' =>
      match k with
      | CodeCompleteWidget _ => [hotkey_registration i]
      | _ => []
      end ++ widget_hotkeys (S i) ws'
  end.

Fixpoint widget_handlers (i : nat) (ws : list WidgetKind) : list Handler :=
  match ws with
  | [] => []
  | k :: ws' =>
      match k with
      | PlainWidget => []
      | CodeErrorWidget => [ErrorWidgetHandler i]
      | CodeCompleteWidget _ => [CompleteWidgetHandler i]
      end ++ widget_handlers (S i) ws'
  end.

(** ** A small language to run the engine on

    Sums of decimal numbers such as [1+23]: the tree is a root over the
    whole text with one childless node per maximal run of digits, and the
    highlight query tags every such node [number]. *)

Definition is_digit (c : ascii) : bool :=
  let n := nat_of_ascii c in (48 <=? n)%nat && (n <=? 57)%nat.

Definition close_run (run : option Z) (pos : Z) : list SyntaxNode :=
  match run with
  | Some from => [mkNode (S (Z.to_nat from)) from pos []]
  | None => []
  end.

Fixpoint number_nodes (pos : Z) (run : option Z) (s : jsstring)
  : list SyntaxNode :=
  match s with
  | [] => close_run run pos
  | c :: s' =>
      if is_digit c then
        number_nodes (pos + 1)
                     (Some (match run with Some from => from | None => pos end))
                     s'
      else close_run run pos ++ number_nodes (pos + 1) None s'
  end.

Definition number_query : Query :=
  fun root => map (fun n => [mkCapture n "number"%string]) (children root).

(** The one query source the language of sums compiles. *)
Definition number_query_source : string := "(number) @number".

Definition sums : Parser :=
  mkParser (fun txt _ => mkNode 0 0 (len txt) (number_nodes 0 None txt))
           (fun t _ => t)
           (fun querySource =>
              if String.eqb querySource number_query_source
              then Some number_query
              else None).

(** The world of a result, for runs that are known to return. *)
Definition world_of (r : Res (unit * World)) (otherwise : World) : World :=
  match r with
  | Ok (_, w) => w
  | Throw _ => otherwise
  end.

(** The steps one emission adds to the record of the run. *)
Definition emission (e : EventName) (w : World) : list Step :=
  Emitted e :: notifications e (handlers e w).

(** The world a change cycle without delta leaves behind, up to the
    selection [sel] recorded and the window's range [d] at its end: the new
    text, its tree parsed from scratch, the segments rendered from both,
    and the steps of the cycle added to the record. *)
Definition changed_world (language : Parser) (highlightQuery : option Query)
           (newText : jsstring) (sel : option Selection)
           (d : option DomRange) (w : World) : World :=
  let t := parse language newText None in
  mkWorld newText (Some t) sel (widgets w) (disposables w)
          (beforeChange w) (afterChange w)
          (render_segments newText (getHighlight highlightQuery t))
          d (listeners w)
          (trace w ++ emission BeforeChange w
             ++ Parsed newText false :: emission AfterChange w).

(** An engine created on [src] with widgets of kinds [ws], for the language
    of sums, in a host without selection. *)
Definition sums_editor (src : jsstring) (ws : list WidgetKind) : World :=
  world_of (create sums (Some number_query) (Some src) ws None)
           (construct (Some src) ws None).

(** No keydown registration of a widget placed at [i] or later is among
    the listeners. *)
Definition fresh_from (i : nat) (ls : list Registration) : Prop :=
  forall j, (i <= j)%nat ->
            existsb (reg_eqb (hotkey_registration j)) ls = false.

(** What running [init] on the widgets of kinds [ws], placed from [i] on,
    changes in a world and what it leaves alone. *)
Record init_post (i : nat) (ws : list WidgetKind) (w w' : World) : Prop := {
  post_source : source w' = source w;
  post_tree : tree w' = tree w;
  post_selection : selection w' = selection w;
  post_disposables : disposables w' = disposables w;
  post_before : beforeChange w' = beforeChange w;
  post_codeArea : codeArea w' = codeArea w;
  post_domSelection : domSelection w' = domSelection w;
  post_kinds : map kind (widgets w') = map kind (widgets w);
  post_after : afterChange w' = afterChange w ++ widget_handlers i ws;
  post_listeners : listeners w' = listeners w ++ widget_hotkeys i ws;
  post_trace : trace w' = trace w ++ map WidgetInit (seq i (List.length ws))
}.

(** * More of the engine

    ** Tagged nodes: what [getHighlight] puts together *)

(** All captures of all matches, in match order. *)
Definition captures_of (q : option Query) (t : SyntaxNode) : list Capture :=
  match q with
  | Some q => concat (q t)
  | None => []
  end.

(** [[...map.entries()]]: the entries of the map of [getHighlight] in
    insertion order, before they are sorted. *)
Definition map_entries (q : option Query) (t : SyntaxNode) : Highlight :=
  map snd (add_captures [] 0 (captures_of q t)).

(** The entry a capture gets when it is the first for its node object. *)
Definition entry_of (c : Capture) : SyntaxNode * list string :=
  (cap_node c, [cap_name c]).

(** A query that captures every number under two names,
    [(number) @number (number) @literal]; the matches come in document
    order. *)
Definition number_literal_query : Query :=
  fun root =>
    flat_map (fun n => [[mkCapture n "number"%string];
                        [mkCapture n "literal"%string]])
             (children root).

Definition start_le (a b : SyntaxNode * list string) : Prop :=
  startIndex (fst a) <= startIndex (fst b).

(** A segment is untagged, or carries the names and the start offset of one
    of the tagged nodes. *)
Definition from_highlight (hl : Highlight) (s : Segment) : Prop :=
  names s = []
  \/ exists h, In h hl /\ names s = snd h /\ offset s = startIndex (fst h).

(** ** The host's events and the engine's callers *)

(** Whether a listener is registered on the host. *)
Definition registered (r : Registration) (w : World) : bool :=
  existsb (reg_eqb r) (listeners w).

(** An [input] event on the root element; [innerText] is the text the code
    area holds at that moment.  The event reaches the listener of
    [listenInput] as long as it is registered. *)
Definition dispatch_input (language : Parser) (highlightQuery : option Query)
           (innerText : jsstring) : M unit :=
  w <- get ;;
  if registered input_registration w
  then inputListener language highlightQuery innerText
  else ret tt.

(** The window's selection becomes [range] and [selectionchange] is
    dispatched on the document. *)
Definition dispatch_selectionchange (range : option DomRange) : M unit :=
  modify (set_domSelection range) ;;
  w <- get ;;
  if registered selectionchange_registration w
  then fromSelectionChange
  else ret tt.

(** What can happen to an engine once it is created: events of the host,
    and calls of its public methods. *)
Inductive Action : Type :=
| UserInput (innerText : jsstring)
| UserSelects (range : option DomRange)
| CallSourceChange (newText : jsstring) (change : option Change)
| CallReplaceText (start end_ : Z) (txt : jsstring)
| CallSetSelection (start end_ : Z)
| CallDispose.

Definition perform (language : Parser) (highlightQuery : option Query)
           (a : Action) : M unit :=
  match a with
  | UserInput innerText => dispatch_input language highlightQuery innerText
  | UserSelects range => dispatch_selectionchange range
  | CallSourceChange newText change =>
      sourceChange language highlightQuery newText change
  | CallReplaceText start end_ txt =>
      replaceText language highlightQuery start end_ txt
  | CallSetSelection start end_ => setSelection start end_
  | CallDispose => dispose
  end.

(** The numbers an action hands to [replaceText] are safe integers, and so
    is the sum [replaceText] computes from them. *)
Definition safe_action (a : Action) : Prop :=
  match a with
  | CallReplaceText start _ txt =>
      safe_integer start /\ safe_integer (start + len txt)
  | _ => True
  end.

(** The tree and the rendered spans are those of the current text parsed
    and rendered from scratch. *)
Definition consistent (language : Parser) (highlightQuery : option Query)
           (w : World) : Prop :=
  tree w = Some (parse language (source w) None)
  /\ codeArea w
     = render_segments (source w)
         (getHighlight highlightQuery (parse language (source w) None)).

(** Text, tree and rendered spans are the same in two worlds. *)
Definition same_display (w w' : World) : Prop :=
  source w' = source w /\ tree w' = tree w /\ codeArea w' = codeArea w.

(** The release actions the widget of kind [k] at position [i] has put
    into its own [disposables] once [init] has run, and the widgets of
    kinds [ws], placed from [i] on, after their [init]. *)
Definition widget_disposers (i : nat) (k : WidgetKind) : list Disposer :=
  match k with
  | PlainWidget => []
  | CodeErrorWidget => [Unsubscribe AfterChange (ErrorWidgetHandler i)]
  | CodeCompleteWidget _ =>
      [RemoveListener (hotkey_registration i);
       Unsubscribe AfterChange (CompleteWidgetHandler i)]
  end.

Fixpoint attached_from (i : nat) (ws : list WidgetKind) : list Widget :=
  match ws with
  | [] => []
  | k :: ws' => mkWidget k true (widget_disposers i k) :: attached_from (S i) ws'
  end.

(** ** The error widget ([CodeErrorWidget]) *)

Section Errors.

(** [node.isError] and [node.hasError], two fields the parser gives every
    node. *)
Variable isError : SyntaxNode -> bool.
Variable hasError : SyntaxNode -> bool.

(** [getError(node)]: the node itself when it is an error, then, when the
    node has an error, the errors of its children, in order. *)
Fixpoint getError (node : SyntaxNode) : list SyntaxNode :=
  (if isError node then [node] else [])
  ++ (if hasError node then
        match node with
        | mkNode _ _ _ cs =>
            (fix each (l : list SyntaxNode) : list SyntaxNode :=
               match l with
               | [] => []
               | c :: l' => getError c ++ each l'
               end) cs
        end
      else []).

End Errors.

(** [hasError] as the parser computes it: an error in the node or below. *)
Definition error_within (isError : SyntaxNode -> bool) (n : SyntaxNode)
  : bool :=
  existsb isError (preorder n).

(** ** The completion widget ([CodeCompleteWidget]) *)

(** [Complete]: what a matcher proposes. *)
Record Complete : Type := mkComplete {
  offsetStart : option Z;
  offsetEnd : option Z;
  complete_text : jsstring
}.

(** A child of [completeArea]: the proposal it shows, the [start] and
    [end] its click listener has closed over, and whether it carries the
    class [auto-complete-selected]. *)
Record MenuItem : Type := mkItem {
  item : Complete;
  item_start : Z;
  item_end : Z;
  marked : bool
}.

(** The widget's own state: whether [completeArea] is in the document, its
    children, and [_selectIndex]. *)
Record CompleteMenu : Type := mkMenu {
  isConnected : bool;
  menu_children : list MenuItem;
  _selectIndex : Z
}.

(** [children[i]]: [undefined] outside the list. *)
Definition child_at {A : Type} (l : list A) (i : Z) : option A :=
  if i <? 0 then None else nth_error l (Z.to_nat i).

(** [children[i]?.classList.add/remove('auto-complete-selected')] *)
Definition set_marked (v : bool) (i : Z) (l : list MenuItem)
  : list MenuItem :=
  if i <? 0 then l
  else update_nth (Z.to_nat i)
                  (fun it => mkItem (item it) (item_start it) (item_end it) v)
                  l.

(** [select(index)] *)
Definition select (index : Z) (m : CompleteMenu) : CompleteMenu :=
  mkMenu (isConnected m)
         (set_marked true index
                     (set_marked false (_selectIndex m) (menu_children m)))
         index.

(** [closeComplete()]: [completeArea.remove()]. *)
Definition closeComplete (m : CompleteMenu) : CompleteMenu :=
  mkMenu false (menu_children m) (_selectIndex m).

(** [openComplete(start, end, list)]: the area is put into the document
    and emptied; without a range for the selection that is all; otherwise
    one child per proposal is added and the first one selected.  Where the
    area is put on the screen is not part of the model. *)
Definition openComplete (spans : list Segment) (start end_ : Z)
           (list : list Complete) (m : CompleteMenu) : Res CompleteMenu :=
  match selectionToRange spans start end_ with
  | Throw e => Throw e
  | Ok None => Ok (mkMenu true [] (_selectIndex m))
  | Ok (Some _) =>
      Ok (select 0 (mkMenu true
                           (map (fun c => mkItem c start end_ false) list)
                           (_selectIndex m)))
  end.

Inductive Key : Type := ArrowDown | ArrowUp | Enter | Escape | OtherKey.

(** The keydown listener of [initHotKey].  It returns the menu as the keys
    themselves leave it and, for [Enter], the child whose click listener is
    called. *)
Definition hotKey (k : Key) (m : CompleteMenu)
  : CompleteMenu * option MenuItem :=
  if negb (isConnected m) then (m, None)
  else
    match k with
    | ArrowDown =>
        (select (Z.min (Z.of_nat (List.length (menu_children m)) - 1)
                       (_selectIndex m + 1)) m, None)
    | ArrowUp => (select (Z.max 0 (_selectIndex m - 1)) m, None)
    | Enter => (m, child_at (menu_children m) (_selectIndex m))
    | Escape => (closeComplete m, None)
    | OtherKey => (m, None)
    end.




(** Moving in an open menu: the two arrow keys, any other key, and the
    pointer entering the [i]-th child. *)
Inductive Move : Type := Down | Up | Other | Hover (i : nat).

Definition move (mv : Move) (m : CompleteMenu) : CompleteMenu :=
  match mv with
  | Down => fst (hotKey ArrowDown m)
  | Up => fst (hotKey ArrowUp m)
  | Other => fst (hotKey OtherKey m)
  | Hover i =>
      if (i <? List.length (menu_children m))%nat
      then select (Z.of_nat i) m
      else m
  end.

(** The selected index is that of a child, and this child is the only one
    that is marked. *)
Definition menu_ok (m : CompleteMenu) : Prop :=
  0 <= _selectIndex m < Z.of_nat (List.length (menu_children m))
  /\ forall j it,
      nth_error (menu_children m) j = Some it ->
      marked it = (Z.of_nat j =? _selectIndex m).

(** What a matcher of the widget is made of: a compiled query and the
    function [run]. *)
Definition Matcher : Type :=
  (Query * (Selection -> string -> SyntaxNode -> list Complete))%type.

(** The proposals the [afterChange] handler gathers for a collapsed
    selection: for every matcher, match and capture, in order, what [run]
    returns, skipping the captured nodes that end before the cursor or
    start after it. *)
Definition completions (matches : list Matcher) (sel : Selection)
           (root : SyntaxNode) : list Complete :=
  let index := sel_start sel in
  flat_map
    (fun mt : Matcher =>
       flat_map
         (fun cap =>
            if (endIndex (cap_node cap) <? index)
               || (index <? startIndex (cap_node cap))
            then []
            else snd mt sel (cap_name cap) (cap_node cap))
         (concat (fst mt root)))
    matches.

(** The [afterChange] handler of the widget: the menu is closed; for a
    collapsed selection the proposals are gathered and, if there are any,
    the menu is opened at the cursor. *)
Definition refresh (matches : list Matcher) (w : World) (m : CompleteMenu)
  : Res CompleteMenu :=
  let closed := closeComplete m in
  match selection w with
  | None => Ok closed
  | Some sel =>
      if negb (sel_start sel =? sel_end sel) then Ok closed
      else
        match matches, tree w with
        | [], _ => Ok closed
        | _ :: _, None => Throw TypeError
        | _ :: _, Some root =>
            match completions matches sel root with
            | [] => Ok closed
            | result =>
                openComplete (codeArea w) (sel_start sel) (sel_end sel)
                             result closed
            end
        end
  end.

(** ** The playground's proposals ([buildComplete]) *)

(** [s.startsWith(t)] *)
Fixpoint startsWith (s t : jsstring) : bool :=
  match t, s with
  | [], _ => true
  | _ :: _, [] => false
  | c :: t', d :: s' => Ascii.eqb c d && startsWith s' t'
  end.

Definition jsstring_eqb (s t : jsstring) : bool :=
  if list_eq_dec ascii_dec s t then true else false.

(** [node.text]: the text of the node's span in the text that was parsed. *)
Definition node_text (src : jsstring) (n : SyntaxNode) : jsstring :=
  slice src (startIndex n) (endIndex n).

(** [filter(text)]: [s.startsWith(text) && text != s]. *)
Definition completion_filter (txt s : jsstring) : bool :=
  startsWith s txt && negb (jsstring_eqb txt s).

(** [buildComplete(options, selection, node)], for a node of the tree of
    [src]. *)
Definition buildComplete (src : jsstring) (options : list jsstring)
           (sel : Selection) (node : SyntaxNode) : list Complete :=
  map (fun v => mkComplete (Some (startIndex node - sel_start sel))
                           (Some (endIndex node - sel_end sel)) v)
      (filter (completion_filter (node_text src node)) options).

(** What a child of the menu shows and what its click listener has closed
    over. *)
Definition item_fields (it : MenuItem) : Complete * Z * Z :=
  (item it, item_start it, item_end it).

(** The traversal stops in front of [l]: [l] is empty or its first node
    does not start before [index]. *)
Definition stops (index : Z) (l : list SyntaxNode) : Prop :=
  match l with
  | [] => True
  | x :: _ => index <= startIndex x
  end.

(** An entry whose node has the span of [n]. *)
Definition same_span (n : SyntaxNode) (h : SyntaxNode * list string) : bool :=
  (startIndex (fst h) =? startIndex n) && (endIndex (fst h) =? endIndex n).

(** * Properties *)

(** ** Slices of a string *)

Lemma len_nonneg (s : jsstring) : 0 <= len s.
Proof. unfold len; lia. Qed.

Lemma len_app (s t : jsstring) : len (s ++ t) = len s + len t.
Proof. unfold len; rewrite length_app; lia. Qed.

Lemma len_nil_iff (s : jsstring) : len s = 0 <-> s = [].
Proof.
  unfold len; destruct s; simpl; split; intro H; try reflexivity;
    try discriminate; lia.
Qed.

Lemma rel_index_in_range (n i : Z) : 0 <= i <= n -> rel_index n i = i.
Proof. intros H; unfold rel_index; destruct (Z.ltb_spec i 0); lia. Qed.

Lemma slice_in_range (s : jsstring) (a b : Z) :
  0 <= a <= b -> b <= len s ->
  slice s a b = firstn (Z.to_nat (b - a)) (skipn (Z.to_nat a) s).
Proof.
  intros Hab Hb; unfold slice.
  rewrite !rel_index_in_range by lia.
  destruct (Z.leb_spec b a); [|reflexivity].
  replace (b - a) with 0 by lia; reflexivity.
Qed.

Lemma slice_from_in_range (s : jsstring) (a : Z) :
  0 <= a <= len s -> slice_from s a = skipn (Z.to_nat a) s.
Proof.
  intros Ha; unfold slice_from.
  rewrite rel_index_in_range by lia.
  destruct (Z.leb_spec (len s) a).
  - symmetry; apply skipn_all2; unfold len in *; lia.
  - apply firstn_all2; rewrite length_skipn; unfold len in *; lia.
Qed.



Lemma len_slice (s : jsstring) (a b : Z) :
  0 <= a <= b -> b <= len s -> len (slice s a b) = b - a.
Proof.
  intros Hab Hb; rewrite slice_in_range by assumption.
  unfold len in *; rewrite length_firstn, length_skipn; lia.
Qed.

(** A string is its prefix, its middle and its suffix put together. *)
Lemma slice_split3 (s : jsstring) (a b : Z) :
  0 <= a <= b -> b <= len s ->
  slice s 0 a ++ slice s a b ++ slice_from s b = s.
Proof.
  intros Hab Hb.
  rewrite (slice_in_range s 0 a) by lia.
  rewrite (slice_in_range s a b) by lia.
  rewrite slice_from_in_range by lia.
  simpl skipn. rewrite Z.sub_0_r.
  replace (Z.to_nat b) with (Z.to_nat (b - a) + Z.to_nat a)%nat by lia.
  rewrite <- (skipn_skipn (Z.to_nat (b - a)) (Z.to_nat a) s).
  rewrite firstn_skipn. apply firstn_skipn.
Qed.

(** ** Tilings *)

Lemma tiling_app (a b c : Z) (r1 r2 : list Segment) :
  tiling a r1 b -> tiling b r2 c -> tiling a (r1 ++ r2) c.
Proof.
  revert a; induction r1 as [|s r1 IH]; simpl; intros a H1 H2.
  - subst; assumption.
  - destruct H1 as [Ho H1]; split; [assumption|]. eapply IH; eassumption.
Qed.

Lemma tiling_snoc (a b : Z) (r : list Segment) (s : Segment) :
  tiling a r b -> offset s = b -> tiling a (r ++ [s]) (b + len (text s)).
Proof.
  intros Hr Ho; eapply tiling_app; [eassumption|]. simpl; auto.
Qed.

Lemma tiling_source_len (a b : Z) (r : list Segment) :
  tiling a r b -> b = a + len (source_of r).
Proof.
  revert a; induction r as [|s r IH]; simpl; intros a H.
  - unfold source_of; simpl. unfold len; simpl; lia.
  - destruct H as [_ H]. apply IH in H.
    unfold source_of in *; simpl. rewrite len_app. lia.
Qed.

Lemma tiling_adjacent (a b : Z) (r : list Segment) :
  tiling a r b ->
  forall i s s', nth_error r i = Some s -> nth_error r (S i) = Some s' ->
                 offset s + len (text s) = offset s'.
Proof.
  revert a; induction r as [|x r IH]; intros a H i s s' Hi Hi'.
  - destruct i; discriminate.
  - destruct H as [Ho H]. destruct i as [|i].
    + simpl in Hi, Hi'. injection Hi as <-.
      destruct r as [|y r]; [discriminate|].
      simpl in Hi'. injection Hi' as <-.
      destruct H as [Hy _]. lia.
    + simpl in Hi. change (nth_error (x :: r) (S (S i))) with
        (nth_error r (S i)) in Hi'.
      eapply IH; eassumption.
Qed.

Lemma tiling_first (a b : Z) (r : list Segment) (s : Segment) :
  tiling a r b -> hd_error r = Some s -> offset s = a.
Proof.
  destruct r as [|x r]; simpl; intros H Hs; [discriminate|].
  injection Hs as <-. tauto.
Qed.

Lemma tiling_offsets_from (a b : Z) (r : list Segment) :
  tiling a r b -> Forall (fun s => text s <> []) r ->
  Forall (fun s => a <= offset s) r /\ a <= b.
Proof.
  revert a; induction r as [|x r IH]; simpl; intros a H Hne.
  - split; [constructor | lia].
  - destruct H as [Ho H]. inversion Hne as [|? ? Hx Hr]; subst.
    destruct (IH _ H Hr) as [Hall Hle].
    pose proof (len_nonneg (text x)).
    split; [|lia].
    constructor; [lia|].
    eapply Forall_impl; [|exact Hall]. simpl; intros; lia.
Qed.

(** Non-empty segments that tile are in strictly ascending offset order. *)
Lemma tiling_ascending (a b : Z) (r : list Segment) :
  tiling a r b -> Forall (fun s => text s <> []) r ->
  StronglySorted Z.lt (map offset r).
Proof.
  revert a; induction r as [|x r IH]; simpl; intros a H Hne.
  - constructor.
  - destruct H as [Ho H]. inversion Hne as [|? ? Hx Hr]; subst.
    constructor; [eapply IH; eassumption|].
    destruct (tiling_offsets_from _ _ _ H Hr) as [Hall _].
    apply Forall_map. eapply Forall_impl; [|exact Hall].
    simpl; intros s Hs.
    assert (0 < len (text x)).
    { pose proof (len_nonneg (text x)).
      destruct (Z.eq_dec (len (text x)) 0) as [E|E]; [|lia].
      apply len_nil_iff in E; contradiction. }
    lia.
Qed.

(** ** The segmentation loop keeps a tiling of the consumed prefix *)

Lemma source_of_snoc (r : list Segment) (s : Segment) :
  source_of (r ++ [s]) = source_of r ++ text s.
Proof.
  unfold source_of. rewrite map_app, concat_app. simpl.
  rewrite app_nil_r; reflexivity.
Qed.

Lemma loop_inv_index (src : jsstring) (st : RenderLoop) :
  loop_inv src st -> index st + len (rest st) = len src.
Proof.
  intros [Hs Ht _]. apply tiling_source_len in Ht.
  rewrite <- Hs, len_app. lia.
Qed.

(** Pushing a piece [t] that continues the tiling at [b]; an empty piece is
    skipped and changes nothing. *)
Lemma push_if_tiling (b : Z) (nm : list string) (t : jsstring)
      (r : list Segment) :
  tiling 0 r b -> Forall (fun s => text s <> []) r ->
  let r' := push_if t (mkSegment nm t b) r in
  tiling 0 r' (b + len t) /\ Forall (fun s => text s <> []) r'
  /\ source_of r' = source_of r ++ t.
Proof.
  intros Ht Hne; unfold push_if; destruct t as [|c t]; simpl.
  - rewrite app_nil_r. replace (b + len []) with b by (unfold len; simpl; lia).
    auto.
  - repeat split.
    + apply (tiling_snoc 0 b r (mkSegment nm (c :: t) b) Ht); reflexivity.
    + apply Forall_app; split; [assumption|].
      constructor; [simpl; discriminate | constructor].
    + apply source_of_snoc.
Qed.

Lemma render_step_inv (src : jsstring) (st : RenderLoop)
      (h : SyntaxNode * list string) :
  loop_inv src st ->
  index st <= startIndex (fst h) -> startIndex (fst h) <= endIndex (fst h) ->
  endIndex (fst h) <= len src ->
  loop_inv src (render_step st h).
Proof.
  intros Hinv Hs Hse He.
  pose proof (loop_inv_index _ _ Hinv) as Hidx.
  destruct Hinv as [Hsrc Ht Hne].
  set (a := startIndex (fst h) - index st).
  set (b := endIndex (fst h) - index st).
  assert (Hab : 0 <= a <= b) by (unfold a, b; lia).
  assert (Hb : b <= len (rest st)) by (unfold b; lia).
  unfold render_step; fold a; fold b.
  destruct (push_if_tiling _ [] (slice (rest st) 0 a) _ Ht Hne)
    as (Ht1 & Hne1 & Hs1).
  rewrite len_slice in Ht1 by lia.
  replace (index st + (a - 0)) with (startIndex (fst h)) in Ht1
    by (unfold a; lia).
  destruct (push_if_tiling _ (snd h) (slice (rest st) a b) _ Ht1 Hne1)
    as (Ht2 & Hne2 & Hs2).
  rewrite len_slice in Ht2 by lia.
  replace (startIndex (fst h) + (b - a)) with (endIndex (fst h)) in Ht2
    by (unfold a, b; lia).
  constructor; simpl.
  - rewrite Hs2, Hs1, <- !app_assoc.
    rewrite slice_split3 by lia. exact Hsrc.
  - exact Ht2.
  - exact Hne2.
Qed.

Lemma render_loop_inv (src : jsstring) (hl : Highlight) (st : RenderLoop) :
  loop_inv src st ->
  spans_in_order (index st) hl (len src) = true ->
  let st' := fold_left render_step hl st in
  loop_inv src st' /\ index st' <= len src.
Proof.
  revert st; induction hl as [|[n nm] hl IH]; simpl; intros st Hinv Hsp.
  - split; [assumption | lia].
  - apply andb_prop in Hsp as [Hsp Hrest].
    apply andb_prop in Hsp as [H1 H2].
    apply Z.leb_le in H1, H2.
    assert (Hn : endIndex n <= len src).
    { clear - Hrest. revert Hrest. generalize (endIndex n).
      induction hl as [|[m mm] hl IH]; simpl; intros z H.
      - lia.
      - apply andb_prop in H as [H H3]. apply andb_prop in H as [H4 H5].
        apply IH in H3. lia. }
    apply IH.
    + apply render_step_inv; simpl; assumption.
    + exact Hrest.
Qed.

(** The segment list of [renderTree] for spans laid out in order. *)
Lemma render_segments_tiling (src : jsstring) (hl : Highlight) :
  spans_in_order 0 hl (len src) = true ->
  let segs := render_segments src hl in
  tiling 0 segs (len src)
  /\ Forall (fun s => text s <> []) segs
  /\ source_of segs = src.
Proof.
  intros Hsp. unfold render_segments.
  assert (H0 : loop_inv src (mkLoop [] src 0)).
  { constructor; simpl; [reflexivity | reflexivity | constructor]. }
  destruct (render_loop_inv src hl _ H0 Hsp) as [Hinv Hle].
  set (st := fold_left render_step hl (mkLoop [] src 0)) in *.
  pose proof (loop_inv_index _ _ Hinv) as Hidx.
  destruct Hinv as [Hsrc Ht Hne].
  destruct (push_if_tiling _ [] (rest st) _ Ht Hne) as (Ht' & Hne' & Hs').
  cbv zeta. rewrite Hidx in Ht'. rewrite Hs', Hsrc. auto.
Qed.

(** ** Node lookup *)

Lemma SyntaxNode_rect_list (P : SyntaxNode -> Prop) :
  (forall i s e cs, Forall P cs -> P (mkNode i s e cs)) ->
  forall n, P n.
Proof.
  intros H. fix IH 1. intros [i s e cs]. apply H.
  induction cs as [|c cs IHcs]; constructor; [apply IH | exact IHcs].
Qed.

Lemma preorder_eq (i : nat) (s e : Z) (cs : list SyntaxNode) :
  preorder (mkNode i s e cs) = mkNode i s e cs :: preorder_list cs.
Proof.
  simpl. reflexivity.
Qed.

Lemma tree_size_preorder (n : SyntaxNode) :
  tree_size n = List.length (preorder n).
Proof.
  induction n as [i s e cs IH] using SyntaxNode_rect_list.
  rewrite preorder_eq. simpl. f_equal. unfold preorder_list.
  induction IH as [|c cs Hc _ IHcs]; simpl; [reflexivity|].
  rewrite length_app, Hc, IHcs. reflexivity.
Qed.

Lemma wf_node_eq (i : nat) (s e : Z) (cs : list SyntaxNode) :
  wf_node (mkNode i s e cs) = (0 <=? s) && (s <=? e) && wf_children e s cs.
Proof.
  simpl. f_equal. generalize s as from.
  induction cs as [|c cs IH]; intros from; simpl; [reflexivity|].
  now rewrite IH.
Qed.

(** The traversal of [find] and [findNext] is a scan of the nodes in
    preorder, and the fuel below is enough for it. *)
Lemma find_findNext_scan (index : Z) (fuel : nat) :
  (forall c lastNode,
      (2 * List.length (preorder (currentNode c) ++ after (path c))
       + List.length (path c) + 1 <= fuel)%nat ->
      find fuel index c lastNode
      = Some (scan index (preorder (currentNode c) ++ after (path c))
                   lastNode))
  /\ (forall c lastNode,
         (2 * List.length (after (path c)) + List.length (path c) + 2
          <= fuel)%nat ->
         findNext fuel index c lastNode
         = Some (scan index (after (path c)) lastNode)).
Proof.
  induction fuel as [|fuel [IHfind IHnext]]; split; intros c lastNode Hfuel;
    try (exfalso; lia).
  - (* find *)
    destruct c as [[i s e cs] p]. simpl currentNode in *. simpl path in *.
    rewrite preorder_eq in *.
    cbn [find scan app]. unfold cursor_startIndex; simpl currentNode.
    simpl startIndex. destruct (s <? index); [|reflexivity].
    destruct cs as [|k ks].
    + simpl. rewrite IHnext; [reflexivity|]. simpl in *. lia.
    + change ((0 <? childCount (mkNode i s e (k :: ks)))%nat) with true.
      cbv iota. rewrite IHfind.
      * simpl. now rewrite app_assoc.
      * simpl in Hfuel |- *. rewrite !length_app in Hfuel |- *. lia.
  - (* findNext *)
    destruct c as [n p]. simpl path in *. cbn [findNext].
    destruct p as [|f fs].
    + reflexivity.
    + unfold nextSibling. simpl path. destruct f as [fi fs' fe fl fr].
      simpl f_right. destruct fr as [|r rs].
      * simpl. rewrite IHnext; [reflexivity|]. simpl in *. lia.
      * simpl hd_error. cbv iota. rewrite IHfind.
        -- simpl. now rewrite app_assoc.
        -- simpl in Hfuel |- *. rewrite !length_app in Hfuel |- *. lia.
Qed.

(** [find] returns on every tree, with the fuel [findSyntaxNode] gives it
    and with any larger amount, and what it returns is the scan. *)
Lemma find_returns (tree : SyntaxNode) (index : Z) (fuel : nat) :
  (find_fuel tree <= fuel)%nat ->
  find fuel index (walk tree) None
  = Some (scan index (preorder tree) None).
Proof.
  intros Hfuel. destruct (find_findNext_scan index fuel) as [H _].
  specialize (H (walk tree) None). simpl in H. rewrite app_nil_r in H.
  apply H. unfold find_fuel in Hfuel.
  rewrite tree_size_preorder in Hfuel. lia.
Qed.

Lemma findSyntaxNode_scan (tree : SyntaxNode) (index : Z) :
  findSyntaxNode tree index = scan index (preorder tree) None.
Proof.
  unfold findSyntaxNode. now rewrite find_returns by apply Nat.le_refl.
Qed.

(** *** Start offsets along the traversal of a well-formed tree *)

Lemma StronglySorted_app {A : Type} (R : A -> A -> Prop) (l1 l2 : list A) :
  StronglySorted R l1 -> StronglySorted R l2 ->
  (forall x y, In x l1 -> In y l2 -> R x y) ->
  StronglySorted R (l1 ++ l2).
Proof.
  intros H1 H2 H12. induction H1 as [|x l1 Hl1 IH Hx]; simpl; [assumption|].
  constructor.
  - apply IH. intros a b Ha Hb. apply H12; [right|]; assumption.
  - apply Forall_app; split; [assumption|].
    apply Forall_forall. intros y Hy. apply H12; [left; reflexivity|assumption].
Qed.

Lemma wf_children_le (e : Z) (l : list SyntaxNode) :
  Forall (fun c => wf_node c = true -> startIndex c <= endIndex c) l ->
  forall from, wf_children e from l = true -> from <= e.
Proof.
  induction 1 as [|c l Hc _ IH]; simpl; intros from H.
  - now apply Z.leb_le.
  - apply andb_prop in H as [H H3]. apply andb_prop in H as [H1 H2].
    apply Z.leb_le in H1. specialize (IH _ H3). specialize (Hc H2). lia.
Qed.

Lemma wf_node_span (n : SyntaxNode) :
  wf_node n = true -> 0 <= startIndex n /\ startIndex n <= endIndex n.
Proof.
  destruct n as [i s e cs]. rewrite wf_node_eq. simpl. intros H.
  apply andb_prop in H as [H _]. apply andb_prop in H as [H1 H2].
  apply Z.leb_le in H1, H2. lia.
Qed.

(** In a well-formed tree the traversal meets start offsets in ascending
    order, and every node of a subtree starts inside the subtree's span. *)
Lemma wf_preorder_sorted (n : SyntaxNode) :
  wf_node n = true ->
  StronglySorted le_start (preorder n)
  /\ Forall (within (startIndex n) (endIndex n)) (preorder n).
Proof.
  induction n as [i s e cs IH] using SyntaxNode_rect_list.
  rewrite wf_node_eq, preorder_eq. simpl startIndex; simpl endIndex.
  intros H. apply andb_prop in H as [H Hcs]. apply andb_prop in H as [H0 Hse].
  apply Z.leb_le in H0, Hse.
  assert (Hkids : forall from, wf_children e from cs = true ->
            StronglySorted le_start (preorder_list cs)
            /\ Forall (within from e) (preorder_list cs)).
  { clear Hcs. induction IH as [|c cs Hc Hrest IHcs]; intros from Hw.
    - split; constructor.
    - simpl in Hw. apply andb_prop in Hw as [Hw Hw3].
      apply andb_prop in Hw as [Hw1 Hw2]. apply Z.leb_le in Hw1.
      destruct (Hc Hw2) as [Sc Fc]. destruct (IHcs _ Hw3) as [Scs Fcs].
      assert (Hce : endIndex c <= e).
      { eapply wf_children_le; [|exact Hw3].
        eapply Forall_impl; [|exact Hrest].
        intros a _ Ha. apply wf_node_span in Ha. lia. }
      pose proof (wf_node_span c Hw2) as Hspan.
      rewrite Forall_forall in Fc, Fcs.
      unfold preorder_list; simpl; fold (preorder_list cs). split.
      + apply StronglySorted_app; [assumption | assumption |].
        intros x y Hx Hy. apply Fc in Hx. apply Fcs in Hy.
        unfold within, le_start in *. lia.
      + apply Forall_app; split; apply Forall_forall; intros x Hx.
        * apply Fc in Hx. unfold within in *. lia.
        * apply Fcs in Hx. unfold within in *. lia. }
  destruct (Hkids _ Hcs) as [Scs Fcs]. split.
  - constructor; [assumption|].
    eapply Forall_impl; [|exact Fcs]. unfold within, le_start; simpl.
    intros a Ha. lia.
  - constructor; [unfold within; simpl; lia|].
    eapply Forall_impl; [|exact Fcs]. unfold within; simpl. intros a Ha. lia.
Qed.

Lemma last_error_In {A : Type} (l : list A) (y : A) :
  last_error l = Some y -> In y l.
Proof.
  induction l as [|x l IH]; simpl; [discriminate|].
  destruct (last_error l) as [z|].
  - intros H. right. apply IH. exact H.
  - intros [= <-]. now left.
Qed.

Lemma last_error_None {A : Type} (l : list A) :
  last_error l = None <-> l = [].
Proof.
  destruct l as [|x l]; simpl; [tauto|].
  destruct (last_error l); split; discriminate.
Qed.

(** On ascending start offsets, the scan stops exactly where the nodes that
    start before [index] end: it returns the last of them. *)
Lemma scan_sorted_filter (index : Z) (l : list SyntaxNode) :
  StronglySorted le_start l ->
  forall lastNode,
    scan index l lastNode
    = match last_error (filter (starts_before index) l) with
      | Some n => Some n
      | None => lastNode
      end.
Proof.
  induction 1 as [|n l Hl IH Hn]; intros lastNode; simpl; [reflexivity|].
  unfold starts_before at 1. destruct (Z.ltb_spec (startIndex n) index).
  - rewrite IH. simpl.
    destruct (last_error (filter (starts_before index) l)); reflexivity.
  - replace (filter (starts_before index) l) with (@nil SyntaxNode);
      [reflexivity|].
    symmetry. clear IH Hl.
    induction Hn as [|m l Hm _ IHl]; simpl; [reflexivity|].
    unfold starts_before at 1. unfold le_start in Hm.
    destruct (Z.ltb_spec (startIndex m) index); [lia|]. exact IHl.
Qed.

Lemma last_error_sorted {A : Type} (R : A -> A -> Prop) (l : list A) (y : A) :
  StronglySorted R l -> last_error l = Some y ->
  forall x, In x l -> x = y \/ R x y.
Proof.
  induction 1 as [|a l Hl IH Ha]; simpl; [discriminate|].
  intros Hlast x [<- | Hx].
  - destruct (last_error l) as [z|] eqn:E.
    + right. rewrite Forall_forall in Ha. apply Ha.
      apply last_error_In. congruence.
    + left. congruence.
  - destruct (last_error l) as [z|] eqn:E.
    + apply IH; assumption.
    + apply last_error_None in E. subst. contradiction.
Qed.

Lemma StronglySorted_filter {A : Type} (R : A -> A -> Prop) (f : A -> bool)
      (l : list A) :
  StronglySorted R l -> StronglySorted R (filter f l).
Proof.
  induction 1 as [|a l Hl IH Ha]; simpl; [constructor|].
  destruct (f a); [|assumption].
  constructor; [assumption|].
  rewrite Forall_forall in *. intros x Hx. apply Ha.
  apply filter_In in Hx. tauto.
Qed.

(** ** Segmentation: the tiling invariant *)

(** [getHighlight] hands the tagged nodes over in ascending start order. *)
Lemma insert_by_start_In (x y : SyntaxNode * list string) (l : Highlight) :
  In y (insert_by_start x l) -> y = x \/ In y l.
Proof.
  induction l as [|z l IH]; simpl.
  - intros [<- | []]. now left.
  - destruct (startIndex (fst x) <=? startIndex (fst z)); simpl.
    + intros [<- | H]; auto.
    + intros [<- | H]; auto. apply IH in H. tauto.
Qed.

Lemma sort_by_start_sorted (l : Highlight) :
  StronglySorted (fun a b => startIndex (fst a) <= startIndex (fst b))
                 (sort_by_start l).
Proof.
  induction l as [|x l IH]; simpl; [constructor|].
  induction IH as [|z r Hr IHr Hz]; simpl.
  - constructor; constructor.
  - destruct (Z.leb_spec (startIndex (fst x)) (startIndex (fst z))).
    + constructor; [constructor; assumption|].
      constructor; [assumption|].
      eapply Forall_impl; [|exact Hz]. simpl; intros; lia.
    + constructor; [exact IHr|].
      apply Forall_forall. intros y Hy.
      apply insert_by_start_In in Hy as [-> | Hy]; [lia|].
      rewrite Forall_forall in Hz. now apply Hz.
Qed.

Lemma getHighlight_ascending (q : option Query) (t : SyntaxNode) :
  StronglySorted (fun a b => startIndex (fst a) <= startIndex (fst b))
                 (getHighlight q t).
Proof. apply sort_by_start_sorted. Qed.

Lemma tiling_last_error (a b : Z) (r : list Segment) (s : Segment) :
  tiling a r b -> last_error r = Some s -> offset s + len (text s) = b.
Proof.
  revert a; induction r as [|x r IH]; simpl; intros a H Hl; [discriminate|].
  destruct H as [Ho H]. destruct (last_error r) as [y|] eqn:E.
  - eapply IH; eassumption.
  - apply last_error_None in E. subst r. simpl in H.
    injection Hl as <-. lia.
Qed.

(** Spans that are not empty, lie in the text, are pairwise disjoint and
    come in ascending start order are laid out one after the other. *)
Lemma disjoint_sorted_spans_in_order (src : jsstring) (hl : Highlight) :
  Forall (fun h => span_in_text (fst h) src) hl ->
  ForallOrdPairs (fun a b => spans_disjoint (fst a) (fst b)) hl ->
  StronglySorted (fun a b => startIndex (fst a) <= startIndex (fst b)) hl ->
  spans_in_order 0 hl (len src) = true.
Proof.
  intros Hin Hdis Hsort.
  assert (H : forall from, from <= len src ->
            Forall (fun h => from <= startIndex (fst h)) hl ->
            spans_in_order from hl (len src) = true).
  { induction hl as [|[n nm] hl IH]; simpl; intros from Hfrom Hall.
    - now apply Z.leb_le.
    - inversion Hin as [|? ? Hn Hin']; subst.
      inversion Hdis as [|? ? Hd Hdis']; subst.
      inversion Hsort as [|? ? Hsort' Hs]; subst.
      inversion Hall as [|? ? Hf _]; subst.
      destruct Hn as (Hn0 & Hn1 & Hn2). simpl in *.
      rewrite (proj2 (Z.leb_le _ _) Hf).
      rewrite (proj2 (Z.leb_le _ _) (Z.lt_le_incl _ _ Hn1)). simpl.
      apply IH; try assumption.
      rewrite Forall_forall in *. intros m Hm.
      specialize (Hd m Hm). specialize (Hs m Hm). specialize (Hin' m Hm).
      destruct Hin' as (_ & Hm1 & _). unfold spans_disjoint in Hd.
      simpl in *. lia. }
  apply H; [apply len_nonneg|].
  eapply Forall_impl; [|exact Hin]. intros h (H0 & _). exact H0.
Qed.

(** C1, with the layout the render step needs. For every source text and
    every list of tagged nodes whose spans lie within the text and are laid
    out one after the other in the order they are processed (each span
    begins no earlier than the span processed before it ends; for spans
    that are not empty this is what not overlapping and ascending start
    order come to), the segments produced by the render step are in
    ascending offset order; they tile [0, length(text)) without gap or
    overlap: the end of each segment is the offset of the next, the first
    segment starts at 0 and the last one ends at length(text); and their
    texts, put together in order, are the source text. *)
Theorem renderTree_segments_tile (src : jsstring) (hl : Highlight) :
  spans_in_order 0 hl (len src) = true ->
  let segs := render_segments src hl in
  StronglySorted Z.lt (map offset segs)
  /\ tiling 0 segs (len src)
  /\ (forall i s s',
         nth_error segs i = Some s -> nth_error segs (S i) = Some s' ->
         offset s + len (text s) = offset s')
  /\ (forall s, hd_error segs = Some s -> offset s = 0)
  /\ (forall s, last_error segs = Some s ->
                offset s + len (text s) = len src)
  /\ source_of segs = src.
Proof.
  intros Hsp segs.
  destruct (render_segments_tiling src hl Hsp) as (Ht & Hne & Hsrc).
  fold segs in Ht, Hne, Hsrc.
  split; [eapply tiling_ascending; eassumption|].
  split; [assumption|].
  split; [eapply tiling_adjacent; eassumption|].
  split; [intros s Hs; eapply tiling_first; eassumption|].
  split; [intros s Hs; eapply tiling_last_error; eassumption|].
  assumption.
Qed.

Lemma renderTree_segments_tile_witness :
  let src := js "1+23" in
  let hl := [(mkNode 1 0 1 [], ["number"%string]);
             (mkNode 3 2 4 [], ["number"%string])] in
  spans_in_order 0 hl (len src) = true
  /\ source_of (render_segments src hl) = src.
Proof.
  intros src hl. split; [reflexivity|].
  apply (renderTree_segments_tile src hl). reflexivity.
Defined.

(** C1, as stated, fails: on the text [abcdefgh], for the span [2, 5)
    followed by the empty span [2, 2).  Both spans lie within the text,
    they do not overlap (the second ends where the first begins, and no
    position belongs to both) and they come in ascending start order.  The
    empty span moves [index] back from 5 to 2, and the trailing segment
    [fgh] is given the offset 2: the texts of the segments still make up
    the source, but their offsets are 0, 2, 2, which is neither ascending
    nor a tiling of the text. *)
Theorem empty_span_breaks_tiling :
  let src := js "abcdefgh" in
  let hl := [(mkNode 1 2 5 [], ["a"%string]);
             (mkNode 2 2 2 [], ["b"%string])] in
  let segs := render_segments src hl in
  Forall (fun h => span_within (fst h) src) hl
  /\ ForallOrdPairs (fun a b => spans_disjoint (fst a) (fst b)) hl
  /\ (forall o, ~ (2 <= o < 5 /\ 2 <= o < 2))
  /\ StronglySorted (fun a b => startIndex (fst a) <= startIndex (fst b)) hl
  /\ segs = [mkSegment [] (js "ab") 0;
             mkSegment ["a"%string] (js "cde") 2;
             mkSegment [] (js "fgh") 2]
  /\ source_of segs = src
  /\ ~ StronglySorted Z.lt (map offset segs)
  /\ ~ tiling 0 segs (len src).
Proof.
  intros src hl segs.
  split.
  { constructor; [|constructor; [|constructor]];
      unfold span_within; simpl; unfold len; simpl; lia. }
  split.
  { apply FOP_cons; [|apply FOP_cons; [constructor | apply FOP_nil]].
    constructor; [|constructor]. right. simpl. lia. }
  split; [intros o [_ H]; lia|].
  split.
  { apply SSorted_cons; [apply SSorted_cons; [apply SSorted_nil|]|].
    - constructor.
    - constructor; [simpl; lia | constructor]. }
  split; [reflexivity|]. split; [reflexivity|]. split.
  - intros H. inversion H as [|? ? H1 _]; subst.
    inversion H1 as [|? ? _ H2]; subst.
    inversion H2 as [|? ? H3 _]; subst. lia.
  - simpl. intros (_ & _ & H & _). discriminate H.
Qed.

(** ** Node lookup: the node found, and monotonicity *)

(** C5. On every well-formed syntax tree and for every offset,
    [findSyntaxNode] returns (its traversal ends within the calls it is
    given) the last node, in the order of the descent-first depth-first
    traversal, among the nodes that start strictly before the offset; it
    returns no node when no node of the tree starts strictly before the
    offset, and in particular for offset 0. *)
Theorem findSyntaxNode_last_node_before (tree : SyntaxNode) (index : Z) :
  wf_node tree = true ->
  find (find_fuel tree) index (walk tree) None
  = Some (findSyntaxNode tree index)
  /\ findSyntaxNode tree index
     = last_error (filter (starts_before index) (preorder tree))
  /\ ((forall n, In n (preorder tree) -> ~ startIndex n < index) ->
      findSyntaxNode tree index = None)
  /\ findSyntaxNode tree 0 = None.
Proof.
  intros Hwf. destruct (wf_preorder_sorted tree Hwf) as [Hsort Hin].
  assert (Hlast : forall i, findSyntaxNode tree i
            = last_error (filter (starts_before i) (preorder tree))).
  { intros i. rewrite findSyntaxNode_scan, (scan_sorted_filter i _ Hsort).
    destruct (last_error (filter (starts_before i) (preorder tree)));
      reflexivity. }
  assert (Hnone : forall i,
            (forall n, In n (preorder tree) -> ~ startIndex n < i) ->
            findSyntaxNode tree i = None).
  { intros i Hno. rewrite Hlast. apply last_error_None.
    destruct (filter (starts_before i) (preorder tree)) as [|n l] eqn:E;
      [reflexivity|].
    assert (Hn : In n (filter (starts_before i) (preorder tree)))
      by (rewrite E; now left).
    apply filter_In in Hn as [Hn Hb]. unfold starts_before in Hb.
    apply Z.ltb_lt in Hb. exfalso. exact (Hno n Hn Hb). }
  split; [|split; [apply Hlast | split; [apply Hnone|]]].
  - rewrite find_returns by apply Nat.le_refl.
    now rewrite findSyntaxNode_scan.
  - apply Hnone. intros n Hn Hlt.
    rewrite Forall_forall in Hin. specialize (Hin n Hn).
    pose proof (wf_node_span tree Hwf). unfold within in Hin. lia.
Qed.

Lemma findSyntaxNode_last_node_before_witness :
  let tree := parse sums (js "1+23") None in
  wf_node tree = true
  /\ findSyntaxNode tree 3 = Some (mkNode 3 2 4 [])
  /\ findSyntaxNode tree 0 = None.
Proof.
  intros tree. split; [reflexivity|].
  destruct (findSyntaxNode_last_node_before tree 3 eq_refl)
    as (_ & Hlast & _ & Hzero).
  split; [rewrite Hlast; reflexivity | exact Hzero].
Defined.

(** C6. On every well-formed syntax tree and for offsets [o1 < o2] at both
    of which [findSyntaxNode] returns a node, the node returned for [o1]
    starts no later than the node returned for [o2]. *)
Theorem findSyntaxNode_monotone (tree : SyntaxNode) (o1 o2 : Z)
        (n1 n2 : SyntaxNode) :
  wf_node tree = true -> o1 < o2 ->
  findSyntaxNode tree o1 = Some n1 -> findSyntaxNode tree o2 = Some n2 ->
  startIndex n1 <= startIndex n2.
Proof.
  intros Hwf Hlt H1 H2.
  destruct (wf_preorder_sorted tree Hwf) as [Hsort _].
  rewrite findSyntaxNode_scan, (scan_sorted_filter _ _ Hsort) in H1.
  rewrite findSyntaxNode_scan, (scan_sorted_filter _ _ Hsort) in H2.
  destruct (last_error (filter (starts_before o1) (preorder tree)))
    as [m1|] eqn:E1; [|discriminate].
  destruct (last_error (filter (starts_before o2) (preorder tree)))
    as [m2|] eqn:E2; [|discriminate].
  injection H1 as <-. injection H2 as <-.
  apply last_error_In, filter_In in E1 as [Hin1 Hb1].
  unfold starts_before in Hb1. apply Z.ltb_lt in Hb1.
  assert (Hin2 : In m1 (filter (starts_before o2) (preorder tree))).
  { apply filter_In. split; [assumption|].
    unfold starts_before. apply Z.ltb_lt. lia. }
  destruct (last_error_sorted le_start _ m2
              (StronglySorted_filter le_start _ _ Hsort) E2 m1 Hin2)
    as [-> | Hle]; [lia | exact Hle].
Qed.

Lemma findSyntaxNode_monotone_witness :
  let tree := parse sums (js "1+23") None in
  wf_node tree = true /\ 1 < 3
  /\ findSyntaxNode tree 1 = Some (mkNode 1 0 1 [])
  /\ findSyntaxNode tree 3 = Some (mkNode 3 2 4 [])
  /\ startIndex (mkNode 1 0 1 []) <= startIndex (mkNode 3 2 4 []).
Proof.
  intros tree.
  split; [reflexivity | split; [lia | split; [reflexivity |
    split; [reflexivity|]]]].
  apply (findSyntaxNode_monotone tree 1 3); reflexivity || lia.
Defined.

(** ** Running methods *)

Lemma set_trace_same (w : World) : set_trace (trace w) w = w.
Proof. destruct w; reflexivity. Qed.

Lemma set_domSelection_same (w : World) :
  set_domSelection (domSelection w) w = w.
Proof. destruct w; reflexivity. Qed.

Lemma forEach_run_handler (e : EventName) (hs : list Handler) (w : World) :
  forEach hs (run_handler e) w
  = Ok (tt, set_trace (trace w ++ notifications e hs) w).
Proof.
  revert w; induction hs as [|h hs IH]; intros w; simpl.
  - unfold ret. now rewrite app_nil_r, set_trace_same.
  - unfold bind at 1. unfold run_handler, log, modify. rewrite IH.
    unfold set_trace; simpl. now rewrite <- app_assoc.
Qed.

Lemma emit_eq (e : EventName) (w : World) :
  emit e w = Ok (tt, set_trace (trace w ++ emission e w) w).
Proof.
  unfold emit, bind, log, modify, get. rewrite forEach_run_handler.
  unfold emission. destruct e; unfold set_trace; simpl;
    now rewrite <- app_assoc.
Qed.

(** *** [findNode] *)

Lemma findNode_from_some (spans : list Segment) (index : Z) :
  forall i j k,
    findNode_from i spans index = Some (j, k) ->
    exists child,
      (i <= j)%nat /\ nth_error spans (j - i) = Some child
      /\ in_segment index child /\ k = index - offset child.
Proof.
  induction spans as [|c spans IH]; simpl; intros i j k H; [discriminate|].
  destruct ((offset c <=? index) && (index <=? offset c + len (text c)))
    eqn:E.
  - injection H as <- <-. exists c. rewrite Nat.sub_diag. simpl.
    apply andb_prop in E as [E1 E2]. apply Z.leb_le in E1, E2.
    unfold in_segment. repeat split; try lia.
  - destruct (IH _ _ _ H) as (child & Hij & Hnth & Hin & Hk).
    exists child. split; [lia|]. split; [|tauto].
    replace (j - i)%nat with (S (j - S i)) by lia. exact Hnth.
Qed.

Lemma findNode_some (spans : list Segment) (index : Z) (j : nat) (k : Z) :
  findNode spans index = Some (j, k) ->
  exists child,
    nth_error spans j = Some child /\ in_segment index child
    /\ k = index - offset child.
Proof.
  intros H. apply findNode_from_some in H as (child & _ & Hnth & Hin & Hk).
  rewrite Nat.sub_0_r in Hnth. eauto.
Qed.

Lemma findNode_from_none (spans : list Segment) (index : Z) (i : nat) :
  findNode_from i spans index = None
  <-> Forall (fun s => ~ in_segment index s) spans.
Proof.
  revert i; induction spans as [|c spans IH]; simpl; intros i.
  - split; [constructor | reflexivity].
  - destruct (Z.leb_spec (offset c) index) as [H1|H1];
      destruct (Z.leb_spec index (offset c + len (text c))) as [H2|H2];
      simpl;
      try (rewrite IH; split;
           [intros H; constructor; [unfold in_segment; lia | exact H]
           | intros H; now inversion H]).
    split; [discriminate|]. intros H. inversion H as [|? ? Hc _]; subst.
    exfalso. apply Hc. unfold in_segment. lia.
Qed.

Lemma findNode_from_first (spans : list Segment) (o : Z) :
  forall i j k,
    findNode_from i spans o = Some (j, k) ->
    forall m child,
      (m < j - i)%nat -> nth_error spans m = Some child ->
      ~ in_segment o child.
Proof.
  induction spans as [|c spans IH]; simpl; intros i j k H m child Hm Hnth;
    [discriminate|].
  destruct ((offset c <=? o) && (o <=? offset c + len (text c))) eqn:E.
  - injection H as <- <-. lia.
  - destruct m as [|m]; simpl in Hnth.
    + injection Hnth as <-. unfold in_segment. intros [H1 H2].
      apply Z.leb_le in H1, H2. rewrite H1, H2 in E. discriminate.
    + apply (IH _ _ _ H m child); [|exact Hnth].
      apply findNode_from_some in H as (_ & Hij & _). lia.
Qed.

(** A position [findNode] returns is a valid boundary of its text node. *)
Lemma findNode_boundary_ok (spans : list Segment) (index : Z) (p : nat * Z) :
  findNode spans index = Some p -> boundary_ok spans p = true.
Proof.
  destruct p as [j k]. intros H.
  apply findNode_some in H as (child & Hnth & [H1 H2] & ->).
  unfold boundary_ok, text_length; simpl. rewrite Hnth.
  apply andb_true_intro; split; apply Z.leb_le; lia.
Qed.

(** *** Restoring the selection *)

Lemma selectionToRange_returns (spans : list Segment) (a b : Z) :
  exists r, selectionToRange spans a b = Ok r.
Proof.
  unfold selectionToRange.
  destruct (findNode spans a) as [p|] eqn:Ea; [|eauto].
  destruct (findNode spans b) as [q|] eqn:Eb; [|eauto].
  rewrite (findNode_boundary_ok _ _ _ Ea), (findNode_boundary_ok _ _ _ Eb).
  eauto.
Qed.

Lemma selectionToRange_unmapped (spans : list Segment) (a b : Z) :
  findNode spans a = None \/ findNode spans b = None ->
  selectionToRange spans a b = Ok None.
Proof.
  unfold selectionToRange. intros [H | H]; rewrite H; [reflexivity|].
  destruct (findNode spans a); reflexivity.
Qed.

Lemma restoreSelection_returns (w : World) :
  exists d, restoreSelection w = Ok (tt, set_domSelection d w).
Proof.
  unfold restoreSelection, bind, get, lift.
  destruct (selection w) as [sel|].
  - destruct (selectionToRange_returns (codeArea w) (sel_start sel)
                                       (sel_end sel)) as [r ->].
    destruct r as [r|].
    + exists (Some r). reflexivity.
    + exists (domSelection w). unfold ret. now rewrite set_domSelection_same.
  - exists (domSelection w). unfold ret. now rewrite set_domSelection_same.
Qed.

Lemma setSelection_returns (a b : Z) (w : World) :
  exists d,
    setSelection a b w
    = Ok (tt, set_domSelection d (set_selection (Some (mkSelection a b)) w)).
Proof.
  unfold setSelection, bind, modify. apply restoreSelection_returns.
Qed.

(** *** A change cycle *)

Lemma renderTree_returns (q : option Query) (w : World) (t : SyntaxNode) :
  tree w = Some t ->
  exists sel d,
    renderTree q w
    = Ok (tt, mkWorld (source w) (tree w) sel (widgets w) (disposables w)
                      (beforeChange w) (afterChange w)
                      (render_segments (source w) (getHighlight q t))
                      d (listeners w)
                      (trace w ++ emission AfterChange w)).
Proof.
  intros Ht. unfold renderTree, currentHighlight.
  unfold bind at 1. unfold bind at 1. unfold get at 1. rewrite Ht.
  assert (Hq : (match q with
                | Some q0 => ret (getHighlight (Some q0) t)
                | None => ret []
                end) w = Ok (getHighlight q t, w)).
  { destruct q; reflexivity. }
  rewrite Hq. unfold bind, get, fromSelectionChange, modify.
  match goal with
  | |- context [restoreSelection ?w2] =>
      destruct (restoreSelection_returns w2) as [d ->]
  end.
  rewrite emit_eq.
  destruct w as [src tr sel ws ds bc ac ca dsel ls tc]; simpl in *.
  subst tr. clear Hq.
  destruct dsel as [r|];
    unfold set_trace, set_domSelection, set_codeArea, clear_codeArea,
      set_selection, emission; simpl; eexists; eexists; reflexivity.
Qed.

Lemma sourceChange_returns (language : Parser) (q : option Query)
      (newText : jsstring) (w : World) :
  exists sel d,
    sourceChange language q newText None w
    = Ok (tt, changed_world language q newText sel d w).
Proof.
  unfold sourceChange. unfold bind at 1. rewrite emit_eq.
  unfold bind, get, log, modify.
  match goal with
  | |- context [renderTree q ?w2] =>
      destruct (renderTree_returns q w2 (parse language newText None)
                                   eq_refl) as (sel & d & ->)
  end.
  exists sel, d. unfold changed_world.
  destruct w as [src tr sl ws ds bc ac ca dsel ls tc].
  unfold emission; simpl. rewrite <- !app_assoc. reflexivity.
Qed.

Lemma replaceText_returns (language : Parser) (q : option Query)
      (start end_ : Z) (txt : jsstring) (w : World) :
  exists d,
    replaceText language q start end_ txt w
    = Ok (tt, changed_world language q
                (slice (source w) 0 start ++ txt ++ slice_from (source w) end_)
                (Some (mkSelection (start + len txt) (start + len txt)))
                d w).
Proof.
  unfold replaceText. unfold bind at 1. unfold get at 1.
  unfold bind at 1.
  destruct (sourceChange_returns language q
              (slice (source w) 0 start ++ txt ++ slice_from (source w) end_)
              w) as (sel & d & ->).
  destruct (setSelection_returns (start + len txt) (start + len txt)
              (changed_world language q
                 (slice (source w) 0 start ++ txt
                    ++ slice_from (source w) end_) sel d w)) as [d' ->].
  exists d'. reflexivity.
Qed.

(** ** Replacing text *)

Lemma parser_calls_app (t1 t2 : list Step) :
  parser_calls (t1 ++ t2) = parser_calls t1 ++ parser_calls t2.
Proof. apply filter_app. Qed.

Lemma parser_calls_emission (e : EventName) (w : World) :
  parser_calls (emission e w) = [].
Proof.
  unfold emission, notifications, parser_calls. simpl.
  induction (handlers e w) as [|h hs IH]; simpl; assumption || reflexivity.
Qed.

(** C2, as the code has it. For every call [replaceText(start, end, text)],
    the operation hands the new text to [sourceChange] without a delta, so
    the edit takes the path of the full reparse: the tree is never edited,
    the only call to the parser is a parse of the new text from scratch,
    and its result replaces the old tree. *)
Theorem replaceText_reparses_fully (language : Parser) (q : option Query)
        (start end_ : Z) (txt : jsstring) (w : World) :
  let newText :=
    slice (source w) 0 start ++ txt ++ slice_from (source w) end_ in
  replaceText language q start end_ txt w
  = bind (sourceChange language q newText None)
         (fun _ => setSelection (start + len txt) (start + len txt)) w
  /\ exists w' steps,
      replaceText language q start end_ txt w = Ok (tt, w')
      /\ trace w' = trace w ++ steps
      /\ parser_calls steps = [Parsed newText false]
      /\ tree w' = Some (parse language newText None).
Proof.
  intros newText. split; [reflexivity|].
  destruct (replaceText_returns language q start end_ txt w) as [d H].
  fold newText in H. eexists. eexists. split; [exact H|].
  unfold changed_world. cbn [trace tree].
  split; [reflexivity|]. split; [|reflexivity].
  rewrite parser_calls_app, parser_calls_emission.
  change (parser_calls (Parsed newText false :: emission AfterChange w))
    with (Parsed newText false :: parser_calls (emission AfterChange w)).
  now rewrite parser_calls_emission.
Qed.

(** C2, as stated, fails: on the buffer [1+2], [replaceText(3, 3, "3")]
    does not do what a change with the delta
    [{start: 3, oldEnd: 3, newEnd: 4}] is specified to do.  It neither
    edits the old tree nor reparses against it; its one call to the parser
    is a parse of [1+23] from scratch. *)
Lemma replaceText_passes_no_delta :
  let w := sums_editor (js "1+2") [] in
  let code := replaceText sums (Some number_query) 3 3 (js "3") w in
  let spec := replaceRange_with_delta sums (Some number_query) 3 3 (js "3") w in
  parser_calls (trace (world_of spec w))
  = parser_calls (trace w)
      ++ [TreeEdited (edit_of (mkChange 3 4 3)); Parsed (js "1+23") true]
  /\ parser_calls (trace (world_of code w))
     = parser_calls (trace w) ++ [Parsed (js "1+23") false]
  /\ code <> spec.
Proof.
  intros w code spec. split; [reflexivity|]. split; [reflexivity|].
  intros H. apply (f_equal (fun r => parser_calls (trace (world_of r w)))) in H.
  vm_compute in H. discriminate H.
Qed.

(** C4. For every buffer text and every call [replaceText(s, e, t)] with
    [0 <= s <= e <= length(text)], the call returns, the resulting buffer
    is [text[:s] + t + text[e:]], and the recorded selection is the
    collapsed cursor [{start: s + length(t), end: s + length(t)}]. *)
Theorem replaceText_round_trip (language : Parser) (q : option Query)
        (s e : Z) (t : jsstring) (w : World) :
  0 <= s -> s <= e -> e <= len (source w) ->
  exists w',
    replaceText language q s e t w = Ok (tt, w')
    /\ source w'
       = firstn (Z.to_nat s) (source w) ++ t ++ skipn (Z.to_nat e) (source w)
    /\ selection w' = Some (mkSelection (s + len t) (s + len t)).
Proof.
  intros Hs Hse He.
  destruct (replaceText_returns language q s e t w) as [d H].
  eexists. split; [exact H|]. unfold changed_world; simpl.
  split; [|reflexivity].
  rewrite slice_in_range, slice_from_in_range by lia.
  rewrite Z.sub_0_r. reflexivity.
Qed.

Lemma replaceText_round_trip_witness :
  let w := sums_editor (js "") [] in
  0 <= 0 /\ 0 <= 0 /\ 0 <= len (source w)
  /\ exists w',
      replaceText sums (Some number_query) 0 0 (js "x") w = Ok (tt, w')
      /\ source w' = js "x"
      /\ selection w' = Some (mkSelection 1 1).
Proof.
  intros w.
  split; [lia | split; [lia | split; [vm_compute; discriminate|]]].
  apply (replaceText_round_trip sums (Some number_query) 0 0 (js "x") w);
    vm_compute; discriminate.
Defined.



(** An inverted pair and indices out of range, on the buffer [1+23]. *)
Example replaceText_inverted_pair :
  source (world_of (replaceText sums (Some number_query) 3 1 (js "*")
                                (sums_editor (js "1+23") []))
                   (sums_editor (js "1+23") []))
  = js "1+2*+23".
Proof. reflexivity. Qed.

Example replaceText_out_of_range :
  let w := world_of (replaceText sums (Some number_query) (-1) 9 (js "4")
                                 (sums_editor (js "1+23") []))
                    (sums_editor (js "1+23") []) in
  source w = js "1+24" /\ selection w = Some (mkSelection 0 0).
Proof. split; reflexivity. Qed.

(** ** Offsets and positions *)

Lemma findNode_inside (spans : list Segment) (o : Z) :
  (exists s, In s spans /\ in_segment o s) ->
  exists p, findNode spans o = Some p.
Proof.
  intros (s & Hin & Hs).
  destruct (findNode spans o) as [p|] eqn:E; [eauto|].
  apply findNode_from_none in E. rewrite Forall_forall in E.
  exfalso. exact (E s Hin Hs).
Qed.

(** C7. For every list of segments (so for every list a render produces)
    and every offset [o] that lies within some segment, ends included, [o]
    is mapped to a position in the first segment it lies within: the text
    node of that segment, with the index [o - segment.offset].  A position
    in that text node is mapped back to the segment's offset plus its
    index, so this position gives [o] again; and the offset
    [fromSelectionChange] records for a window range collapsed at that
    position is [o]. *)
Theorem offset_position_round_trip (spans : list Segment) (o : Z) :
  (exists s, In s spans /\ in_segment o s) ->
  exists i s,
    nth_error spans i = Some s
    /\ in_segment o s
    /\ (forall j s', (j < i)%nat -> nth_error spans j = Some s' ->
                     ~ in_segment o s')
    /\ offsetToPosition spans o = Some (SpanText i, o - offset s)
    /\ (forall k, positionToOffset spans (SpanText i, k) = offset s + k)
    /\ positionToOffset spans (SpanText i, o - offset s) = o
    /\ forall w,
        codeArea w = spans ->
        domSelection w
        = Some (mkRange (SpanText i, o - offset s)
                        (SpanText i, o - offset s)) ->
        exists w', fromSelectionChange w = Ok (tt, w')
                   /\ selection w' = Some (mkSelection o o).
Proof.
  intros Hin. destruct (findNode_inside spans o Hin) as [[j k] Hp].
  pose proof (findNode_from_first spans o 0 j k Hp) as Hfirst.
  pose proof (findNode_some _ _ _ _ Hp) as (child & Hnth & Hseg & Hk).
  subst k. exists j, child.
  assert (Hmap : forall k,
            positionToOffset spans (SpanText j, k) = offset child + k).
  { intros k. unfold positionToOffset, getOffset; simpl. now rewrite Hnth. }
  assert (Hback : positionToOffset spans (SpanText j, o - offset child) = o)
    by (rewrite Hmap; lia).
  split; [exact Hnth|]. split; [exact Hseg|]. split.
  { intros m s' Hm. apply Hfirst. lia. }
  split; [unfold offsetToPosition; now rewrite Hp|].
  split; [exact Hmap|]. split; [exact Hback|].
  intros w Hca Hsel. unfold fromSelectionChange, modify. rewrite Hsel.
  eexists. split; [reflexivity|]. simpl. now rewrite Hca, Hback.
Qed.

Lemma offset_position_round_trip_witness :
  let spans :=
    render_segments (js "1+23")
      (getHighlight (Some number_query) (parse sums (js "1+23") None)) in
  (exists s, In s spans /\ in_segment 3 s)
  /\ offsetToPosition spans 3 = Some (SpanText 2, 1)
  /\ positionToOffset spans (SpanText 2, 1) = 3.
Proof.
  intros spans.
  assert (Hin : exists s, In s spans /\ in_segment 3 s).
  { exists (mkSegment ["number"%string] (js "23") 2).
    split; [right; right; left; reflexivity|].
    unfold in_segment; simpl. split; [discriminate | discriminate]. }
  split; [exact Hin|].
  destruct (offset_position_round_trip spans 3 Hin)
    as (i & s & Hnth & _ & Hfirst & H1 & _ & H2 & _).
  assert (Hi : i = 2%nat).
  { destruct i as [|[|[|i]]]; simpl in Hnth; try reflexivity.
    - exfalso. injection Hnth as <-. vm_compute in H1. discriminate H1.
    - exfalso. injection Hnth as <-. vm_compute in H1. discriminate H1.
    - destruct i; discriminate. }
  subst i. simpl in Hnth. injection Hnth as <-.
  split; [exact H1 | exact H2].
Defined.

(** C8. For every offset that falls outside every segment of the current
    list, the offset-to-position mapping returns no result; and
    [restoreSelection], on a recorded selection one of whose ends does not
    map, returns without throwing and changes nothing: the recorded
    selection, the window's range and everything else stay as they were. *)
Theorem stale_offset_is_skipped :
  (forall spans o,
      (forall s, In s spans -> ~ in_segment o s) ->
      offsetToPosition spans o = None)
  /\ (forall w sel,
         selection w = Some sel ->
         offsetToPosition (codeArea w) (sel_start sel) = None
         \/ offsetToPosition (codeArea w) (sel_end sel) = None ->
         restoreSelection w = Ok (tt, w)).
Proof.
  assert (Hmap : forall spans o,
            offsetToPosition spans o = None <-> findNode spans o = None).
  { intros spans o. unfold offsetToPosition.
    destruct (findNode spans o) as [[j k]|]; split; congruence. }
  split.
  - intros spans o Hout. apply Hmap. apply findNode_from_none.
    now apply Forall_forall.
  - intros w sel Hsel Hnone. rewrite !Hmap in Hnone.
    unfold restoreSelection, bind, get, lift. rewrite Hsel.
    now rewrite (selectionToRange_unmapped _ _ _ Hnone).
Qed.

Lemma stale_offset_is_skipped_witness :
  let w := set_selection (Some (mkSelection 7 7)) (sums_editor (js "1+2") []) in
  offsetToPosition (codeArea w) 7 = None
  /\ restoreSelection w = Ok (tt, w).
Proof.
  intros w. destruct stale_offset_is_skipped as [Hout Hskip]. split.
  - apply Hout. intros s Hs [H1 H2].
    destruct Hs as [<- | [<- | [<- | []]]]; vm_compute in H2; now apply H2.
  - apply (Hskip w (mkSelection 7 7)); [reflexivity | left; reflexivity].
Defined.

(** ** Attaching widgets *)

Lemma update_nth_kind (f : Widget -> Widget) (i : nat) (l : list Widget) :
  (forall v, kind (f v) = kind v) ->
  map kind (update_nth i f l) = map kind l.
Proof.
  intros Hf. revert i; induction l as [|v l IH]; intros [|i]; simpl;
    try reflexivity; [now rewrite Hf | now rewrite IH].
Qed.

Lemma skipn_cons_inv {A : Type} (i : nat) (l : list A) (x : A) (r : list A) :
  skipn i l = x :: r -> nth_error l i = Some x /\ skipn (S i) l = r.
Proof.
  revert l; induction i as [|i IH]; intros [|y l] H; simpl in *;
    try discriminate.
  - injection H as -> ->. auto.
  - apply IH in H. exact H.
Qed.

Lemma reg_eqb_hotkey (j i : nat) :
  reg_eqb (hotkey_registration j) (hotkey_registration i) = (j =? i)%nat.
Proof. reflexivity. Qed.

(** Compiling the queries of the matchers changes nothing when they all
    compile, and throws at the first that does not. *)
Lemma compile_matchers_returns (language : Parser) (queries : list string)
      (w : World) :
  forallb (fun s => given_query (query language s)) queries = true ->
  forEach queries (compile_matcher language) w = Ok (tt, w).
Proof.
  induction queries as [|s queries IH]; simpl; intros H; [reflexivity|].
  apply andb_prop in H as [Hs H]. unfold bind, compile_matcher at 1.
  destruct (query language s); [|discriminate]. simpl. now apply IH.
Qed.

Lemma compile_matchers_throws (language : Parser) (queries : list string)
      (w : World) :
  forallb (fun s => given_query (query language s)) queries = false ->
  forEach queries (compile_matcher language) w = Throw QueryError.
Proof.
  induction queries as [|s queries IH]; simpl; intros H; [discriminate|].
  unfold bind, compile_matcher at 1.
  destruct (query language s); simpl in *; [now apply IH | reflexivity].
Qed.

Lemma widget_init_step (language : Parser) (i : nat) (k : WidgetKind)
      (w : World) :
  nth_error (map kind (widgets w)) i = Some k ->
  fresh_from i (listeners w) ->
  compiles language k = true ->
  exists w', widget_init language i w = Ok (tt, w')
             /\ init_post i [k] w w'.
Proof.
  intros Hk Hfresh Hcomp. rewrite nth_error_map in Hk.
  destruct (nth_error (widgets w) i) as [v|] eqn:Ev; [|discriminate].
  injection Hk as Hk.
  unfold widget_init, bind, log, modify, get.
  cbn [widgets set_trace]. rewrite Ev.
  pose proof (Hfresh i (Nat.le_refl i)) as Hi.
  destruct k as [| |queries]; rewrite Hk;
    unfold initHotKey, on, widget_disposables_add, update_widget,
      addEventListener, bind, modify, ret; simpl; try rewrite Hi;
    try rewrite (compile_matchers_returns language queries _ Hcomp);
    eexists; (split; [reflexivity|]);
    constructor; simpl; rewrite ?app_nil_r; try reflexivity;
    rewrite ?update_nth_kind by reflexivity; reflexivity.
Qed.

Lemma init_post_cons (i : nat) (k : WidgetKind) (ws : list WidgetKind)
      (w w1 w2 : World) :
  init_post i [k] w w1 -> init_post (S i) ws w1 w2 ->
  init_post i (k :: ws) w w2.
Proof.
  intros [] []. constructor; try congruence.
  - rewrite post_after1, post_after0. simpl.
    rewrite app_nil_r, <- app_assoc. reflexivity.
  - rewrite post_listeners1, post_listeners0. simpl.
    rewrite app_nil_r, <- app_assoc. reflexivity.
  - rewrite post_trace1, post_trace0. simpl.
    rewrite <- app_assoc. reflexivity.
Qed.

Lemma fresh_from_step (i : nat) (k : WidgetKind) (ls : list Registration) :
  fresh_from i ls -> fresh_from (S i) (ls ++ widget_hotkeys i [k]).
Proof.
  intros H j Hj. rewrite existsb_app, H by lia.
  destruct k; simpl; try reflexivity.
  rewrite reg_eqb_hotkey. destruct (Nat.eqb_spec j i); [lia | reflexivity].
Qed.

(** Running [init] on all widgets from position [i] on. *)
Lemma widgets_init_loop (language : Parser) (ws : list WidgetKind) :
  forallb (compiles language) ws = true ->
  forall i w,
    skipn i (map kind (widgets w)) = ws ->
    fresh_from i (listeners w) ->
    exists w',
      forEach (seq i (List.length ws)) (widget_init language) w = Ok (tt, w')
      /\ init_post i ws w w'.
Proof.
  induction ws as [|k ws IH]; intros Hcomp i w Hskip Hfresh.
  - exists w. split; [reflexivity|].
    constructor; simpl; rewrite ?app_nil_r; reflexivity.
  - apply skipn_cons_inv in Hskip as [Hk Hrest].
    simpl in Hcomp. apply andb_prop in Hcomp as [Hck Hcomp].
    destruct (widget_init_step language i k w Hk Hfresh Hck)
      as (w1 & H1 & P1).
    destruct (IH Hcomp (S i) w1) as (w2 & H2 & P2).
    + rewrite (post_kinds _ _ _ _ P1). exact Hrest.
    + rewrite (post_listeners _ _ _ _ P1). now apply fresh_from_step.
    + exists w2. split; [|eapply init_post_cons; eassumption].
      simpl. unfold bind. now rewrite H1.
Qed.

(** ** Construction and teardown *)

Lemma create_returns (language : Parser) (q : option Query)
      (src : option jsstring) (ws : list WidgetKind)
      (host : option DomRange) :
  forallb (compiles language) ws = true ->
  let txt := match src with Some s => s | None => [] end in
  exists w',
    create language q src ws host = Ok (tt, w')
    /\ source w' = txt
    /\ tree w' = Some (parse language txt None)
    /\ disposables w' = [RemoveListener input_registration;
                         RemoveListener selectionchange_registration]
    /\ beforeChange w' = []
    /\ afterChange w' = widget_handlers 0 ws
    /\ listeners w' = [input_registration; selectionchange_registration]
                        ++ widget_hotkeys 0 ws
    /\ trace w' = [Emitted BeforeChange; Parsed txt false;
                   Emitted AfterChange]
                    ++ map WidgetInit (seq 0 (List.length ws)).
Proof.
  intros Hcomp txt.
  set (w0 := mkWorld txt None None (map (fun k => mkWidget k false []) ws)
                     [RemoveListener input_registration;
                      RemoveListener selectionchange_registration]
                     [] [] [] host
                     [input_registration; selectionchange_registration] []).
  change (create language q src ws host)
    with (bind (sourceChange language q txt None)
               (fun _ =>
                  bind get
                       (fun w => forEach (seq 0 (List.length (widgets w)))
                                         (widget_init language))) w0).
  unfold bind at 1.
  destruct (sourceChange_returns language q txt w0) as (sel & d & ->).
  set (w1 := changed_world language q txt sel d w0).
  unfold bind at 1. unfold get at 1.
  destruct (widgets_init_loop language ws Hcomp 0 w1) as (w2 & H2 & P2).
  - unfold w1, changed_world; simpl. rewrite map_map. simpl. apply map_id.
  - intros j _. reflexivity.
  - assert (Hlen : List.length (widgets w1) = List.length ws).
    { unfold w1, changed_world; simpl. apply length_map. }
    rewrite Hlen, H2. exists w2. split; [reflexivity|].
    destruct P2. unfold w1, changed_world in *. simpl in *.
    repeat split; assumption.
Qed.

(** C9. During construction, the first change cycle (the parse and render
    of the initial text) emits [beforeChange] and [afterChange] before the
    [init] of any widget runs, so no widget's handler is called for the
    events of that cycle; the handlers the widgets subscribed are called
    from the next change on.  The widgets are any whose matcher queries
    compile; with a query that does not, the [init] of its widget throws
    and there is no engine. *)
Theorem construction_cycle_unobserved (language : Parser) (q : option Query)
        (src : option jsstring) (ws : list WidgetKind)
        (host : option DomRange) :
  forallb (compiles language) ws = true ->
  let txt := match src with Some s => s | None => [] end in
  exists w',
    create language q src ws host = Ok (tt, w')
    /\ trace w' = [Emitted BeforeChange; Parsed txt false;
                   Emitted AfterChange]
                    ++ map WidgetInit (seq 0 (List.length ws))
    /\ (forall h e, ~ In (Notified h e) (trace w'))
    /\ forall newText,
        exists w'',
          sourceChange language q newText None w' = Ok (tt, w'')
          /\ trace w''
             = trace w'
                 ++ [Emitted BeforeChange; Parsed newText false;
                     Emitted AfterChange]
                 ++ notifications AfterChange (widget_handlers 0 ws).
Proof.
  intros Hcomp txt.
  destruct (create_returns language q src ws host Hcomp)
    as (w' & Hc & _ & _ & _ & Hb & Ha & _ & Ht).
  fold txt in Ht. exists w'. split; [exact Hc|]. split; [exact Ht|]. split.
  - intros h e Hin. rewrite Ht in Hin.
    destruct Hin as [H | [H | [H | H]]]; try discriminate.
    apply in_map_iff in H as (i & H & _). discriminate.
  - intros newText.
    destruct (sourceChange_returns language q newText w') as (sel & d & H).
    eexists. split; [exact H|].
    unfold changed_world, emission; simpl. now rewrite Hb, Ha.
Qed.

Lemma construction_cycle_unobserved_witness :
  let ws := [CodeErrorWidget; CodeCompleteWidget [number_query_source]] in
  forallb (compiles sums) ws = true
  /\ exists w',
      create sums (Some number_query) (Some (js "1+2")) ws None = Ok (tt, w')
      /\ trace w' = [Emitted BeforeChange; Parsed (js "1+2") false;
                     Emitted AfterChange; WidgetInit 0; WidgetInit 1]
      /\ forall h e, ~ In (Notified h e) (trace w').
Proof.
  intros ws. split; [reflexivity|].
  destruct (construction_cycle_unobserved sums (Some number_query)
              (Some (js "1+2")) ws None eq_refl)
    as (w' & Hc & Ht & Hn & _).
  exists w'. split; [exact Hc|]. split; [exact Ht | exact Hn].
Defined.

(** After [create] and [dispose], the listeners left on the host are the
    keydown listeners of the completion widgets, and the widgets' handlers
    are still subscribed to [afterChange]. *)
Lemma dispose_after_create (language : Parser) (q : option Query)
      (src : option jsstring) (ws : list WidgetKind)
      (host : option DomRange) :
  forallb (compiles language) ws = true ->
  exists w1 w2,
    create language q src ws host = Ok (tt, w1)
    /\ dispose w1 = Ok (tt, w2)
    /\ listeners w2 = widget_hotkeys 0 ws
    /\ afterChange w2 = widget_handlers 0 ws
    /\ disposables w2 = [].
Proof.
  intros Hcomp.
  destruct (create_returns language q src ws host Hcomp)
    as (w1 & Hc & _ & _ & Hd & _ & Ha & Hl & _).
  exists w1. eexists. split; [exact Hc|].
  unfold dispose, disposables_dispose, bind, get. rewrite Hd.
  unfold forEach, run_disposer, removeEventListener, bind, modify, ret.
  cbn [listeners set_listeners]. rewrite Hl.
  split; [reflexivity|]. simpl. auto.
Qed.

(** C3 fails on the code. An engine is created with an error widget and a
    completion widget and then disposed: [dispose] returns, the engine's
    own [input] and [selectionchange] listeners are gone, but the keydown
    listener the completion widget registered on the root element is still
    there, and both widgets are still subscribed to [afterChange]. *)
Theorem dispose_leaves_widget_listener :
  let w := sums_editor (js "1+2") [CodeErrorWidget; CodeCompleteWidget []] in
  listeners w = [input_registration; selectionchange_registration;
                 hotkey_registration 1]
  /\ exists w',
      dispose w = Ok (tt, w')
      /\ listeners w' = [hotkey_registration 1]
      /\ afterChange w' = [ErrorWidgetHandler 0; CompleteWidgetHandler 1].
Proof.
  intros w. split; [reflexivity|]. eexists.
  split; [reflexivity|]. split; reflexivity.
Qed.

(** The widgets' own [dispose], which nothing in the engine calls, is what
    releases them. *)
Example widget_dispose_releases :
  let w := sums_editor (js "1+2") [CodeErrorWidget; CodeCompleteWidget []] in
  let w' := world_of (bind dispose
                           (fun _ => bind (widget_dispose 0)
                                          (fun _ => widget_dispose 1)) w) w in
  listeners w' = [] /\ afterChange w' = [].
Proof. split; reflexivity. Qed.

(** * More of the engine *)

(** ** Tagged nodes *)

(** A capture whose node object is not yet a key of the map gets an entry
    of its own, at the end. *)
Lemma map_add_new_key (m : NodeMap) (obj : nat) (c : Capture) :
  Forall (fun e => fst e <> obj) m ->
  map_add m obj c = m ++ [(obj, entry_of c)].
Proof.
  induction m as [|[o [n ns]] m IH]; simpl; intros H; [reflexivity|].
  inversion H as [|? ? Ho Hm]; subst. simpl in Ho.
  destruct (Nat.eqb_spec o obj) as [E|E]; [contradiction|].
  now rewrite IH.
Qed.

(** The node objects of the captures are new ones, so every capture gets
    an entry of its own. *)
Lemma add_captures_entries (caps : list Capture) :
  forall m next,
    Forall (fun e => (fst e < next)%nat) m ->
    map snd (add_captures m next caps) = map snd m ++ map entry_of caps.
Proof.
  induction caps as [|c caps IH]; intros m next Hm; simpl.
  - now rewrite app_nil_r.
  - assert (Hnew : map_add m next c = m ++ [(next, entry_of c)]).
    { apply map_add_new_key. eapply Forall_impl; [|exact Hm].
      simpl. intros e He. lia. }
    rewrite Hnew, IH.
    + rewrite map_app, <- app_assoc. reflexivity.
    + apply Forall_app. split.
      * eapply Forall_impl; [|exact Hm]. simpl. intros e He. lia.
      * constructor; [simpl; lia | constructor].
Qed.

Lemma insert_by_start_elements (x y : SyntaxNode * list string)
      (l : Highlight) :
  In y (insert_by_start x l) <-> y = x \/ In y l.
Proof.
  split; [apply insert_by_start_In|].
  induction l as [|z l IH]; simpl; [intuition|].
  destruct (startIndex (fst x) <=? startIndex (fst z)); simpl; intuition.
Qed.

Lemma sort_by_start_elements (l : Highlight) (h : SyntaxNode * list string) :
  In h (sort_by_start l) <-> In h l.
Proof.
  induction l as [|x l IH]; simpl; [tauto|].
  rewrite insert_by_start_elements, IH. intuition.
Qed.

Lemma insert_by_start_permutation (x : SyntaxNode * list string)
      (l : Highlight) :
  Permutation (insert_by_start x l) (x :: l).
Proof.
  induction l as [|y l IH]; simpl; [reflexivity|].
  destruct (startIndex (fst x) <=? startIndex (fst y)); [reflexivity|].
  rewrite IH. apply perm_swap.
Qed.

Lemma sort_by_start_permutation (l : Highlight) :
  Permutation (sort_by_start l) l.
Proof.
  induction l as [|x l IH]; simpl; [reflexivity|].
  rewrite insert_by_start_permutation. now constructor.
Qed.

Lemma sort_by_start_fixes_sorted (l : Highlight) :
  StronglySorted start_le l -> sort_by_start l = l.
Proof.
  induction 1 as [|x l Hl IH Hx]; simpl; [reflexivity|].
  rewrite IH. destruct l as [|y l]; [reflexivity|]. simpl.
  inversion Hx as [|? ? Hxy _]; subst. unfold start_le in Hxy.
  now rewrite (proj2 (Z.leb_le _ _) Hxy).
Qed.

Lemma getHighlight_eq (q : option Query) (t : SyntaxNode) :
  getHighlight q t = sort_by_start (map_entries q t).
Proof. destruct q; reflexivity. Qed.

Lemma map_entries_eq (q : option Query) (t : SyntaxNode) :
  map_entries q t = map entry_of (captures_of q t).
Proof.
  unfold map_entries. now rewrite add_captures_entries by constructor.
Qed.

(** X1. [getHighlight] returns the tagged nodes in ascending order of
    their start offsets, and its sort is stable: when the entries of the
    map are already in that order, ties included, they are returned as they
    were inserted. *)
Theorem getHighlight_sorted_stable (q : option Query) (t : SyntaxNode) :
  StronglySorted start_le (getHighlight q t)
  /\ (StronglySorted start_le (map_entries q t) ->
      getHighlight q t = map_entries q t).
Proof.
  split; [apply sort_by_start_sorted|].
  intros H. rewrite getHighlight_eq. now apply sort_by_start_fixes_sorted.
Qed.

Lemma getHighlight_sorted_stable_witness :
  let t := parse sums (js "1+23") None in
  StronglySorted start_le (map_entries (Some number_query) t)
  /\ getHighlight (Some number_query) t
     = [(mkNode 1 0 1 [], ["number"%string]);
        (mkNode 3 2 4 [], ["number"%string])].
Proof.
  intros t.
  assert (H : StronglySorted start_le (map_entries (Some number_query) t)).
  { repeat constructor; unfold start_le; simpl; discriminate. }
  split; [exact H|].
  rewrite (proj2 (getHighlight_sorted_stable (Some number_query) t) H).
  reflexivity.
Defined.

(** X2. [getHighlight] never merges captures.  Every capture comes with a
    node object of its own, so [map.has] does not find it and the map gets
    one entry per capture, in match order, with the one name of that
    capture.  What is returned is these entries in ascending start order: as
    many entries as there are captures, and a node of the tree that is
    captured under two names is there twice, once with each name. *)
Theorem getHighlight_keeps_captures_apart (q : option Query)
        (t : SyntaxNode) :
  let caps := captures_of q t in
  map_entries q t = map entry_of caps
  /\ getHighlight q t = sort_by_start (map entry_of caps)
  /\ Permutation (getHighlight q t) (map entry_of caps)
  /\ List.length (getHighlight q t) = List.length caps
  /\ forall n nm,
      In (n, nm) (getHighlight q t)
      <-> exists name, nm = [name] /\ In (mkCapture n name) caps.
Proof.
  intros caps.
  assert (E : getHighlight q t = sort_by_start (map entry_of caps))
    by (rewrite getHighlight_eq, map_entries_eq; reflexivity).
  assert (P : Permutation (getHighlight q t) (map entry_of caps))
    by (rewrite E; apply sort_by_start_permutation).
  split; [apply map_entries_eq|]. split; [exact E|]. split; [exact P|].
  split.
  - rewrite (Permutation_length P). apply length_map.
  - intros n nm. rewrite E, sort_by_start_elements, in_map_iff. split.
    + intros ([n' name] & H & Hin). unfold entry_of in H. simpl in H.
      injection H as -> <-. exists name. split; [reflexivity | exact Hin].
    + intros (name & -> & Hin). exists (mkCapture n name).
      split; [reflexivity | exact Hin].
Qed.

(** The numbers of [1+23] captured as [number] and as [literal]: four
    entries, and the spans no longer show the buffer. *)
Example node_captured_twice :
  let t := parse sums (js "1+23") None in
  let q := Some number_literal_query in
  getHighlight q t
  = [(mkNode 1 0 1 [], ["number"%string]);
     (mkNode 1 0 1 [], ["literal"%string]);
     (mkNode 3 2 4 [], ["number"%string]);
     (mkNode 3 2 4 [], ["literal"%string])]
  /\ source_of (render_segments (js "1+23") (getHighlight q t))
     = js "1+2+23".
Proof. split; reflexivity. Qed.

(** ** Segments, whatever the tagged nodes are *)

Lemma push_if_Forall (P : Segment -> Prop) (t : jsstring) (seg : Segment)
      (r : list Segment) :
  Forall P r -> (t <> [] -> P seg) -> Forall P (push_if t seg r).
Proof.
  intros Hr Hseg. unfold push_if. destruct t as [|c t]; simpl; [exact Hr|].
  apply Forall_app. split; [exact Hr|].
  constructor; [apply Hseg; discriminate | constructor].
Qed.

Lemma push_if_length (t : jsstring) (seg : Segment) (r : list Segment) :
  (List.length (push_if t seg r) <= S (List.length r))%nat.
Proof.
  unfold push_if. destruct (truthy t); [|lia].
  rewrite length_app. simpl. lia.
Qed.

Lemma push_if_keeps (t : jsstring) (seg s : Segment) (r : list Segment) :
  In s r -> In s (push_if t seg r).
Proof.
  intros H. unfold push_if. destruct (truthy t); [|exact H].
  apply in_or_app. now left.
Qed.

Lemma render_step_wellformed (hl0 : Highlight) (st : RenderLoop)
      (h : SyntaxNode * list string) :
  In h hl0 ->
  Forall (fun s => text s <> []) (result st) ->
  Forall (from_highlight hl0) (result st) ->
  Forall (fun s => text s <> []) (result (render_step st h))
  /\ Forall (from_highlight hl0) (result (render_step st h))
  /\ (List.length (result (render_step st h))
      <= 2 + List.length (result st))%nat.
Proof.
  intros Hh Hne Hfrom. unfold render_step. cbn [result].
  split; [|split].
  - apply push_if_Forall; [apply push_if_Forall|]; simpl; auto.
  - apply push_if_Forall; [apply push_if_Forall|]; simpl; auto.
    + intros _. now left.
    + intros _. right. exists h. simpl. auto.
  - eapply Nat.le_trans; [apply push_if_length|].
    apply le_n_S. eapply Nat.le_trans; [apply push_if_length|]. lia.
Qed.

Lemma render_loop_wellformed (hl0 hl : Highlight) :
  incl hl hl0 ->
  forall st,
    Forall (fun s => text s <> []) (result st) ->
    Forall (from_highlight hl0) (result st) ->
    let st' := fold_left render_step hl st in
    Forall (fun s => text s <> []) (result st')
    /\ Forall (from_highlight hl0) (result st')
    /\ (List.length (result st')
        <= 2 * List.length hl + List.length (result st))%nat.
Proof.
  induction hl as [|h hl IH]; intros Hincl st Hne Hfrom; simpl.
  - repeat split; auto.
  - assert (Hh : In h hl0) by (apply Hincl; now left).
    destruct (render_step_wellformed hl0 st h Hh Hne Hfrom)
      as (H1 & H2 & H3).
    destruct (IH (fun x Hx => Hincl x (or_intror Hx)) _ H1 H2)
      as (H4 & H5 & H6).
    repeat split; try assumption. lia.
Qed.

(** X3. Whatever the tagged nodes are (overlapping, out of range, in any
    order), [renderTree] never builds a segment with empty text; every
    segment is either untagged or carries the names and the start offset of
    one of the tagged nodes; and [n] tagged nodes give at most [2n + 1]
    segments. *)
Theorem render_segments_wellformed (src : jsstring) (hl : Highlight) :
  let segs := render_segments src hl in
  Forall (fun s => text s <> []) segs
  /\ Forall (from_highlight hl) segs
  /\ (List.length segs <= 2 * List.length hl + 1)%nat.
Proof.
  intros segs. unfold segs, render_segments.
  destruct (render_loop_wellformed hl hl (incl_refl hl) (mkLoop [] src 0)
                                   (Forall_nil _) (Forall_nil _))
    as (H1 & H2 & H3).
  simpl in H3. split; [|split].
  - apply push_if_Forall; simpl; auto.
  - apply push_if_Forall; simpl; auto. intros _. now left.
  - eapply Nat.le_trans; [apply push_if_length|]. lia.
Qed.

(** ** Segments of tagged nodes laid out in order *)

Lemma spans_in_order_bound (hl : Highlight) (from to : Z) :
  spans_in_order from hl to = true -> from <= to.
Proof.
  revert from; induction hl as [|[n nm] hl IH]; simpl; intros from H.
  - now apply Z.leb_le.
  - apply andb_prop in H as [H H3]. apply andb_prop in H as [H1 H2].
    apply Z.leb_le in H1, H2. apply IH in H3. lia.
Qed.

Lemma loop_inv_rest (src : jsstring) (st : RenderLoop) :
  loop_inv src st ->
  0 <= index st /\ rest st = skipn (Z.to_nat (index st)) src.
Proof.
  intros [Hs Ht _]. apply tiling_source_len in Ht.
  rewrite Z.add_0_l in Ht. rewrite Ht. split; [apply len_nonneg|].
  unfold len. rewrite Nat2Z.id, <- Hs.
  rewrite skipn_app, skipn_all, Nat.sub_diag. reflexivity.
Qed.

Lemma render_loop_keeps (hl : Highlight) (s : Segment) :
  forall st, In s (result st) -> In s (result (fold_left render_step hl st)).
Proof.
  induction hl as [|h hl IH]; simpl; intros st H; [exact H|].
  apply IH. unfold render_step; simpl. now do 2 apply push_if_keeps.
Qed.

Lemma render_step_own_text (src : jsstring) (st : RenderLoop)
      (n : SyntaxNode) (nm : list string) :
  loop_inv src st ->
  index st <= startIndex n -> startIndex n < endIndex n ->
  endIndex n <= len src ->
  In (mkSegment nm (slice src (startIndex n) (endIndex n)) (startIndex n))
     (result (render_step st (n, nm))).
Proof.
  intros Hinv Hs Hse He.
  destruct (loop_inv_rest src st Hinv) as [H0 Hrest].
  pose proof (loop_inv_index _ _ Hinv) as Hidx.
  unfold render_step. cbn [result fst snd].
  set (a := startIndex n - index st). set (b := endIndex n - index st).
  assert (Htxt : slice (rest st) a b
                 = slice src (startIndex n) (endIndex n)).
  { rewrite !slice_in_range by (unfold a, b; lia).
    rewrite Hrest, skipn_skipn. unfold a, b. f_equal; [f_equal; lia|].
    f_equal. lia. }
  rewrite Htxt. unfold push_if at 1.
  assert (Hne : truthy (slice src (startIndex n) (endIndex n)) = true).
  { destruct (slice src (startIndex n) (endIndex n)) eqn:E; [|reflexivity].
    apply (f_equal len) in E. rewrite len_slice in E by lia.
    unfold len in E; simpl in E. lia. }
  rewrite Hne. apply in_or_app. right. now left.
Qed.

Lemma render_loop_own_text (src : jsstring) (n : SyntaxNode)
      (nm : list string) (hl : Highlight) :
  startIndex n < endIndex n -> In (n, nm) hl ->
  forall st,
    loop_inv src st ->
    spans_in_order (index st) hl (len src) = true ->
    In (mkSegment nm (slice src (startIndex n) (endIndex n)) (startIndex n))
       (result (fold_left render_step hl st)).
Proof.
  intros Hlt.
  induction hl as [|[m mm] hl IH]; intros Hin st Hinv Hsp; [contradiction|].
  simpl in Hsp. apply andb_prop in Hsp as [Hsp Hrest].
  apply andb_prop in Hsp as [H1 H2]. apply Z.leb_le in H1, H2.
  pose proof (spans_in_order_bound _ _ _ Hrest) as Hm.
  simpl. destruct Hin as [E | Hin].
  - injection E as -> ->. apply render_loop_keeps.
    now apply (render_step_own_text src).
  - apply IH; [exact Hin | | exact Hrest].
    apply render_step_inv; simpl; assumption.
Qed.

(** X4. When the tagged nodes are laid out in order inside the text, every
    tagged node whose span is not empty is rendered as a segment of its
    own: the segment has the node's names, starts at the node's start
    offset and holds exactly the text of the node's span. *)
Theorem render_segments_own_text (src : jsstring) (hl : Highlight)
        (n : SyntaxNode) (nm : list string) :
  spans_in_order 0 hl (len src) = true ->
  In (n, nm) hl -> startIndex n < endIndex n ->
  In (mkSegment nm (slice src (startIndex n) (endIndex n)) (startIndex n))
     (render_segments src hl).
Proof.
  intros Hsp Hin Hlt. unfold render_segments. apply push_if_keeps.
  apply render_loop_own_text; try assumption.
  constructor; simpl; [reflexivity | reflexivity | constructor].
Qed.

Lemma render_segments_own_text_witness :
  let src := js "1+23" in
  let hl := [(mkNode 1 0 1 [], ["number"%string]);
             (mkNode 3 2 4 [], ["number"%string])] in
  spans_in_order 0 hl (len src) = true
  /\ In (mkNode 3 2 4 [], ["number"%string]) hl
  /\ 2 < 4
  /\ In (mkSegment ["number"%string] (js "23") 2) (render_segments src hl).
Proof.
  intros src hl.
  split; [reflexivity | split; [right; left; reflexivity | split; [lia|]]].
  apply (render_segments_own_text src hl (mkNode 3 2 4 []) ["number"%string]);
    [reflexivity | right; left; reflexivity | reflexivity].
Defined.

(** ** Which offsets have a position *)

Lemma tiling_within (a b : Z) (segs : list Segment) :
  tiling a segs b ->
  a <= b
  /\ Forall (fun s => a <= offset s /\ offset s + len (text s) <= b) segs.
Proof.
  revert a; induction segs as [|s segs IH]; simpl; intros a H.
  - split; [lia | constructor].
  - destruct H as [Ho H]. destruct (IH _ H) as [Hle Hall].
    pose proof (len_nonneg (text s)).
    split; [lia|]. constructor; [lia|].
    eapply Forall_impl; [|exact Hall]. simpl. intros; lia.
Qed.

Lemma tiling_covers (a b o : Z) (segs : list Segment) :
  tiling a segs b -> segs <> [] -> a <= o <= b ->
  exists s, In s segs /\ in_segment o s.
Proof.
  revert a; induction segs as [|s segs IH]; simpl; intros a H Hne Ho;
    [congruence|].
  destruct H as [Hs H].
  destruct (Z_le_gt_dec o (a + len (text s))) as [Hin | Hout].
  - exists s. split; [now left|]. unfold in_segment. lia.
  - destruct segs as [|s' segs].
    + simpl in H. lia.
    + destruct (IH _ H) as (x & Hx & Hox); [discriminate | lia|].
      exists x. split; [now right | exact Hox].
Qed.

Lemma tiling_nonempty_source (a b : Z) (segs : list Segment) :
  tiling a segs b -> Forall (fun s => text s <> []) segs ->
  (segs = [] <-> a = b).
Proof.
  intros Ht Hne. destruct segs as [|s segs]; simpl in *.
  - tauto.
  - destruct Ht as [Ho Ht]. apply tiling_within in Ht as [Hle _].
    inversion Hne as [|? ? Hs _]; subst.
    assert (len (text s) <> 0) by (rewrite len_nil_iff; exact Hs).
    pose proof (len_nonneg (text s)).
    split; [discriminate | lia].
Qed.

(** X5. On the segments rendered from tagged nodes laid out in order, an
    offset has a position exactly when the text is not empty and the offset
    lies between 0 and the length of the text, both included; the position
    then maps back to the offset.  On an empty text nothing is rendered
    and no offset, not even 0, has a position. *)
Theorem offsetToPosition_defined (src : jsstring) (hl : Highlight) (o : Z) :
  spans_in_order 0 hl (len src) = true ->
  let segs := render_segments src hl in
  ((exists p, offsetToPosition segs o = Some p)
   <-> src <> [] /\ 0 <= o <= len src)
  /\ (forall p, offsetToPosition segs o = Some p ->
                positionToOffset segs p = o).
Proof.
  intros Hsp segs.
  destruct (render_segments_tiling src hl Hsp) as (Ht & Hne & _).
  fold segs in Ht, Hne.
  pose proof (tiling_nonempty_source _ _ _ Ht Hne) as Hempty.
  assert (Hback : forall p, offsetToPosition segs o = Some p ->
            positionToOffset segs p = o
            /\ exists s, In s segs /\ in_segment o s).
  { intros p Hp. unfold offsetToPosition in Hp.
    destruct (findNode segs o) as [[j k]|] eqn:E; [|discriminate].
    injection Hp as <-.
    apply findNode_some in E as (child & Hnth & Hin & ->).
    unfold positionToOffset, getOffset; simpl. rewrite Hnth.
    split; [lia|]. exists child. split; [|exact Hin].
    eapply nth_error_In; eassumption. }
  split; [split|].
  - intros (p & Hp). destruct (Hback p Hp) as (_ & s & Hs & [H1 H2]).
    destruct (tiling_within _ _ _ Ht) as [_ Hall].
    rewrite Forall_forall in Hall. specialize (Hall s Hs).
    split; [|lia]. intros ->.
    assert (segs = []) by (apply Hempty; reflexivity).
    subst segs. rewrite H in Hs. contradiction.
  - intros [Hsrc Ho].
    assert (Hsegs : segs <> []).
    { intros E. apply Hempty in E. apply Hsrc. apply len_nil_iff. lia. }
    destruct (tiling_covers _ _ o _ Ht Hsegs Ho) as (s & Hs & Hin).
    destruct (findNode_inside segs o (ex_intro _ s (conj Hs Hin)))
      as [[j k] Hp].
    exists (SpanText j, k). unfold offsetToPosition. now rewrite Hp.
  - intros p Hp. apply Hback. exact Hp.
Qed.

Lemma offsetToPosition_defined_witness :
  let src := js "1+23" in
  let hl := [(mkNode 1 0 1 [], ["number"%string]);
             (mkNode 3 2 4 [], ["number"%string])] in
  spans_in_order 0 hl (len src) = true
  /\ (exists p, offsetToPosition (render_segments src hl) 4 = Some p)
  /\ ~ (exists p, offsetToPosition (render_segments src hl) 5 = Some p).
Proof.
  intros src hl. split; [reflexivity|].
  destruct (offsetToPosition_defined src hl 4 eq_refl) as [[_ H4] _].
  destruct (offsetToPosition_defined src hl 5 eq_refl) as [[H5 _] _].
  split.
  - apply H4. split; [discriminate | split; discriminate].
  - intros H. apply H5 in H as [_ [_ H]]. now apply H.
Defined.

(** X6. On the segments rendered from tagged nodes laid out in order, an
    offset greater than 0 that is on the border of two segments is mapped
    into the earlier one, at its end: the index [findNode] returns is never
    0 for such an offset. *)
Theorem offsetToPosition_prefers_earlier (src : jsstring) (hl : Highlight)
        (o : Z) (p : Position) :
  spans_in_order 0 hl (len src) = true -> 0 < o ->
  offsetToPosition (render_segments src hl) o = Some p ->
  0 < snd p.
Proof.
  intros Hsp Ho Hp.
  destruct (render_segments_tiling src hl Hsp) as (Ht & Hne & _).
  set (segs := render_segments src hl) in *.
  unfold offsetToPosition in Hp.
  destruct (findNode segs o) as [[j k]|] eqn:E; [|discriminate].
  injection Hp as <-. simpl.
  pose proof (findNode_from_first segs o 0 j k E) as Hfirst.
  apply findNode_some in E as (child & Hnth & [H1 H2] & ->).
  destruct (Z.eq_dec o (offset child)) as [Heq | Hneq]; [|lia].
  exfalso. destruct j as [|j].
  - assert (offset child = 0).
    { apply (tiling_first 0 (len src) segs); [exact Ht|].
      destruct segs; [discriminate | simpl in *; congruence]. }
    lia.
  - destruct (nth_error segs j) as [prev|] eqn:Ep.
    + pose proof (tiling_adjacent _ _ _ Ht j prev child Ep Hnth) as Hadj.
      apply (Hfirst j prev); [lia | exact Ep|].
      unfold in_segment. pose proof (len_nonneg (text prev)). lia.
    + apply nth_error_None in Ep.
      assert (nth_error segs (S j) <> None) by congruence.
      apply nth_error_Some in H. lia.
Qed.

Lemma offsetToPosition_prefers_earlier_witness :
  let src := js "1+23" in
  let hl := [(mkNode 1 0 1 [], ["number"%string]);
             (mkNode 3 2 4 [], ["number"%string])] in
  spans_in_order 0 hl (len src) = true /\ 0 < 2
  /\ offsetToPosition (render_segments src hl) 2 = Some (SpanText 1, 1)
  /\ 0 < snd (SpanText 1, 1).
Proof.
  intros src hl.
  split; [reflexivity | split; [lia | split; [reflexivity|]]].
  apply (offsetToPosition_prefers_earlier src hl 2 (SpanText 1, 1));
    [reflexivity | lia | reflexivity].
Defined.

(** ** Node lookup on any tree *)

Lemma scan_from_some (index : Z) (l : list SyntaxNode) (x : SyntaxNode) :
  exists y, scan index l (Some x) = Some y.
Proof.
  revert x; induction l as [|n l IH]; intros x; simpl; [eauto|].
  destruct (startIndex n <? index); [apply IH | eauto].
Qed.

Lemma scan_result (index : Z) (l : list SyntaxNode) :
  forall lastNode n,
    scan index l lastNode = Some n ->
    lastNode = Some n \/ (In n l /\ startIndex n < index).
Proof.
  induction l as [|m l IH]; simpl; intros lastNode n H; [now left|].
  destruct (Z.ltb_spec (startIndex m) index) as [Hlt|Hge]; [|now left].
  apply IH in H as [H | [H1 H2]].
  - injection H as <-. right. split; [now left | exact Hlt].
  - right. split; [now right | exact H2].
Qed.

(** X7. On any tree, well-formed or not, [findSyntaxNode(index)] returns
    no node exactly when the root does not start before [index]; a node it
    returns is a node of the tree that starts strictly before [index]. *)
Theorem findSyntaxNode_none_iff (tree : SyntaxNode) (index : Z) :
  (findSyntaxNode tree index = None <-> index <= startIndex tree)
  /\ (forall n, findSyntaxNode tree index = Some n ->
                In n (preorder tree) /\ startIndex n < index).
Proof.
  rewrite findSyntaxNode_scan. split.
  - destruct tree as [i s e cs]. rewrite preorder_eq. simpl.
    destruct (Z.ltb_spec s index) as [Hlt|Hge].
    + destruct (scan_from_some index (preorder_list cs) (mkNode i s e cs))
        as [y ->].
      split; [discriminate | lia].
    + split; [intros _; exact Hge | reflexivity].
  - intros n H. apply scan_result in H as [H | H]; [discriminate | exact H].
Qed.

Lemma findSyntaxNode_none_iff_witness :
  let tree := parse sums (js "1+23") None in
  findSyntaxNode tree 2 = Some (mkNode 1 0 1 [])
  /\ In (mkNode 1 0 1 []) (preorder tree)
  /\ startIndex (mkNode 1 0 1 []) < 2.
Proof.
  intros tree. split; [reflexivity|].
  apply (proj2 (findSyntaxNode_none_iff tree 2)). reflexivity.
Defined.

(** ** A change with a delta *)

Lemma parser_calls_notifications (e : EventName) (hs : list Handler) :
  parser_calls (notifications e hs) = [].
Proof. induction hs as [|h hs IH]; simpl; [reflexivity | exact IH]. Qed.

Lemma parser_calls_cons_emission (e : EventName) (w : World)
      (rest : list Step) :
  parser_calls (emission e w ++ rest) = parser_calls rest.
Proof. now rewrite parser_calls_app, parser_calls_emission. Qed.

(** The world a change cycle with a delta leaves behind. *)
Lemma sourceChange_delta_returns (language : Parser) (q : option Query)
      (newText : jsstring) (c : Change) (w : World) (t : SyntaxNode) :
  tree w = Some t ->
  exists sel d,
    sourceChange language q newText (Some c) w
    = Ok (tt, mkWorld newText (Some (parse language newText None)) sel
                      (widgets w) (disposables w)
                      (beforeChange w) (afterChange w)
                      (render_segments newText
                         (getHighlight q (parse language newText None)))
                      d (listeners w)
                      (trace w ++ emission BeforeChange w
                         ++ TreeEdited (edit_of c)
                         :: Parsed newText false :: emission AfterChange w)).
Proof.
  intros Ht. unfold sourceChange. unfold bind at 1. rewrite emit_eq.
  unfold bind, get, log, modify. cbn [tree set_source set_trace].
  rewrite Ht. cbn [tree set_tree source set_source set_trace given].
  match goal with
  | |- context [renderTree q ?w2] =>
      destruct (renderTree_returns q w2 (parse language newText None)
                                   eq_refl) as (sel & d & ->)
  end.
  exists sel, d.
  destruct w as [src tr sl ws ds bc ac ca dsel ls tc].
  unfold emission; simpl. rewrite <- !app_assoc. reflexivity.
Qed.

(** X8. [sourceChange(newText, change)] with a delta does not reparse
    incrementally.  On an engine that has a tree, the buffer becomes
    [newText] whatever the delta says (the delta is not checked against the
    text) and the old tree is edited with the delta, with row 0 and the
    three offsets as columns; but [tree.edit] returns nothing, so the field
    [tree] is lost and the new text is parsed without an old tree.  Tree
    and spans are those the same change gives without a delta.  On an
    engine without a tree (before [init]) the call throws a [TypeError]. *)
Theorem sourceChange_with_delta (language : Parser) (q : option Query)
        (newText : jsstring) (c : Change) (w : World) :
  (forall t, tree w = Some t ->
     exists w' steps,
       sourceChange language q newText (Some c) w = Ok (tt, w')
       /\ source w' = newText
       /\ tree w' = Some (parse language newText None)
       /\ codeArea w'
          = render_segments newText
              (getHighlight q (parse language newText None))
       /\ trace w' = trace w ++ steps
       /\ parser_calls steps = [TreeEdited (edit_of c); Parsed newText false]
       /\ edit_of c
          = mkEdit (c_start c) (c_oldEnd c) (c_newEnd c)
                   (mkPoint 0 (c_start c)) (mkPoint 0 (c_oldEnd c))
                   (mkPoint 0 (c_newEnd c))
       /\ exists w0,
           sourceChange language q newText None w = Ok (tt, w0)
           /\ same_display w0 w')
  /\ (tree w = None ->
      sourceChange language q newText (Some c) w = Throw TypeError).
Proof.
  split.
  - intros t Ht.
    destruct (sourceChange_returns language q newText w) as (sel0 & d0 & H0).
    destruct (sourceChange_delta_returns language q newText c w t Ht)
      as (sel & d & ->).
    eexists. eexists. split; [reflexivity|].
    cbn [source tree trace codeArea].
    split; [reflexivity|]. split; [reflexivity|]. split; [reflexivity|].
    split; [reflexivity|].
    split; [|split; [reflexivity|]].
    + rewrite parser_calls_cons_emission. simpl.
      do 2 f_equal. apply parser_calls_notifications.
    + eexists. split; [exact H0|].
      unfold same_display, changed_world. simpl. auto.
  - intros Ht. unfold sourceChange. unfold bind at 1. rewrite emit_eq.
    unfold bind, get, log, modify. cbn [tree set_source set_trace].
    rewrite Ht. reflexivity.
Qed.

Lemma sourceChange_with_delta_witness :
  let w := sums_editor (js "1+2") [] in
  tree w = Some (mkNode 0 0 3 [mkNode 1 0 1 []; mkNode 3 2 3 []])
  /\ tree (construct (Some (js "1+2")) [] None) = None
  /\ (exists w' steps,
         sourceChange sums (Some number_query) (js "1+23")
                      (Some (mkChange 3 4 3)) w = Ok (tt, w')
         /\ source w' = js "1+23"
         /\ trace w' = trace w ++ steps
         /\ parser_calls steps
            = [TreeEdited (edit_of (mkChange 3 4 3));
               Parsed (js "1+23") false])
  /\ sourceChange sums (Some number_query) (js "1+23")
                  (Some (mkChange 3 4 3))
                  (construct (Some (js "1+2")) [] None)
     = Throw TypeError.
Proof.
  intros w. split; [reflexivity | split; [reflexivity|]].
  split.
  - destruct (proj1 (sourceChange_with_delta sums (Some number_query)
                       (js "1+23") (mkChange 3 4 3) w) _ eq_refl)
      as (w' & steps & H & Hs & _ & _ & Ht & Hp & _).
    exists w', steps. repeat split; assumption.
  - apply (proj2 (sourceChange_with_delta sums (Some number_query)
                    (js "1+23") (mkChange 3 4 3)
                    (construct (Some (js "1+2")) [] None))).
    reflexivity.
Defined.

(** ** The engine over its whole life *)

Lemma consistent_same_display (language : Parser) (q : option Query)
      (w w' : World) :
  same_display w w' -> consistent language q w -> consistent language q w'.
Proof.
  intros (Hs & Ht & Hc) [H1 H2]. unfold consistent.
  rewrite Hs, Ht, Hc. split; assumption.
Qed.

Lemma run_disposers_same_display (ds : list Disposer) :
  forall w, exists w',
    forEach ds run_disposer w = Ok (tt, w')
    /\ same_display w w' /\ widgets w' = widgets w.
Proof.
  induction ds as [|d ds IH]; intros w; simpl.
  - exists w. unfold same_display. auto.
  - unfold bind at 1.
    assert (Hd : exists w1, run_disposer d w = Ok (tt, w1)
                            /\ same_display w w1 /\ widgets w1 = widgets w).
    { destruct d as [r | e h]; simpl.
      - eexists. split; [reflexivity|]. unfold same_display. simpl. auto.
      - destruct e; eexists; (split; [reflexivity|]);
          unfold same_display; simpl; auto. }
    destruct Hd as (w1 & -> & (Hs1 & Ht1 & Hc1) & Hw1).
    destruct (IH w1) as (w2 & H2 & (Hs2 & Ht2 & Hc2) & Hw2).
    exists w2. split; [exact H2|]. unfold same_display.
    repeat split; congruence.
Qed.

Lemma dispose_same_display (w : World) :
  exists w', dispose w = Ok (tt, w') /\ same_display w w'.
Proof.
  unfold dispose, disposables_dispose, bind, get.
  destruct (run_disposers_same_display (disposables w) w)
    as (w1 & -> & Hd & _).
  unfold modify. eexists. split; [reflexivity|].
  destruct Hd as (Hs & Ht & Hc). unfold same_display. simpl. auto.
Qed.

Lemma changed_world_consistent (language : Parser) (q : option Query)
      (newText : jsstring) (sel : option Selection) (d : option DomRange)
      (w : World) :
  consistent language q (changed_world language q newText sel d w).
Proof. split; reflexivity. Qed.

Lemma perform_consistent (language : Parser) (q : option Query)
      (a : Action) (w : World) :
  consistent language q w ->
  exists w', perform language q a w = Ok (tt, w')
             /\ consistent language q w'.
Proof.
  intros Hc.
  destruct a as [txt | range | txt [c|] | s e txt | s e | ]; simpl.
  - unfold dispatch_input, bind, get.
    destruct (registered input_registration w).
    + unfold inputListener.
      destruct (sourceChange_returns language q txt w) as (sel & d & ->).
      eexists. split; [reflexivity | apply changed_world_consistent].
    + exists w. split; [reflexivity | exact Hc].
  - unfold dispatch_selectionchange, bind, get, modify.
    destruct (registered selectionchange_registration
                         (set_domSelection range w)).
    + unfold fromSelectionChange, modify. eexists. split; [reflexivity|].
      apply (consistent_same_display language q w); [|exact Hc].
      unfold same_display. destruct range; simpl; auto.
    + eexists. split; [reflexivity|].
      apply (consistent_same_display language q w); [|exact Hc].
      unfold same_display. simpl. auto.
  - destruct (sourceChange_delta_returns language q txt c w _ (proj1 Hc))
      as (sel & d & ->).
    eexists. split; [reflexivity | split; reflexivity].
  - destruct (sourceChange_returns language q txt w) as (sel & d & ->).
    eexists. split; [reflexivity | apply changed_world_consistent].
  - destruct (replaceText_returns language q s e txt w) as (d & ->).
    eexists. split; [reflexivity | apply changed_world_consistent].
  - destruct (setSelection_returns s e w) as (d & ->).
    eexists. split; [reflexivity|].
    apply (consistent_same_display language q w); [|exact Hc].
    unfold same_display. simpl. auto.
  - destruct (dispose_same_display w) as (w' & -> & Hd).
    exists w'. split; [reflexivity|].
    now apply (consistent_same_display language q w).
Qed.

Lemma actions_consistent (language : Parser) (q : option Query)
      (actions : list Action) :
  forall w,
    consistent language q w ->
    exists w', forEach actions (perform language q) w = Ok (tt, w')
               /\ consistent language q w'.
Proof.
  induction actions as [|a actions IH]; intros w Hc; simpl.
  - exists w. split; [reflexivity | exact Hc].
  - unfold bind.
    destruct (perform_consistent language q a w Hc) as (w1 & -> & Hc1).
    apply IH. exact Hc1.
Qed.

Lemma create_init_post (language : Parser) (q : option Query)
      (src : option jsstring) (ws : list WidgetKind)
      (host : option DomRange) :
  forallb (compiles language) ws = true ->
  let txt := match src with Some s => s | None => [] end in
  exists sel d w',
    create language q src ws host = Ok (tt, w')
    /\ init_post 0 ws
         (changed_world language q txt sel d
            (mkWorld txt None None (map (fun k => mkWidget k false []) ws)
                     [RemoveListener input_registration;
                      RemoveListener selectionchange_registration]
                     [] [] [] host
                     [input_registration; selectionchange_registration] []))
         w'.
Proof.
  intros Hcomp txt.
  set (w0 := mkWorld txt None None (map (fun k => mkWidget k false []) ws)
                     [RemoveListener input_registration;
                      RemoveListener selectionchange_registration]
                     [] [] [] host
                     [input_registration; selectionchange_registration] []).
  change (create language q src ws host)
    with (bind (sourceChange language q txt None)
               (fun _ =>
                  bind get
                       (fun w => forEach (seq 0 (List.length (widgets w)))
                                         (widget_init language))) w0).
  unfold bind at 1.
  destruct (sourceChange_returns language q txt w0) as (sel & d & ->).
  set (w1 := changed_world language q txt sel d w0).
  unfold bind at 1. unfold get at 1.
  destruct (widgets_init_loop language ws Hcomp 0 w1) as (w2 & H2 & P2).
  - unfold w1, changed_world; simpl. rewrite map_map. simpl. apply map_id.
  - intros j _. reflexivity.
  - assert (Hlen : List.length (widgets w1) = List.length ws).
    { unfold w1, changed_world; simpl. apply length_map. }
    rewrite Hlen, H2. exists sel, d, w2. split; [reflexivity | exact P2].
Qed.

Lemma create_consistent (language : Parser) (q : option Query)
      (src : option jsstring) (ws : list WidgetKind)
      (host : option DomRange) :
  forallb (compiles language) ws = true ->
  exists w',
    create language q src ws host = Ok (tt, w')
    /\ consistent language q w'
    /\ source w' = match src with Some s => s | None => [] end.
Proof.
  intros Hcomp.
  destruct (create_init_post language q src ws host Hcomp)
    as (sel & d & w' & Hc & P).
  exists w'. split; [exact Hc|]. destruct P. split; [|exact post_source0].
  unfold consistent. rewrite post_source0, post_tree0, post_codeArea0.
  split; reflexivity.
Qed.

(** X9. An engine without widgets, and with nobody else subscribed to its
    events, never throws and keeps no residue of earlier texts: from its
    creation on, through any sequence of input and selection events of the
    host and of calls of [sourceChange] (with or without a delta),
    [replaceText] (on safe integers), [setSelection] and [dispose], every
    step returns, and afterwards the tree is the parse from scratch of the
    current text and the rendered spans are the segments of the current
    text and that tree, as on an engine freshly created on this text. *)
Theorem engine_keeps_no_residue (language : Parser) (q : option Query)
        (src : option jsstring) (host : option DomRange)
        (actions : list Action) :
  Forall safe_action actions ->
  exists w0 w',
    create language q src [] host = Ok (tt, w0)
    /\ forEach actions (perform language q) w0 = Ok (tt, w')
    /\ tree w' = Some (parse language (source w') None)
    /\ codeArea w'
       = render_segments (source w')
           (getHighlight q (parse language (source w') None))
    /\ exists fresh,
        create language q (Some (source w')) [] None = Ok (tt, fresh)
        /\ source fresh = source w'
        /\ tree fresh = tree w'
        /\ codeArea fresh = codeArea w'.
Proof.
  intros _.
  destruct (create_consistent language q src [] host eq_refl)
    as (w0 & Hc & H0 & _).
  destruct (actions_consistent language q actions w0 H0)
    as (w' & Hrun & [Ht Hca]).
  exists w0, w'. split; [exact Hc|]. split; [exact Hrun|].
  split; [exact Ht|]. split; [exact Hca|].
  destruct (create_consistent language q (Some (source w')) [] None eq_refl)
    as (fresh & Hf & [Hft Hfc] & Hfs).
  exists fresh. split; [exact Hf|]. split; [exact Hfs|].
  rewrite Hft, Hfc, Hfs, Ht, Hca. split; reflexivity.
Qed.

Lemma engine_keeps_no_residue_witness :
  let actions := [UserInput (js "1+23");
                  CallReplaceText 4 2 (js "");
                  UserSelects (Some (mkRange (SpanText 0, 1) (SpanText 0, 1)));
                  CallSourceChange (js "") (Some (mkChange 0 0 6));
                  CallSetSelection 0 0;
                  CallReplaceText (-3) 0 (js "1+23");
                  CallDispose;
                  UserInput (js "7")] in
  Forall safe_action actions
  /\ exists w0 w',
      create sums (Some number_query) (Some (js "1+2")) [] None = Ok (tt, w0)
      /\ forEach actions (perform sums (Some number_query)) w0 = Ok (tt, w')
      /\ source w' = js "1+23"
      /\ codeArea w' = codeArea (sums_editor (js "1+23") []).
Proof.
  intros actions.
  assert (Hsafe : Forall safe_action actions).
  { repeat (apply Forall_cons; [|]); try apply Forall_nil; simpl;
      unfold safe_integer, len; simpl; try exact I; lia. }
  split; [exact Hsafe|].
  destruct (engine_keeps_no_residue sums (Some number_query)
              (Some (js "1+2")) None actions Hsafe)
    as (w0 & w' & Hc & Hrun & _ & Hca & _).
  exists w0, w'. split; [exact Hc|]. split; [exact Hrun|].
  assert (E0 : Ok (tt, w0)
               = create sums (Some number_query) (Some (js "1+2")) [] None)
    by (symmetry; exact Hc).
  vm_compute in E0. injection E0 as ->.
  assert (E1 : Ok (tt, w')
               = forEach actions (perform sums (Some number_query)) _)
    by (symmetry; exact Hrun).
  vm_compute in E1. injection E1 as ->. split; reflexivity.
Defined.

(** The scenario [1+2], then [1+23], then the empty text, then [1+23]
    again. *)
Example no_residue_after_emptying :
  let w := world_of
             (forEach [UserInput (js "1+23"); UserInput (js "");
                       UserInput (js "1+23")]
                      (perform sums (Some number_query))
                      (sums_editor (js "1+2") []))
             (sums_editor (js "1+2") []) in
  codeArea w = codeArea (sums_editor (js "1+23") []).
Proof. reflexivity. Qed.

(** ** What is displayed after a change *)

(** X10. After [sourceChange(newText)] on any engine, when the nodes the
    highlight query tags in the tree of [newText] are laid out in order
    inside the text, the rendered spans show the buffer: they tile
    [0, length(newText)) and their texts put together are [newText], which
    is the buffer. *)
Theorem change_displays_buffer (language : Parser) (q : option Query)
        (newText : jsstring) (w : World) :
  spans_in_order 0 (getHighlight q (parse language newText None))
                 (len newText) = true ->
  exists w',
    sourceChange language q newText None w = Ok (tt, w')
    /\ source w' = newText
    /\ source_of (codeArea w') = newText
    /\ tiling 0 (codeArea w') (len newText).
Proof.
  intros Hsp.
  destruct (sourceChange_returns language q newText w) as (sel & d & ->).
  eexists. split; [reflexivity|]. unfold changed_world. cbn [source codeArea].
  destruct (render_segments_tiling newText _ Hsp) as (Ht & _ & Hs).
  auto.
Qed.

Lemma change_displays_buffer_witness :
  let w := sums_editor (js "1+2") [] in
  spans_in_order 0 (getHighlight (Some number_query)
                                 (parse sums (js "1+23") None))
                 (len (js "1+23")) = true
  /\ exists w',
      sourceChange sums (Some number_query) (js "1+23") None w = Ok (tt, w')
      /\ source_of (codeArea w') = js "1+23".
Proof.
  intros w. split; [reflexivity|].
  destruct (change_displays_buffer sums (Some number_query) (js "1+23") w
                                   eq_refl) as (w' & H & _ & Hs & _).
  exists w'. split; assumption.
Defined.

(** ** The selection across a render *)

Lemma tiling_order (a b : Z) (segs : list Segment) :
  tiling a segs b ->
  forall j i cj ci,
    (j < i)%nat -> nth_error segs j = Some cj -> nth_error segs i = Some ci ->
    offset cj + len (text cj) <= offset ci.
Proof.
  revert a; induction segs as [|s segs IH]; intros a Ht j i cj ci Hji Hj Hi.
  - destruct j; discriminate.
  - destruct Ht as [Ho Ht]. destruct i as [|i]; [lia|]. simpl in Hi.
    destruct j as [|j]; simpl in Hj.
    + injection Hj as <-.
      destruct (tiling_within _ _ _ Ht) as [_ Hall].
      rewrite Forall_forall in Hall.
      specialize (Hall ci (nth_error_In _ _ Hi)). lia.
    + apply (IH _ Ht j i); [lia | assumption | assumption].
Qed.

(** On spans that tile, the position of [b] comes before the position of
    [a] in the document exactly when [b < a]. *)
Lemma boundary_before_tiling (segs : list Segment) (from to a b : Z)
      (i j : nat) (k l : Z) :
  tiling from segs to ->
  findNode segs a = Some (i, k) -> findNode segs b = Some (j, l) ->
  boundary_before (j, l) (i, k) = (b <? a).
Proof.
  intros Ht Hp Hq.
  pose proof (findNode_from_first segs a 0 i k Hp) as Ha.
  pose proof (findNode_from_first segs b 0 j l Hq) as Hb.
  apply findNode_some in Hp as (ci & Hi & [Hi1 Hi2] & ->).
  apply findNode_some in Hq as (cj & Hj & [Hj1 Hj2] & ->).
  unfold boundary_before. cbn [fst snd].
  destruct (Nat.ltb_spec j i) as [Hlt|Hge]; simpl.
  - pose proof (tiling_order _ _ _ Ht j i cj ci Hlt Hj Hi) as Hle.
    symmetry. apply Z.ltb_lt.
    destruct (Z.eq_dec a b) as [E|E]; [|lia].
    exfalso. apply (Ha j cj); [lia | exact Hj|].
    unfold in_segment. lia.
  - destruct (Nat.eqb_spec j i) as [E|E]; simpl.
    + subst j. assert (cj = ci) by congruence. subst cj.
      destruct (Z.ltb_spec (b - offset ci) (a - offset ci));
        destruct (Z.ltb_spec b a); reflexivity || lia.
    + assert (Hlt : (i < j)%nat) by lia.
      pose proof (tiling_order _ _ _ Ht i j ci cj Hlt Hi Hj) as Hle.
      symmetry. apply Z.ltb_ge. lia.
Qed.

(** On spans that tile, a selection inside the tiled range gets a range,
    and the ends of the range map back to the ends of the selection. *)
Lemma selectionToRange_tiling (segs : list Segment) (L a b : Z) :
  tiling 0 segs L -> segs <> [] -> 0 <= a -> a <= b -> b <= L ->
  exists r,
    selectionToRange segs a b = Ok (Some r)
    /\ positionToOffset segs (range_start r) = a
    /\ positionToOffset segs (range_end r) = b.
Proof.
  intros Ht Hne Ha Hab Hb.
  destruct (tiling_covers 0 L a segs Ht Hne) as (sa & Hsa & Hina); [lia|].
  destruct (tiling_covers 0 L b segs Ht Hne) as (sb & Hsb & Hinb); [lia|].
  destruct (findNode_inside segs a (ex_intro _ sa (conj Hsa Hina)))
    as [[i k] Hp].
  destruct (findNode_inside segs b (ex_intro _ sb (conj Hsb Hinb)))
    as [[j l] Hq].
  pose proof (findNode_from_first segs a 0 i k Hp) as Hfirst.
  pose proof (findNode_some _ _ _ _ Hp) as (ci & Hi & [Hi1 Hi2] & Hk).
  pose proof (findNode_some _ _ _ _ Hq) as (cj & Hj & [Hj1 Hj2] & Hl).
  unfold selectionToRange. rewrite Hp, Hq.
  rewrite (findNode_boundary_ok _ _ _ Hp), (findNode_boundary_ok _ _ _ Hq).
  assert (Hord : boundary_before (j, l) (i, k) = false).
  { unfold boundary_before; simpl.
    destruct (Nat.ltb_spec j i) as [Hlt|Hge]; simpl.
    - exfalso.
      pose proof (tiling_order _ _ _ Ht j i cj ci Hlt Hj Hi) as Hle.
      apply (Hfirst j cj); [lia | exact Hj|].
      unfold in_segment. lia.
    - destruct (Nat.eqb_spec j i) as [E|E]; simpl; [|reflexivity].
      subst j. assert (cj = ci) by congruence. subst cj.
      apply Z.ltb_ge. lia. }
  rewrite Hord. eexists. split; [reflexivity|].
  unfold positionToOffset, getOffset; simpl. rewrite Hi, Hj. lia.
Qed.

Lemma set_selection_same (w : World) (sel : Selection) :
  selection w = Some sel -> set_selection (Some sel) w = w.
Proof. destruct w; simpl. intros ->. reflexivity. Qed.

(** When the window's range maps back to the recorded selection, a
    [selectionchange] event changes nothing. *)
Lemma fromSelectionChange_fixed (w : World) (sel : Selection) (r : DomRange) :
  selection w = Some sel -> domSelection w = Some r ->
  positionToOffset (codeArea w) (range_start r) = sel_start sel ->
  positionToOffset (codeArea w) (range_end r) = sel_end sel ->
  fromSelectionChange w = Ok (tt, w).
Proof.
  intros Hs Hd H1 H2. unfold fromSelectionChange, modify.
  rewrite Hd, H1, H2. destruct sel as [a b]; simpl.
  now rewrite (set_selection_same w _ Hs).
Qed.

(** [restoreSelection] shows the recorded selection whenever it has a
    range, and touches nothing but the window's selection. *)
Lemma restoreSelection_shows (w : World) :
  exists d,
    restoreSelection w = Ok (tt, set_domSelection d w)
    /\ forall sel r,
        selection w = Some sel ->
        selectionToRange (codeArea w) (sel_start sel) (sel_end sel)
        = Ok (Some r) ->
        d = Some r.
Proof.
  unfold restoreSelection, bind, get, lift.
  destruct (selection w) as [sel|].
  - destruct (selectionToRange_returns (codeArea w) (sel_start sel)
                                       (sel_end sel)) as [r Hr].
    rewrite Hr. destruct r as [r|].
    + exists (Some r). split; [reflexivity|].
      intros sel' r' [= <-] H. congruence.
    + exists (domSelection w). unfold ret.
      rewrite set_domSelection_same. split; [reflexivity|].
      intros sel' r' [= <-] H. congruence.
  - exists (domSelection w). unfold ret. rewrite set_domSelection_same.
    split; [reflexivity | discriminate].
Qed.

Lemma renderTree_shows (q : option Query) (w : World) (t : SyntaxNode) :
  tree w = Some t ->
  exists sel d,
    renderTree q w
    = Ok (tt, mkWorld (source w) (tree w) sel (widgets w) (disposables w)
                      (beforeChange w) (afterChange w)
                      (render_segments (source w) (getHighlight q t))
                      d (listeners w)
                      (trace w ++ emission AfterChange w))
    /\ forall s r,
        sel = Some s ->
        selectionToRange (render_segments (source w) (getHighlight q t))
                         (sel_start s) (sel_end s) = Ok (Some r) ->
        d = Some r.
Proof.
  intros Ht. unfold renderTree, currentHighlight.
  unfold bind at 1. unfold bind at 1. unfold get at 1. rewrite Ht.
  assert (Hq : (match q with
                | Some q0 => ret (getHighlight (Some q0) t)
                | None => ret []
                end) w = Ok (getHighlight q t, w)).
  { destruct q; reflexivity. }
  rewrite Hq. unfold bind, get, fromSelectionChange, modify.
  match goal with
  | |- context [restoreSelection ?w2] =>
      destruct (restoreSelection_shows w2) as (d & -> & Hd)
  end.
  rewrite emit_eq.
  destruct w as [src tr sel ws ds bc ac ca dsel ls tc]; simpl in *.
  subst tr. clear Hq.
  destruct dsel as [r|];
    unfold set_trace, set_domSelection, set_codeArea, clear_codeArea,
      set_selection, emission in *; simpl in *;
    eexists; exists d; (split; [reflexivity|]);
    intros s r' Hs Hr; apply (Hd s r' Hs Hr).
Qed.

Lemma sourceChange_shows (language : Parser) (q : option Query)
      (newText : jsstring) (w : World) :
  exists sel d,
    sourceChange language q newText None w
    = Ok (tt, changed_world language q newText sel d w)
    /\ forall s r,
        sel = Some s ->
        selectionToRange
          (render_segments newText
             (getHighlight q (parse language newText None)))
          (sel_start s) (sel_end s) = Ok (Some r) ->
        d = Some r.
Proof.
  unfold sourceChange. unfold bind at 1. rewrite emit_eq.
  unfold bind, get, log, modify.
  match goal with
  | |- context [renderTree q ?w2] =>
      destruct (renderTree_shows q w2 (parse language newText None)
                                 eq_refl) as (sel & d & -> & Hd)
  end.
  exists sel, d. split; [|exact Hd]. unfold changed_world.
  destruct w as [src tr sl ws ds bc ac ca dsel ls tc].
  unfold emission; simpl. rewrite <- !app_assoc. reflexivity.
Qed.

(** X11. The selection survives a change.  After [sourceChange(newText)]
    with a text that is not empty and tagged nodes laid out in order, if
    the selection recorded at the render lies inside the new text (with
    [start <= end]), the window's selection has been set to a range whose
    ends map back to exactly the recorded offsets, so that the
    [selectionchange] event this raises leaves the engine as it is. *)
Theorem change_keeps_selection (language : Parser) (q : option Query)
        (newText : jsstring) (w : World) :
  spans_in_order 0 (getHighlight q (parse language newText None))
                 (len newText) = true ->
  newText <> [] ->
  exists w',
    sourceChange language q newText None w = Ok (tt, w')
    /\ forall sel,
        selection w' = Some sel ->
        0 <= sel_start sel -> sel_start sel <= sel_end sel ->
        sel_end sel <= len newText ->
        exists r,
          domSelection w' = Some r
          /\ positionToOffset (codeArea w') (range_start r) = sel_start sel
          /\ positionToOffset (codeArea w') (range_end r) = sel_end sel
          /\ fromSelectionChange w' = Ok (tt, w').
Proof.
  intros Hsp Hne.
  destruct (sourceChange_shows language q newText w) as (sel0 & d & -> & Hd).
  eexists. split; [reflexivity|].
  intros sel Hsel H0 Hse He.
  destruct (render_segments_tiling newText _ Hsp) as (Ht & Hnon & _).
  set (segs := render_segments newText
                 (getHighlight q (parse language newText None))) in *.
  assert (Hsegs : segs <> []).
  { intros E. apply (tiling_nonempty_source _ _ _ Ht Hnon) in E.
    apply Hne. apply len_nil_iff. lia. }
  destruct (selectionToRange_tiling segs (len newText) (sel_start sel)
                                    (sel_end sel) Ht Hsegs H0 Hse He)
    as (r & Hr & H1 & H2).
  simpl in Hsel. specialize (Hd sel r Hsel Hr). subst d.
  exists r. split; [reflexivity|]. split; [exact H1|]. split; [exact H2|].
  apply (fromSelectionChange_fixed _ sel r); try reflexivity; assumption.
Qed.

Lemma change_keeps_selection_witness :
  let w := set_domSelection (Some (mkRange (SpanText 2, 1) (SpanText 2, 1)))
                            (sums_editor (js "1+2") []) in
  spans_in_order 0 (getHighlight (Some number_query)
                                 (parse sums (js "1+23") None))
                 (len (js "1+23")) = true
  /\ js "1+23" <> []
  /\ exists w',
      sourceChange sums (Some number_query) (js "1+23") None w = Ok (tt, w')
      /\ selection w' = Some (mkSelection 3 3)
      /\ domSelection w' = Some (mkRange (SpanText 2, 1) (SpanText 2, 1)).
Proof.
  intros w. split; [reflexivity | split; [discriminate|]].
  destruct (change_keeps_selection sums (Some number_query) (js "1+23") w
                                   eq_refl)
    as (w' & H & _); [discriminate|].
  exists w'. split; [exact H|].
  assert (E : Ok (tt, w') = sourceChange sums (Some number_query)
                                         (js "1+23") None w)
    by (symmetry; exact H).
  vm_compute in E. injection E as ->. split; reflexivity.
Defined.

Lemma offsetToPosition_none (spans : list Segment) (o : Z) :
  offsetToPosition spans o = None <-> findNode spans o = None.
Proof.
  unfold offsetToPosition.
  destruct (findNode spans o) as [[j k]|]; split; congruence.
Qed.

(** X12. [setSelection(a, b)] always returns and records [{a, b}], and it
    changes neither text, tree nor spans.  When one of the two offsets has
    no position the window's selection is left as it was; this is so for
    every [a] and [b] while no span is displayed (an empty buffer), where
    not even [{0, 0}] is shown.  When at least one span is displayed, the
    spans tile [0, L) and [0 <= a <= b <= L], the window's selection
    becomes a range whose ends map back to [a] and [b], so that a
    [selectionchange] event reads the same selection again. *)
Theorem setSelection_records_and_shows (a b : Z) (w : World) :
  exists w',
    setSelection a b w = Ok (tt, w')
    /\ selection w' = Some (mkSelection a b)
    /\ same_display w w'
    /\ (offsetToPosition (codeArea w) a = None
        \/ offsetToPosition (codeArea w) b = None ->
        domSelection w' = domSelection w)
    /\ (codeArea w = [] -> domSelection w' = domSelection w)
    /\ (forall L,
           tiling 0 (codeArea w) L -> codeArea w <> [] ->
           0 <= a -> a <= b -> b <= L ->
           exists r,
             domSelection w' = Some r
             /\ positionToOffset (codeArea w') (range_start r) = a
             /\ positionToOffset (codeArea w') (range_end r) = b
             /\ fromSelectionChange w' = Ok (tt, w')).
Proof.
  unfold setSelection, restoreSelection. unfold bind, modify, get, lift.
  cbn [selection set_selection codeArea sel_start sel_end].
  destruct (selectionToRange_returns (codeArea w) a b) as [r Hr].
  rewrite Hr. destruct r as [r|]; eexists; (split; [reflexivity|]);
    (split; [reflexivity|]); (split; [unfold same_display; simpl; auto|]).
  - assert (Hmapped : offsetToPosition (codeArea w) a = None
                      \/ offsetToPosition (codeArea w) b = None -> False).
    { intros Hnone. rewrite !offsetToPosition_none in Hnone.
      rewrite (selectionToRange_unmapped _ _ _ Hnone) in Hr. discriminate. }
    split; [intros Hnone; contradiction (Hmapped Hnone)|]. split.
    + intros Hempty. exfalso. apply Hmapped. left. now rewrite Hempty.
    + intros L Ht Hne Ha Hab Hb.
      destruct (selectionToRange_tiling _ L a b Ht Hne Ha Hab Hb)
        as (r' & Hr' & H1 & H2).
      assert (r' = r) by congruence. subst r'.
      exists r. simpl. split; [reflexivity|]. split; [exact H1|].
      split; [exact H2|].
      apply (fromSelectionChange_fixed _ (mkSelection a b) r);
        try reflexivity; assumption.
  - split; [reflexivity|]. split; [reflexivity|].
    intros L Ht Hne Ha Hab Hb.
    destruct (selectionToRange_tiling _ L a b Ht Hne Ha Hab Hb)
      as (r' & Hr' & _). congruence.
Qed.

Lemma setSelection_records_and_shows_witness :
  let w := sums_editor (js "1+23") [] in
  let e := sums_editor (js "") [] in
  tiling 0 (codeArea w) 4 /\ codeArea w <> []
  /\ (exists w',
         setSelection 1 3 w = Ok (tt, w')
         /\ selection w' = Some (mkSelection 1 3)
         /\ exists r, domSelection w' = Some r
                      /\ positionToOffset (codeArea w') (range_start r) = 1
                      /\ positionToOffset (codeArea w') (range_end r) = 3)
  /\ codeArea e = []
  /\ exists e',
      setSelection 0 0 e = Ok (tt, e')
      /\ selection e' = Some (mkSelection 0 0)
      /\ domSelection e' = domSelection e.
Proof.
  intros w e.
  assert (Ht : tiling 0 (codeArea w) 4) by (simpl; auto).
  assert (Hne : codeArea w <> []) by discriminate.
  split; [exact Ht | split; [exact Hne|]]. split.
  - destruct (setSelection_records_and_shows 1 3 w)
      as (w' & H & Hs & _ & _ & _ & Hshow).
    exists w'. split; [exact H | split; [exact Hs|]].
    destruct (Hshow 4 Ht Hne) as (r & Hr & H1 & H2 & _); try lia.
    exists r. auto.
  - split; [reflexivity|].
    destruct (setSelection_records_and_shows 0 0 e)
      as (e' & H & Hs & _ & _ & Hempty & _).
    exists e'. split; [exact H | split; [exact Hs|]].
    apply Hempty. reflexivity.
Defined.

(** ** Teardown *)

Lemma hotkeys_not_engine (ws : list WidgetKind) :
  forall i,
    existsb (reg_eqb input_registration) (widget_hotkeys i ws) = false
    /\ existsb (reg_eqb selectionchange_registration) (widget_hotkeys i ws)
       = false.
Proof.
  induction ws as [|k ws IH]; intros i; simpl; [auto|].
  rewrite !existsb_app. destruct (IH (S i)) as [-> ->].
  destruct k; simpl; auto.
Qed.

(** X13. [dispose] cuts the engine off from the host.  Before it, an
    [input] event makes the text of the code area the buffer; after it, for
    an engine created with any widgets (their matcher queries compile, or
    there would be no engine), [input] events leave the engine untouched
    and [selectionchange] events no longer change the recorded
    selection. *)
Theorem dispose_detaches_engine (language : Parser) (q : option Query)
        (src : option jsstring) (ws : list WidgetKind)
        (host : option DomRange) (innerText : jsstring)
        (range : option DomRange) :
  forallb (compiles language) ws = true ->
  exists w1 w2,
    create language q src ws host = Ok (tt, w1)
    /\ (exists w1', dispatch_input language q innerText w1 = Ok (tt, w1')
                    /\ source w1' = innerText)
    /\ dispose w1 = Ok (tt, w2)
    /\ dispatch_input language q innerText w2 = Ok (tt, w2)
    /\ exists w2', dispatch_selectionchange range w2 = Ok (tt, w2')
                   /\ selection w2' = selection w2
                   /\ same_display w2 w2'.
Proof.
  intros Hcomp.
  destruct (dispose_after_create language q src ws host Hcomp)
    as (w1 & w2 & Hc & Hd & Hl2 & _).
  destruct (create_returns language q src ws host Hcomp)
    as (w1' & Hc' & _ & _ & _ & _ & _ & Hl1 & _).
  assert (w1' = w1) by congruence. subst w1'.
  destruct (hotkeys_not_engine ws 0) as [Hin Hsel].
  exists w1, w2. split; [exact Hc|]. split; [|split; [exact Hd|split]].
  - unfold dispatch_input, bind, get, registered. rewrite Hl1. simpl.
    unfold inputListener.
    destruct (sourceChange_returns language q innerText w1)
      as (sel & d & ->).
    eexists. split; reflexivity.
  - unfold dispatch_input, bind, get, registered. rewrite Hl2, Hin.
    reflexivity.
  - unfold dispatch_selectionchange, bind, get, modify, registered.
    cbn [listeners set_domSelection]. rewrite Hl2, Hsel.
    eexists. split; [reflexivity|]. unfold same_display. simpl. auto.
Qed.

Lemma dispose_detaches_engine_witness :
  let ws := [CodeErrorWidget; CodeCompleteWidget [number_query_source]] in
  forallb (compiles sums) ws = true
  /\ exists w1 w2,
      create sums (Some number_query) (Some (js "1+2")) ws None = Ok (tt, w1)
      /\ dispose w1 = Ok (tt, w2)
      /\ dispatch_input sums (Some number_query) (js "1+23") w2
         = Ok (tt, w2)
      /\ source w2 = js "1+2".
Proof.
  intros ws. split; [reflexivity|].
  destruct (dispose_detaches_engine sums (Some number_query)
              (Some (js "1+2")) ws None (js "1+23") None eq_refl)
    as (w1 & w2 & Hc & _ & Hd & Hi & _).
  exists w1, w2. split; [exact Hc|]. split; [exact Hd|].
  split; [exact Hi|].
  assert (E1 : Ok (tt, w1)
               = create sums (Some number_query) (Some (js "1+2")) ws None)
    by (symmetry; exact Hc).
  vm_compute in E1. injection E1 as ->.
  assert (E2 : Ok (tt, w2) = dispose _) by (symmetry; exact Hd).
  vm_compute in E2. injection E2 as ->. reflexivity.
Defined.

Lemma update_nth_app {A : Type} (f : A -> A) (done : list A) (x : A)
      (rest : list A) :
  update_nth (List.length done) f (done ++ x :: rest) = done ++ f x :: rest.
Proof.
  induction done as [|y done IH]; simpl; [reflexivity | now rewrite IH].
Qed.

Lemma nth_error_app_here {A : Type} (done : list A) (x : A) (rest : list A) :
  nth_error (done ++ x :: rest) (List.length done) = Some x.
Proof.
  induction done as [|y done IH]; simpl; [reflexivity | exact IH].
Qed.

(** The widget at position [i] after its [init]. *)
Lemma widget_init_widgets (language : Parser) (k : WidgetKind)
      (done rest : list Widget) (w : World) :
  widgets w = done ++ mkWidget k false [] :: rest ->
  fresh_from (List.length done) (listeners w) ->
  compiles language k = true ->
  exists w',
    widget_init language (List.length done) w = Ok (tt, w')
    /\ widgets w'
       = done ++ mkWidget k true (widget_disposers (List.length done) k)
              :: rest.
Proof.
  intros Hw Hfresh Hcomp.
  unfold widget_init, bind, log, modify, get.
  cbn [widgets set_trace]. rewrite Hw, nth_error_app_here.
  pose proof (Hfresh _ (Nat.le_refl _)) as Hi.
  destruct k as [| |queries]; cbn [kind];
    unfold initHotKey, on, widget_disposables_add, update_widget,
      addEventListener, bind, modify, ret; simpl; try rewrite Hi; simpl;
    try rewrite (compile_matchers_returns language queries _ Hcomp); simpl;
    rewrite ?Hw, ?update_nth_app; simpl; rewrite ?update_nth_app; simpl;
    rewrite ?update_nth_app; eexists; (split; [reflexivity|]);
    simpl; rewrite ?Hw, ?update_nth_app; reflexivity.
Qed.

Lemma widgets_init_widgets (language : Parser) (ws : list WidgetKind) :
  forallb (compiles language) ws = true ->
  forall done w,
    widgets w = done ++ map (fun k => mkWidget k false []) ws ->
    fresh_from (List.length done) (listeners w) ->
    exists w',
      forEach (seq (List.length done) (List.length ws)) (widget_init language)
              w
      = Ok (tt, w')
      /\ widgets w' = done ++ attached_from (List.length done) ws.
Proof.
  induction ws as [|k ws IH]; intros Hcomp done w Hw Hfresh.
  - exists w. split; [reflexivity | exact Hw].
  - simpl in Hw. simpl in Hcomp. apply andb_prop in Hcomp as [Hck Hcomp].
    destruct (widget_init_widgets language k done _ w Hw Hfresh Hck)
      as (w1 & H1 & Hw1).
    destruct (widget_init_step language (List.length done) k w)
      as (w1' & H1' & P1).
    { rewrite Hw, map_app. simpl.
      rewrite <- (length_map kind done). apply nth_error_app_here. }
    { exact Hfresh. }
    { exact Hck. }
    assert (w1' = w1) by congruence. subst w1'.
    destruct (IH Hcomp
                 (done ++ [mkWidget k true
                             (widget_disposers (List.length done) k)]) w1)
      as (w2 & H2 & Hw2).
    + rewrite Hw1, <- app_assoc. reflexivity.
    + rewrite length_app. simpl. rewrite Nat.add_1_r.
      rewrite (post_listeners _ _ _ _ P1). now apply fresh_from_step.
    + rewrite length_app in H2, Hw2. simpl in H2, Hw2.
      rewrite Nat.add_1_r in H2, Hw2.
      exists w2. split.
      * simpl. unfold bind. rewrite H1. exact H2.
      * rewrite Hw2, <- app_assoc. reflexivity.
Qed.

Lemma create_widgets (language : Parser) (q : option Query)
      (src : option jsstring) (ws : list WidgetKind)
      (host : option DomRange) :
  forallb (compiles language) ws = true ->
  exists w',
    create language q src ws host = Ok (tt, w')
    /\ widgets w' = attached_from 0 ws.
Proof.
  intros Hcomp.
  set (txt := match src with Some s => s | None => [] end).
  set (w0 := mkWorld txt None None (map (fun k => mkWidget k false []) ws)
                     [RemoveListener input_registration;
                      RemoveListener selectionchange_registration]
                     [] [] [] host
                     [input_registration; selectionchange_registration] []).
  change (create language q src ws host)
    with (bind (sourceChange language q txt None)
               (fun _ =>
                  bind get
                       (fun w => forEach (seq 0 (List.length (widgets w)))
                                         (widget_init language))) w0).
  unfold bind at 1.
  destruct (sourceChange_returns language q txt w0) as (sel & d & ->).
  set (w1 := changed_world language q txt sel d w0).
  unfold bind at 1. unfold get at 1.
  destruct (widgets_init_widgets language ws Hcomp [] w1)
    as (w2 & H2 & Hw2).
  - reflexivity.
  - intros j _. reflexivity.
  - assert (Hlen : List.length (widgets w1) = List.length ws).
    { unfold w1, changed_world; simpl. apply length_map. }
    rewrite Hlen. simpl in H2. rewrite H2. exists w2.
    split; [reflexivity | exact Hw2].
Qed.

Lemma dispose_widgets (w w' : World) :
  dispose w = Ok (tt, w') -> widgets w' = widgets w.
Proof.
  unfold dispose, disposables_dispose, bind, get.
  destruct (run_disposers_same_display (disposables w) w)
    as (w1 & -> & _ & Hw).
  unfold modify. intros [= <-]. exact Hw.
Qed.

(** Disposing, one after the other, the widgets from position
    [length done] on releases what their [init] set up. *)
Lemma widgets_dispose_all (ws : list WidgetKind) :
  forall done w,
    widgets w = done ++ attached_from (List.length done) ws ->
    listeners w = widget_hotkeys (List.length done) ws ->
    afterChange w = widget_handlers (List.length done) ws ->
    exists w',
      forEach (seq (List.length done) (List.length ws)) widget_dispose w
      = Ok (tt, w')
      /\ listeners w' = [] /\ afterChange w' = []
      /\ beforeChange w' = beforeChange w
      /\ same_display w w'.
Proof.
  induction ws as [|k ws IH]; intros done w Hw Hl Ha.
  - exists w. unfold same_display. simpl in *. auto 10.
  - simpl in Hw, Hl, Ha.
    assert (Hstep : exists w1,
               widget_dispose (List.length done) w = Ok (tt, w1)
               /\ widgets w1
                  = (done ++ [mkWidget k true []])
                      ++ attached_from (S (List.length done)) ws
               /\ listeners w1 = widget_hotkeys (S (List.length done)) ws
               /\ afterChange w1 = widget_handlers (S (List.length done)) ws
               /\ beforeChange w1 = beforeChange w
               /\ same_display w w1).
    { unfold widget_dispose, bind, get. rewrite Hw, nth_error_app_here.
      cbn [w_disposables].
      destruct k; simpl in Hl, Ha |- *;
        unfold bind, removeEventListener, update_widget, modify, ret;
        simpl; rewrite ?Hw, ?Hl, ?Ha; simpl; rewrite ?Nat.eqb_refl; simpl;
        rewrite ?update_nth_app; eexists; (split; [reflexivity|]);
        unfold same_display; simpl; rewrite <- ?app_assoc; simpl;
        rewrite ?reg_eqb_hotkey, ?Nat.eqb_refl; auto 10. }
    destruct Hstep as (w1 & H1 & Hw1 & Hl1 & Ha1 & Hb1 & Hs1 & Ht1 & Hc1).
    destruct (IH (done ++ [mkWidget k true []]) w1) as (w2 & H2 & P2).
    + rewrite length_app. simpl. rewrite Nat.add_1_r. exact Hw1.
    + rewrite length_app. simpl. rewrite Nat.add_1_r. exact Hl1.
    + rewrite length_app. simpl. rewrite Nat.add_1_r. exact Ha1.
    + rewrite length_app in H2. simpl in H2. rewrite Nat.add_1_r in H2.
      destruct P2 as (Hl2 & Ha2 & Hb2 & Hs2 & Ht2 & Hc2).
      exists w2. split; [simpl; unfold bind; rewrite H1; exact H2|].
      unfold same_display. repeat split; congruence.
Qed.

(** X14. Teardown is complete once the widgets are disposed as well: for
    an engine created with any widgets (their matcher queries compile, or
    there would be no engine), after [dispose] and after the [dispose] of
    every widget, in order, no listener is left on the host and no handler
    is subscribed to [beforeChange] or [afterChange]; text, tree and
    rendered spans are as they were. *)
Theorem teardown_with_widgets (language : Parser) (q : option Query)
        (src : option jsstring) (ws : list WidgetKind)
        (host : option DomRange) :
  forallb (compiles language) ws = true ->
  exists w1 w2 w3,
    create language q src ws host = Ok (tt, w1)
    /\ dispose w1 = Ok (tt, w2)
    /\ forEach (seq 0 (List.length ws)) widget_dispose w2 = Ok (tt, w3)
    /\ listeners w3 = [] /\ afterChange w3 = [] /\ beforeChange w3 = []
    /\ same_display w1 w3.
Proof.
  intros Hcomp.
  destruct (dispose_after_create language q src ws host Hcomp)
    as (w1 & w2 & Hc & Hd & Hl2 & Ha2 & _).
  destruct (create_widgets language q src ws host Hcomp)
    as (w1' & Hc' & Hw1).
  assert (w1' = w1) by congruence. subst w1'.
  destruct (create_returns language q src ws host Hcomp)
    as (w1' & Hc'' & _ & _ & _ & Hb1 & _).
  assert (w1' = w1) by congruence. subst w1'.
  pose proof (dispose_widgets _ _ Hd) as Hw2.
  destruct (dispose_same_display w1) as (w2' & Hd' & Hs12).
  assert (w2' = w2) by congruence. subst w2'.
  assert (Hb2 : beforeChange w2 = []).
  { revert Hd. unfold dispose, disposables_dispose, bind, get.
    destruct (create_returns language q src ws host Hcomp)
      as (w1'' & Hc3 & _ & _ & Hdisp & _).
    assert (w1'' = w1) by congruence. subst w1''.
    rewrite Hdisp. simpl. unfold bind, removeEventListener, modify, ret.
    intros [= <-]. simpl. exact Hb1. }
  destruct (widgets_dispose_all ws [] w2) as (w3 & H3 & Hl3 & Ha3 & Hb3 & Hs23).
  - simpl. rewrite Hw2. exact Hw1.
  - exact Hl2.
  - exact Ha2.
  - exists w1, w2, w3. split; [exact Hc|]. split; [exact Hd|].
    split; [exact H3|]. split; [exact Hl3|]. split; [exact Ha3|].
    split; [congruence|].
    destruct Hs12 as (A1 & A2 & A3). destruct Hs23 as (B1 & B2 & B3).
    unfold same_display. repeat split; congruence.
Qed.

Lemma teardown_with_widgets_witness :
  let ws := [CodeErrorWidget; CodeCompleteWidget [number_query_source]] in
  forallb (compiles sums) ws = true
  /\ exists w1 w2 w3,
      create sums (Some number_query) (Some (js "1+2")) ws None = Ok (tt, w1)
      /\ listeners w1 = [input_registration; selectionchange_registration;
                         hotkey_registration 1]
      /\ dispose w1 = Ok (tt, w2)
      /\ forEach (seq 0 (List.length ws)) widget_dispose w2 = Ok (tt, w3)
      /\ listeners w3 = [] /\ afterChange w3 = [].
Proof.
  intros ws. split; [reflexivity|].
  destruct (teardown_with_widgets sums (Some number_query)
              (Some (js "1+2")) ws None eq_refl)
    as (w1 & w2 & w3 & Hc & Hd & Hw & Hl & Ha & _).
  exists w1, w2, w3. split; [exact Hc|]. split.
  - assert (E1 : Ok (tt, w1)
                 = create sums (Some number_query) (Some (js "1+2")) ws None)
      by (symmetry; exact Hc).
    vm_compute in E1. injection E1 as ->. reflexivity.
  - repeat split; assumption.
Defined.

(** ** Error nodes *)

Lemma getError_eq (isError hasError : SyntaxNode -> bool) (i : nat)
      (s e : Z) (cs : list SyntaxNode) :
  getError isError hasError (mkNode i s e cs)
  = (if isError (mkNode i s e cs) then [mkNode i s e cs] else [])
      ++ (if hasError (mkNode i s e cs)
          then flat_map (getError isError hasError) cs
          else []).
Proof. simpl. reflexivity. Qed.

Lemma preorder_list_In (cs : list SyntaxNode) (n : SyntaxNode) :
  In n (preorder_list cs) <-> exists c, In c cs /\ In n (preorder c).
Proof. unfold preorder_list. apply in_flat_map. Qed.

Lemma filter_none {A : Type} (f : A -> bool) (l : list A) :
  existsb f l = false -> filter f l = [].
Proof.
  induction l as [|x l IH]; simpl; [reflexivity|].
  destruct (f x); simpl; [discriminate | exact IH].
Qed.

(** X15. [getError] only returns error nodes of the tree it is given; and
    when [hasError] is set on every node that has an error node below it,
    [getError] returns all error nodes of the tree, each once, in document
    order. *)
Theorem getError_collects_errors (isError hasError : SyntaxNode -> bool)
        (tree : SyntaxNode) :
  (forall n, In n (getError isError hasError tree) ->
             isError n = true /\ In n (preorder tree))
  /\ ((forall n, In n (preorder tree) ->
                 existsb isError (preorder_list (children n)) = true ->
                 hasError n = true) ->
      getError isError hasError tree = filter isError (preorder tree)).
Proof.
  induction tree as [i s e cs IH] using SyntaxNode_rect_list.
  rewrite getError_eq, preorder_eq. split.
  - intros n Hn. apply in_app_or in Hn as [Hn | Hn].
    + destruct (isError (mkNode i s e cs)) eqn:E; [|contradiction].
      destruct Hn as [<- | []]. split; [exact E | now left].
    + destruct (hasError (mkNode i s e cs)); [|contradiction].
      apply in_flat_map in Hn as (c & Hc & Hn).
      rewrite Forall_forall in IH.
      destruct (proj1 (IH c Hc) n Hn) as [H1 H2].
      split; [exact H1|]. right. apply preorder_list_In. eauto.
  - intros Hsound. simpl filter. 
    assert (Hkids : flat_map (getError isError hasError) cs
                    = filter isError (preorder_list cs)).
    { assert (Hsub : forall c, In c cs ->
                forall n, In n (preorder c) ->
                  existsb isError (preorder_list (children n)) = true ->
                  hasError n = true).
      { intros c Hc n Hn. apply Hsound. right.
        apply preorder_list_In. eauto. }
      clear Hsound. unfold preorder_list.
      induction IH as [|c cs Hc _ IHcs]; simpl; [reflexivity|].
      rewrite filter_app. f_equal.
      - apply (proj2 Hc). apply Hsub. now left.
      - apply IHcs. intros c' Hc'. apply Hsub. now right. }
    destruct (isError (mkNode i s e cs)); simpl; f_equal;
      (destruct (hasError (mkNode i s e cs)) eqn:E; [exact Hkids|];
       symmetry; apply filter_none;
       destruct (existsb isError (preorder_list cs)) eqn:X;
         [|reflexivity];
       rewrite (Hsound (mkNode i s e cs) (or_introl eq_refl) X) in E;
       discriminate).
Qed.

Lemma getError_collects_errors_witness :
  let isError := fun n => (node_id n =? 2)%nat in
  let tree := mkNode 0 0 3 [mkNode 1 0 1 []; mkNode 2 1 3 []] in
  (forall n, In n (preorder tree) ->
             existsb isError (preorder_list (children n)) = true ->
             error_within isError n = true)
  /\ getError isError (error_within isError) tree = [mkNode 2 1 3 []].
Proof.
  intros isError tree.
  assert (H : forall n, In n (preorder tree) ->
                existsb isError (preorder_list (children n)) = true ->
                error_within isError n = true).
  { intros n [<- | [<- | [<- | []]]] Hn; simpl in Hn;
      try discriminate; reflexivity. }
  split; [exact H|].
  rewrite (proj2 (getError_collects_errors isError (error_within isError)
                                           tree) H).
  reflexivity.
Defined.

(** ** The completion menu *)

Lemma nth_error_update_nth {A : Type} (f : A -> A) (l : list A) :
  forall i j,
    nth_error (update_nth i f l) j
    = if (j =? i)%nat then option_map f (nth_error l j) else nth_error l j.
Proof.
  induction l as [|x l IH]; intros i j; simpl.
  - destruct i; destruct j; simpl; try reflexivity.
    destruct (j =? i)%nat; reflexivity.
  - destruct i as [|i]; destruct j as [|j]; simpl; try reflexivity.
    apply IH.
Qed.

Lemma length_update_nth {A : Type} (f : A -> A) (l : list A) (i : nat) :
  List.length (update_nth i f l) = List.length l.
Proof.
  revert i; induction l as [|x l IH]; intros [|i]; simpl; auto.
Qed.

Lemma set_marked_length (v : bool) (i : Z) (l : list MenuItem) :
  List.length (set_marked v i l) = List.length l.
Proof.
  unfold set_marked. destruct (i <? 0); [reflexivity|].
  apply length_update_nth.
Qed.

Lemma set_marked_items (v : bool) (i : Z) (l : list MenuItem) :
  map item (set_marked v i l) = map item l.
Proof.
  unfold set_marked. destruct (i <? 0); [reflexivity|].
  generalize (Z.to_nat i) as n. induction l as [|x l IH]; intros [|n];
    simpl; try reflexivity. now rewrite IH.
Qed.

Lemma set_marked_nth (v : bool) (i : Z) (l : list MenuItem) (j : nat)
      (it : MenuItem) :
  nth_error (set_marked v i l) j = Some it ->
  exists it0,
    nth_error l j = Some it0
    /\ marked it = if Z.of_nat j =? i then v else marked it0.
Proof.
  unfold set_marked. destruct (Z.ltb_spec i 0) as [Hneg|Hpos].
  - intros H. exists it. split; [exact H|].
    destruct (Z.eqb_spec (Z.of_nat j) i); [lia | reflexivity].
  - rewrite nth_error_update_nth.
    destruct (Nat.eqb_spec j (Z.to_nat i)) as [E|E].
    + destruct (nth_error l j) as [it0|]; [|discriminate].
      simpl. intros [= <-]. exists it0. split; [reflexivity|]. simpl.
      destruct (Z.eqb_spec (Z.of_nat j) i); [reflexivity | lia].
    + intros H. exists it. split; [exact H|].
      destruct (Z.eqb_spec (Z.of_nat j) i); [lia | reflexivity].
Qed.

(** [select] on a menu where no child but the selected one is marked. *)
Lemma select_menu_ok (index : Z) (m : CompleteMenu) :
  (forall j it, nth_error (menu_children m) j = Some it ->
                marked it = true -> Z.of_nat j = _selectIndex m) ->
  0 <= index < Z.of_nat (List.length (menu_children m)) ->
  menu_ok (select index m).
Proof.
  intros Hold Hidx. unfold menu_ok, select. cbn [menu_children _selectIndex].
  rewrite !set_marked_length. split; [exact Hidx|].
  intros j it Hj.
  apply set_marked_nth in Hj as (it1 & Hj1 & ->).
  destruct (Z.eqb_spec (Z.of_nat j) index); [reflexivity|].
  apply set_marked_nth in Hj1 as (it0 & Hj0 & ->).
  destruct (Z.eqb_spec (Z.of_nat j) (_selectIndex m)) as [E|E];
    [reflexivity|].
  destruct (marked it0) eqn:Hm; [|reflexivity].
  exfalso. apply E. now apply (Hold j it0).
Qed.

Lemma menu_ok_marks (m : CompleteMenu) :
  menu_ok m ->
  forall j it, nth_error (menu_children m) j = Some it ->
               marked it = true -> Z.of_nat j = _selectIndex m.
Proof.
  intros [_ H] j it Hj Hm. rewrite (H j it Hj) in Hm.
  now apply Z.eqb_eq.
Qed.

Lemma move_menu_ok (mv : Move) (m : CompleteMenu) :
  menu_ok m ->
  menu_ok (move mv m)
  /\ map item (menu_children (move mv m)) = map item (menu_children m)
  /\ isConnected (move mv m) = isConnected m.
Proof.
  intros Hok. pose proof (menu_ok_marks m Hok) as Hmarks.
  destruct Hok as [Hidx Hm].
  assert (Hsel : forall i,
            0 <= i < Z.of_nat (List.length (menu_children m)) ->
            menu_ok (select i m)
            /\ map item (menu_children (select i m))
               = map item (menu_children m)
            /\ isConnected (select i m) = isConnected m).
  { intros i Hi. split; [now apply select_menu_ok|].
    split; [|reflexivity]. unfold select. cbn [menu_children].
    now rewrite !set_marked_items. }
  assert (Hsame : menu_ok m /\ map item (menu_children m)
                               = map item (menu_children m)
                  /\ isConnected m = isConnected m).
  { split; [split; assumption | split; reflexivity]. }
  destruct mv as [| | | i]; simpl; unfold hotKey.
  - destruct (negb (isConnected m)); simpl; [exact Hsame|].
    apply Hsel. lia.
  - destruct (negb (isConnected m)); simpl; [exact Hsame|].
    apply Hsel. lia.
  - destruct (negb (isConnected m)); simpl; exact Hsame.
  - destruct (Nat.ltb_spec i (List.length (menu_children m)));
      [|exact Hsame].
    apply Hsel. lia.
Qed.

(** X16. A menu that [openComplete] has filled stays well selected while
    one moves in it with the arrow keys, other keys and the pointer: the
    selected index is always that of an existing child (the arrows stop at
    the first and the last child), exactly the selected child is marked as
    selected, and the proposals shown stay those [openComplete] was given,
    in order. *)
Theorem menu_selection_stays_valid (spans : list Segment) (start end_ : Z)
        (proposals : list Complete) (m m' : CompleteMenu)
        (moves : list Move) :
  openComplete spans start end_ proposals m = Ok m' ->
  menu_children m' <> [] ->
  let m'' := fold_left (fun m mv => move mv m) moves m' in
  menu_ok m''
  /\ map item (menu_children m'') = proposals
  /\ isConnected m'' = true.
Proof.
  intros Hopen Hne m''.
  assert (H0 : menu_ok m' /\ map item (menu_children m') = proposals
               /\ isConnected m' = true).
  { unfold openComplete in Hopen.
    destruct (selectionToRange spans start end_) as [[r|]|];
      try discriminate; injection Hopen as <-; [|now contradiction Hne].
    unfold select in Hne |- *. cbn [menu_children _selectIndex] in Hne |- *.
    split; [|split; [|reflexivity]].
    - apply select_menu_ok; cbn [menu_children _selectIndex].
      + intros j it Hj Hm. apply nth_error_In, in_map_iff in Hj
          as (c & <- & _). discriminate.
      + destruct (map (fun c => mkItem c start end_ false) proposals)
          as [|x l] eqn:E; [|simpl; lia].
        exfalso. apply Hne. apply length_zero_iff_nil.
        rewrite !set_marked_length. reflexivity.
    - unfold select. cbn [menu_children].
      rewrite !set_marked_items, map_map. simpl. apply map_id. }
  unfold m''. clear m'' Hopen Hne. revert m' H0.
  induction moves as [|mv moves IH]; intros m' H0; simpl; [exact H0|].
  apply IH. destruct H0 as (Hok & Hitems & Hcon).
  destruct (move_menu_ok mv m' Hok) as (H1 & H2 & H3).
  split; [exact H1|]. split; congruence.
Qed.

Lemma menu_selection_stays_valid_witness :
  let spans := codeArea (sums_editor (js "1+2") []) in
  let proposals := [mkComplete None None (js "3");
                    mkComplete None None (js "4")] in
  let opened := select 0 (mkMenu true
                            (map (fun c => mkItem c 3 3 false) proposals) 0)
  in
  openComplete spans 3 3 proposals (mkMenu false [] 0) = Ok opened
  /\ menu_children opened <> []
  /\ menu_ok (fold_left (fun m mv => move mv m) [Down; Down; Up; Hover 1]
                        opened).
Proof.
  intros spans proposals opened.
  assert (H1 : openComplete spans 3 3 proposals (mkMenu false [] 0)
               = Ok opened) by reflexivity.
  assert (H2 : menu_children opened <> []) by discriminate.
  split; [exact H1 | split; [exact H2|]].
  apply (menu_selection_stays_valid spans 3 3 proposals (mkMenu false [] 0)
                                    opened _ H1 H2).
Defined.

(** X17. While the completion menu is closed its key listener ignores
    every key.  On an open, well selected menu, [Enter] clicks a child
    that exists, and it is the one marked as selected; [Escape] closes
    the menu and keeps its children. *)
Theorem hotKey_accepts_marked_item (m : CompleteMenu) :
  (isConnected m = false -> forall k, hotKey k m = (m, None))
  /\ (isConnected m = true -> menu_ok m ->
      (exists it,
          hotKey Enter m = (m, Some it)
          /\ marked it = true
          /\ forall j it', nth_error (menu_children m) j = Some it' ->
                           marked it' = true ->
                           Z.of_nat j = _selectIndex m /\ it' = it)
      /\ hotKey Escape m = (mkMenu false (menu_children m) (_selectIndex m),
                            None)).
Proof.
  split.
  - intros Hc k. unfold hotKey. now rewrite Hc.
  - intros Hc [Hidx Hm]. unfold hotKey. rewrite Hc. simpl. split; [|reflexivity].
    unfold child_at. destruct (Z.ltb_spec (_selectIndex m) 0); [lia|].
    destruct (nth_error (menu_children m) (Z.to_nat (_selectIndex m)))
      as [it|] eqn:E.
    + exists it. split; [reflexivity|].
      pose proof (Hm _ _ E) as Hit. rewrite Z2Nat.id in Hit by lia.
      rewrite Z.eqb_refl in Hit. split; [exact Hit|].
      intros j it' Hj Hmk. rewrite (Hm j it' Hj) in Hmk.
      apply Z.eqb_eq in Hmk. split; [exact Hmk|].
      assert (j = Z.to_nat (_selectIndex m)) by lia. subst j. congruence.
    + apply nth_error_None in E. lia.
Qed.

Lemma hotKey_accepts_marked_item_witness :
  let opened := select 0 (mkMenu true
                            [mkItem (mkComplete None None (js "3")) 3 3 false]
                            0) in
  isConnected opened = true /\ menu_ok opened
  /\ exists it, hotKey Enter opened = (opened, Some it) /\ marked it = true.
Proof.
  intros opened.
  assert (Hok : menu_ok opened).
  { split; [simpl; lia|]. intros [|[|j]] it H; simpl in H;
      try discriminate. injection H as <-. reflexivity. }
  split; [reflexivity | split; [exact Hok|]].
  destruct (proj2 (hotKey_accepts_marked_item opened) eq_refl Hok)
    as [(it & H1 & H2 & _) _].
  exists it. split; assumption.
Defined.

(** ** Accepting a proposal *)





(** ** When the menu opens *)

Lemma set_marked_fields (v : bool) (i : Z) (l : list MenuItem) :
  map item_fields (set_marked v i l) = map item_fields l.
Proof.
  unfold set_marked. destruct (i <? 0); [reflexivity|].
  generalize (Z.to_nat i) as n. induction l as [|x l IH]; intros [|n];
    simpl; try reflexivity. now rewrite IH.
Qed.

Lemma completions_origin (matches : list Matcher) (sel : Selection)
      (root : SyntaxNode) (c : Complete) :
  In c (completions matches sel root) ->
  exists mt cap,
    In mt matches /\ In cap (concat (fst mt root))
    /\ startIndex (cap_node cap) <= sel_start sel <= endIndex (cap_node cap)
    /\ In c (snd mt sel (cap_name cap) (cap_node cap)).
Proof.
  unfold completions. intros H.
  apply in_flat_map in H as (mt & Hmt & H).
  apply in_flat_map in H as (cap & Hcap & H).
  destruct (Z.ltb_spec (endIndex (cap_node cap)) (sel_start sel));
    [contradiction|].
  destruct (Z.ltb_spec (sel_start sel) (startIndex (cap_node cap)));
    [contradiction|].
  simpl in H. exists mt, cap. repeat split; try assumption; lia.
Qed.

(** X19. The completion widget reacts to a change like this. The menu is
    closed first and stays closed unless the recorded selection is a
    collapsed cursor.  If it is open afterwards, the engine has a tree and
    a collapsed selection, and every child of the menu closes over the
    cursor as its [start] and [end] and shows a proposal that [run]
    returned for a captured node that the cursor is in or next to
    ([startIndex <= cursor <= endIndex]). *)
Theorem refresh_opens_at_cursor (matches : list Matcher) (w : World)
        (m m' : CompleteMenu) :
  refresh matches w m = Ok m' ->
  ((forall sel, selection w = Some sel -> sel_start sel <> sel_end sel) ->
   m' = closeComplete m)
  /\ (isConnected m' = true ->
      exists sel root,
        selection w = Some sel /\ tree w = Some root
        /\ sel_start sel = sel_end sel
        /\ forall it,
            In it (menu_children m') ->
            item_start it = sel_start sel /\ item_end it = sel_end sel
            /\ exists mt cap,
                In mt matches /\ In cap (concat (fst mt root))
                /\ startIndex (cap_node cap) <= sel_start sel
                   <= endIndex (cap_node cap)
                /\ In (item it) (snd mt sel (cap_name cap) (cap_node cap))).
Proof.
  unfold refresh. intros H.
  destruct (selection w) as [sel|] eqn:Es.
  2:{ injection H as <-. split; [reflexivity | discriminate]. }
  destruct (Z.eqb_spec (sel_start sel) (sel_end sel)) as [Eq|Neq];
    simpl in H.
  2:{ injection H as <-. split; [reflexivity | discriminate]. }
  split.
  { intros Hno. exfalso. exact (Hno sel eq_refl Eq). }
  destruct matches as [|mt0 matches0] eqn:Em.
  { injection H as <-. discriminate. }
  rewrite <- Em in *. clear Em mt0 matches0.
  destruct (tree w) as [root|]; [|discriminate].
  destruct (completions matches sel root) as [|c0 cs] eqn:Ec.
  { injection H as <-. discriminate. }
  rewrite <- Ec in H. intros Hcon.
  exists sel, root. split; [reflexivity|]. split; [reflexivity|].
  split; [exact Eq|].
  intros it Hit. unfold openComplete in H.
  destruct (selectionToRange (codeArea w) (sel_start sel) (sel_end sel))
    as [[r|]|]; try discriminate; injection H as <-;
    [|contradiction].
  unfold select in Hit. cbn [menu_children _selectIndex] in Hit.
  apply (in_map item_fields) in Hit.
  rewrite !set_marked_fields, map_map in Hit.
  apply in_map_iff in Hit as (c & Hc & Hin).
  unfold item_fields in Hc. simpl in Hc. injection Hc as H1 H2 H3.
  subst c. split; [now symmetry|]. split; [now symmetry|].
  now apply completions_origin.
Qed.

Lemma refresh_opens_at_cursor_witness :
  let w := set_selection (Some (mkSelection 3 3))
                         (sums_editor (js "1+2") []) in
  let matches : list Matcher :=
    [(number_query,
      fun sel _ node => buildComplete (js "1+2") [js "23"] sel node)] in
  let m' := select 0 (mkMenu true
                        [mkItem (mkComplete (Some (-1)) (Some 0) (js "23"))
                                3 3 false] 0) in
  refresh matches w (mkMenu false [] 0) = Ok m'
  /\ isConnected m' = true
  /\ exists sel, selection w = Some sel /\ sel_start sel = sel_end sel.
Proof.
  intros w matches m'.
  assert (H : refresh matches w (mkMenu false [] 0) = Ok m') by reflexivity.
  split; [exact H | split; [reflexivity|]].
  destruct (proj2 (refresh_opens_at_cursor matches w _ m' H) eq_refl)
    as (sel & root & Hs & _ & Heq & _).
  exists sel. split; assumption.
Defined.

(** ** The node found is the most specific one *)

Lemma preorder_node_eq (n : SyntaxNode) :
  preorder n = n :: preorder_list (children n).
Proof. destruct n as [i s e cs]. apply preorder_eq. Qed.

Lemma scan_position (index : Z) (l : list SyntaxNode) :
  forall lastNode n,
    scan index l lastNode = Some n ->
    (lastNode = Some n /\ stops index l)
    \/ exists l1 l2, l = l1 ++ n :: l2 /\ stops index l2.
Proof.
  induction l as [|m l IH]; simpl; intros lastNode n H.
  - left. split; [exact H | exact I].
  - destruct (Z.ltb_spec (startIndex m) index) as [Hlt|Hge].
    + apply IH in H as [[H Hs] | (l1 & l2 & -> & Hs)].
      * injection H as <-. right. exists [], l. split; [reflexivity | exact Hs].
      * right. exists (m :: l1), l2. split; [reflexivity | exact Hs].
    + left. split; [exact H | exact Hge].
Qed.

(** Wherever a node occurs in the traversal, the nodes below it follow. *)
Lemma preorder_occurrence (t : SyntaxNode) :
  forall l1 n l2,
    preorder t = l1 ++ n :: l2 ->
    exists l3, l2 = preorder_list (children n) ++ l3.
Proof.
  induction t as [i s e cs IH] using SyntaxNode_rect_list.
  intros l1 n l2 H. rewrite preorder_eq in H.
  destruct l1 as [|x l1]; simpl in H; injection H as Hx H.
  - subst n. exists []. simpl. now rewrite app_nil_r.
  - clear Hx x. revert l1 H.
    induction IH as [|c cs Hc _ IHcs]; intros l1 H.
    + destruct l1; discriminate.
    + unfold preorder_list in H. simpl in H. fold (preorder_list cs) in H.
      apply app_eq_app in H as [l [[H1 H2] | [H1 H2]]].
      * destruct l as [|y l].
        -- simpl in H2. rewrite app_nil_r in H1.
           apply (IHcs []). simpl. now symmetry.
        -- simpl in H2. injection H2 as <- ->.
           destruct (Hc _ _ _ H1) as [l3 ->].
           exists (l3 ++ preorder_list cs). now rewrite app_assoc.
      * apply (IHcs l). exact H2.
Qed.

Lemma wf_node_subtree (t : SyntaxNode) :
  wf_node t = true -> forall n, In n (preorder t) -> wf_node n = true.
Proof.
  induction t as [i s e cs IH] using SyntaxNode_rect_list.
  intros Hwf n Hn. rewrite preorder_eq in Hn. destruct Hn as [<- | Hn];
    [exact Hwf|].
  rewrite wf_node_eq in Hwf. apply andb_prop in Hwf as [_ Hcs].
  apply preorder_list_In in Hn as (c & Hc & Hn).
  rewrite Forall_forall in IH. apply (IH c Hc); [|exact Hn].
  clear - Hc Hcs. revert Hcs. generalize s as from.
  induction cs as [|d cs IHcs]; intros from H; [contradiction|].
  simpl in H. apply andb_prop in H as [H H3]. apply andb_prop in H as [_ H2].
  destruct Hc as [<- | Hc]; [exact H2 | exact (IHcs Hc _ H3)].
Qed.

(** X20. The node [findSyntaxNode(index)] returns is the most specific
    one: its first child, if it has children, does not start before
    [index] (otherwise the traversal would have gone down); and on a
    well-formed tree no node below the returned node starts before
    [index]. *)
Theorem findSyntaxNode_most_specific (tree : SyntaxNode) (index : Z)
        (n : SyntaxNode) :
  findSyntaxNode tree index = Some n ->
  (forall c, hd_error (children n) = Some c -> index <= startIndex c)
  /\ (wf_node tree = true ->
      forall m, In m (preorder_list (children n)) -> index <= startIndex m).
Proof.
  intros H. rewrite findSyntaxNode_scan in H.
  pose proof H as Hn. apply scan_result in Hn as [Hn | [Hn _]];
    [discriminate|].
  apply scan_position in H as [[H _] | (l1 & l2 & Hl & Hs)]; [discriminate|].
  destruct (preorder_occurrence tree _ _ _ Hl) as [l3 ->].
  assert (Hfirst : forall c, hd_error (children n) = Some c ->
                             index <= startIndex c).
  { intros c Hc. destruct (children n) as [|c' cs]; [discriminate|].
    injection Hc as ->. unfold preorder_list in Hs. simpl in Hs.
    destruct c. exact Hs. }
  split; [exact Hfirst|].
  intros Hwf m Hm.
  pose proof (wf_node_subtree tree Hwf n Hn) as Hwfn.
  destruct (wf_preorder_sorted n Hwfn) as [Hsorted _].
  rewrite preorder_node_eq in Hsorted.
  inversion Hsorted as [|? ? Hkids _]; subst.
  destruct (children n) as [|c cs] eqn:Ec; [contradiction|].
  specialize (Hfirst c eq_refl).
  unfold preorder_list in Hm, Hkids. simpl in Hm, Hkids.
  destruct c as [ci cs' ce ccs]. rewrite preorder_eq in Hm, Hkids.
  simpl in Hm, Hkids.
  inversion Hkids as [|? ? _ Hall]; subst.
  destruct Hm as [<- | Hm]; [exact Hfirst|].
  rewrite Forall_forall in Hall. specialize (Hall m Hm).
  unfold le_start in Hall. simpl in *. lia.
Qed.

Lemma findSyntaxNode_most_specific_witness :
  let tree := parse sums (js "1+23") None in
  findSyntaxNode tree 0 = None
  /\ findSyntaxNode tree 1 = Some (mkNode 1 0 1 [])
  /\ wf_node tree = true
  /\ forall m, In m (preorder_list (children (mkNode 1 0 1 []))) ->
               1 <= startIndex m.
Proof.
  intros tree. split; [reflexivity | split; [reflexivity|]].
  split; [reflexivity|].
  apply (proj2 (findSyntaxNode_most_specific tree 1 (mkNode 1 0 1 [])
                                             eq_refl)).
  reflexivity.
Defined.

(** ** Ranges for offsets *)

(** X21. [selectionToRange(start, end)] never throws: the indices
    [findNode] computes are always inside the text node they are for.  It
    returns no range exactly when one of the two offsets has no position.
    A range it returns ends at the position of [end].  On spans that tile,
    as a render lays them out, the range starts at the position of [start]
    when [start <= end]; when [end < start] the range is collapsed at the
    position of [end], and [start] is lost. *)
Theorem selectionToRange_defined (spans : list Segment) (a b : Z) :
  exists result,
    selectionToRange spans a b = Ok result
    /\ (result = None
        <-> offsetToPosition spans a = None
            \/ offsetToPosition spans b = None)
    /\ (forall r,
           result = Some r ->
           offsetToPosition spans b = Some (range_end r)
           /\ positionToOffset spans (range_end r) = b)
    /\ (forall from to r,
           tiling from spans to -> result = Some r ->
           (a <= b ->
            offsetToPosition spans a = Some (range_start r)
            /\ positionToOffset spans (range_start r) = a)
           /\ (b < a ->
               range_start r = range_end r
               /\ offsetToPosition spans a <> Some (range_start r))).
Proof.
  unfold selectionToRange, offsetToPosition.
  destruct (findNode spans a) as [[i k]|] eqn:Ea.
  2:{ exists None. split; [reflexivity|].
      split; [tauto|]. split; discriminate. }
  destruct (findNode spans b) as [[j l]|] eqn:Eb.
  2:{ exists None. split; [reflexivity|].
      split; [tauto|]. split; discriminate. }
  rewrite (findNode_boundary_ok _ _ _ Ea), (findNode_boundary_ok _ _ _ Eb).
  pose proof (findNode_some _ _ _ _ Ea) as (ci & Hi & _ & Hk).
  pose proof (findNode_some _ _ _ _ Eb) as (cj & Hj & _ & Hl).
  eexists. split; [reflexivity|]. split; [|split].
  - split; [discriminate | intros [H | H]; discriminate].
  - intros r [= <-]. cbn [fst snd].
    destruct (boundary_before (j, l) (i, k)); cbn [range_start range_end];
      unfold positionToOffset, getOffset; cbn [fst snd];
      rewrite ?Hi, ?Hj; (split; [reflexivity | lia]).
  - intros from to r Ht [= <-]. cbn [fst snd].
    rewrite (boundary_before_tiling spans from to a b i j k l Ht Ea Eb).
    split.
    + intros Hab. destruct (Z.ltb_spec b a) as [Hlt|_]; [lia|].
      cbn [range_start]. split; [reflexivity|].
      unfold positionToOffset, getOffset; cbn [fst snd]. rewrite Hi. lia.
    + intros Hba. destruct (Z.ltb_spec b a) as [_|Hge]; [|lia].
      cbn [range_start range_end]. split; [reflexivity|].
      intros [= E1 E2]. subst j.
      assert (cj = ci) by congruence. subst cj. lia.
Qed.

Lemma selectionToRange_defined_witness :
  let spans := codeArea (sums_editor (js "1+23") []) in
  tiling 0 spans 4
  /\ selectionToRange spans 1 3
     = Ok (Some (mkRange (SpanText 0, 1) (SpanText 2, 1)))
  /\ (exists r,
         selectionToRange spans 3 1 = Ok (Some r)
         /\ range_start r = range_end r
         /\ positionToOffset spans (range_end r) = 1).
Proof.
  intros spans.
  assert (Ht : tiling 0 spans 4) by (simpl; auto).
  split; [exact Ht | split; [reflexivity|]].
  destruct (selectionToRange_defined spans 3 1)
    as (result & H & _ & Hend & Hstart).
  assert (E : result = Some (mkRange (SpanText 0, 1) (SpanText 0, 1))).
  { assert (E : Ok result = selectionToRange spans 3 1) by (symmetry; exact H).
    vm_compute in E. now injection E. }
  exists (mkRange (SpanText 0, 1) (SpanText 0, 1)).
  split; [rewrite H, E; reflexivity|]. split.
  - apply (proj2 (Hstart 0 4 _ Ht E)). lia.
  - apply (Hend _ E).
Defined.

(** ** Lengths *)

(** X22. [replaceText(s, e, t)] with [0 <= s <= e <= length] changes the
    length of the buffer by [length(t) - (e - s)], keeps the [s] code units
    before the replaced range and the [length - e] code units after it,
    and with an empty [t] on an empty range leaves the buffer as it is. *)
Theorem replaceText_length (language : Parser) (q : option Query)
        (s e : Z) (t : jsstring) (w : World) :
  0 <= s -> s <= e -> e <= len (source w) ->
  exists w',
    replaceText language q s e t w = Ok (tt, w')
    /\ len (source w') = len (source w) - (e - s) + len t
    /\ slice (source w') 0 s = slice (source w) 0 s
    /\ slice_from (source w') (s + len t) = slice_from (source w) e
    /\ (t = [] -> s = e -> source w' = source w).
Proof.
  intros Hs Hse He.
  destruct (replaceText_returns language q s e t w) as [d ->].
  eexists. split; [reflexivity|]. unfold changed_world. cbn [source].
  set (src := source w) in *.
  assert (L1 : len (slice src 0 s) = s) by (rewrite len_slice; lia).
  assert (L2 : len (slice_from src e) = len src - e).
  { rewrite slice_from_in_range by lia. unfold len in *.
    rewrite length_skipn. lia. }
  pose proof (len_nonneg t) as Lt.
  split; [rewrite !len_app; lia|]. split; [|split].
  - rewrite (slice_in_range (slice src 0 s ++ t ++ slice_from src e) 0 s)
      by (rewrite ?len_app; lia).
    simpl skipn. rewrite Z.sub_0_r.
    rewrite firstn_app. unfold len in L1.
    replace (Z.to_nat s - List.length (slice src 0 s))%nat with 0%nat by lia.
    simpl. rewrite app_nil_r. apply firstn_all2. lia.
  - rewrite slice_from_in_range by (rewrite ?len_app; lia).
    rewrite app_assoc, skipn_app. unfold len in L1, Lt |- *.
    rewrite skipn_all2 by (rewrite length_app; lia).
    rewrite length_app.
    replace (Z.to_nat (s + Z.of_nat (List.length t))
             - (List.length (slice src 0 s) + List.length t))%nat
      with 0%nat by lia.
    reflexivity.
  - intros -> <-. simpl.
    rewrite <- (slice_split3 src s s) at 3 by lia.
    rewrite (slice_in_range src s s) by lia.
    rewrite Z.sub_diag. reflexivity.
Qed.

Lemma replaceText_length_witness :
  let w := sums_editor (js "1+23") [] in
  0 <= 2 /\ 2 <= 4 /\ 4 <= len (source w)
  /\ exists w',
      replaceText sums (Some number_query) 2 4 (js "7") w = Ok (tt, w')
      /\ len (source w') = 3.
Proof.
  intros w.
  split; [lia | split; [lia | split; [discriminate|]]].
  destruct (replaceText_length sums (Some number_query) 2 4 (js "7") w)
    as (w' & H & Hl & _); try lia; [discriminate|].
  exists w'. split; [exact H|]. rewrite Hl. reflexivity.
Defined.

(** ** Construction with matchers that do not compile *)

Lemma widget_init_throws (language : Parser) (i : nat) (k : WidgetKind)
      (w : World) :
  nth_error (map kind (widgets w)) i = Some k ->
  compiles language k = false ->
  widget_init language i w = Throw QueryError.
Proof.
  intros Hk Hcomp. rewrite nth_error_map in Hk.
  destruct (nth_error (widgets w) i) as [v|] eqn:Ev; [|discriminate].
  injection Hk as Hk.
  unfold widget_init, bind, log, modify, get.
  cbn [widgets set_trace]. rewrite Ev, Hk.
  destruct k as [| |queries]; try discriminate.
  unfold initHotKey, widget_disposables_add, update_widget, addEventListener,
    bind, modify.
  now rewrite (compile_matchers_throws language queries _ Hcomp).
Qed.

Lemma widgets_init_loop_throws (language : Parser) (ws : list WidgetKind) :
  forallb (compiles language) ws = false ->
  forall i w,
    skipn i (map kind (widgets w)) = ws ->
    fresh_from i (listeners w) ->
    forEach (seq i (List.length ws)) (widget_init language) w
    = Throw QueryError.
Proof.
  induction ws as [|k ws IH]; intros Hcomp i w Hskip Hfresh;
    [discriminate|].
  apply skipn_cons_inv in Hskip as [Hk Hrest].
  simpl in Hcomp. simpl. unfold bind.
  destruct (compiles language k) eqn:Hck.
  - destruct (widget_init_step language i k w Hk Hfresh Hck)
      as (w1 & -> & P1).
    apply IH; [exact Hcomp | |].
    + rewrite (post_kinds _ _ _ _ P1). exact Hrest.
    + rewrite (post_listeners _ _ _ _ P1). now apply fresh_from_step.
  - now rewrite (widget_init_throws language i k w Hk Hck).
Qed.

(** X23. [CodeLine.create] gives an engine exactly when the queries of all
    matchers of its completion widgets compile.  When they do, [create]
    returns; when one does not, the [init] of its widget throws what
    [language.query] throws, the widgets after it are not initialised and
    [create] fails with that error.  The highlight query is no such
    condition: whether it compiled or not, there is an engine. *)
Theorem create_needs_compiling_matchers (language : Parser)
        (q : option Query) (src : option jsstring) (ws : list WidgetKind)
        (host : option DomRange) :
  (forallb (compiles language) ws = true ->
   exists w, create language q src ws host = Ok (tt, w)
             /\ map kind (widgets w) = ws)
  /\ (forallb (compiles language) ws = false ->
      create language q src ws host = Throw QueryError).
Proof.
  set (txt := match src with Some s => s | None => [] end).
  set (w0 := mkWorld txt None None (map (fun k => mkWidget k false []) ws)
                     [RemoveListener input_registration;
                      RemoveListener selectionchange_registration]
                     [] [] [] host
                     [input_registration; selectionchange_registration] []).
  assert (Hcreate :
            create language q src ws host
            = bind (sourceChange language q txt None)
                   (fun _ =>
                      bind get
                           (fun w => forEach (seq 0 (List.length (widgets w)))
                                             (widget_init language))) w0)
    by reflexivity.
  destruct (sourceChange_returns language q txt w0) as (sel & d & Hsc).
  set (w1 := changed_world language q txt sel d w0) in *.
  assert (Hkinds : map kind (widgets w1) = ws).
  { unfold w1, changed_world; simpl. rewrite map_map. simpl. apply map_id. }
  assert (Hlen : List.length (widgets w1) = List.length ws).
  { unfold w1, changed_world; simpl. apply length_map. }
  assert (Hfresh : fresh_from 0 (listeners w1)) by (intros j _; reflexivity).
  assert (Hrun : create language q src ws host
                 = forEach (seq 0 (List.length ws)) (widget_init language)
                           w1).
  { rewrite Hcreate. unfold bind at 1. rewrite Hsc.
    unfold bind at 1. unfold get at 1. now rewrite Hlen. }
  rewrite Hrun. split; intros Hcomp.
  - destruct (widgets_init_loop language ws Hcomp 0 w1 Hkinds Hfresh)
      as (w2 & -> & P2).
    exists w2. split; [reflexivity|].
    rewrite (post_kinds _ _ _ _ P2). exact Hkinds.
  - exact (widgets_init_loop_throws language ws Hcomp 0 w1 Hkinds Hfresh).
Qed.

Lemma create_needs_compiling_matchers_witness :
  let good := [CodeErrorWidget; CodeCompleteWidget [number_query_source]] in
  let bad := [CodeCompleteWidget [number_query_source; "(number"%string];
              CodeErrorWidget] in
  forallb (compiles sums) good = true
  /\ forallb (compiles sums) bad = false
  /\ (exists w, create sums (Some number_query) (Some (js "1+2")) good None
                = Ok (tt, w))
  /\ create sums (Some number_query) (Some (js "1+2")) bad None
     = Throw QueryError.
Proof.
  intros good bad.
  split; [reflexivity | split; [reflexivity|]]. split.
  - destruct (proj1 (create_needs_compiling_matchers sums (Some number_query)
                       (Some (js "1+2")) good None) eq_refl) as (w & H & _).
    exists w. exact H.
  - apply (proj2 (create_needs_compiling_matchers sums (Some number_query)
                    (Some (js "1+2")) bad None)).
    reflexivity.
Defined.

(** ** Two captures of one span *)

Lemma filter_length_permutation {A : Type} (f : A -> bool) (l l' : list A) :
  Permutation l l' ->
  List.length (filter f l) = List.length (filter f l').
Proof.
  induction 1 as [|x l l' _ IH|x y l|l l' l'' _ IH1 _ IH2]; simpl.
  - reflexivity.
  - destruct (f x); simpl; congruence.
  - destruct (f x); destruct (f y); reflexivity.
  - congruence.
Qed.

Lemma spans_in_order_starts (hl : Highlight) :
  forall from to,
    spans_in_order from hl to = true ->
    Forall (fun h => from <= startIndex (fst h)) hl.
Proof.
  induction hl as [|[m nm] hl IH]; intros from to H; [constructor|].
  simpl in H. apply andb_prop in H as [H H3]. apply andb_prop in H as [H1 H2].
  apply Z.leb_le in H1, H2. constructor; [exact H1|].
  eapply Forall_impl; [|exact (IH _ _ H3)]. simpl. intros h Hh. lia.
Qed.

(** Among spans laid out in order, a span that is not empty occurs at most
    once. *)
Lemma spans_in_order_once (n : SyntaxNode) (hl : Highlight) :
  startIndex n < endIndex n ->
  forall from to,
    spans_in_order from hl to = true ->
    (List.length (filter (same_span n) hl) <= 1)%nat.
Proof.
  intros Hn. induction hl as [|[m nm] hl IH]; intros from to H; simpl;
    [lia|].
  simpl in H. apply andb_prop in H as [H H3]. apply andb_prop in H as [H1 H2].
  destruct (same_span n (m, nm)) eqn:E; [|exact (IH _ _ H3)].
  unfold same_span in E. simpl in E. apply andb_prop in E as [E1 E2].
  apply Z.eqb_eq in E1, E2. simpl.
  assert (Hnone : filter (same_span n) hl = []).
  { apply filter_none. apply spans_in_order_starts in H3.
    clear - H3 Hn E1 E2. induction H3 as [|h hl Hh _ IHhl]; simpl;
      [reflexivity|].
    rewrite IHhl, orb_false_r. unfold same_span.
    destruct (Z.eqb_spec (startIndex (fst h)) (startIndex n)); [lia|].
    reflexivity. }
  rewrite Hnone. simpl. lia.
Qed.

(** X24. Tags are not merged, and two captures of one span break the
    layout the render step needs.  When the highlight query captures a span
    that is not empty twice (one node under two names, or a node and an
    only child that covers it), [getHighlight] has at least two entries
    with this span, and its entries are not laid out one after the other,
    whatever the length of the text: the tiling of the segments is not
    guaranteed for such a query. *)
Theorem captured_twice_breaks_layout (q : option Query) (t : SyntaxNode)
        (c1 c2 : Capture) (l1 l2 l3 : list Capture) (to : Z) :
  captures_of q t = l1 ++ c1 :: l2 ++ c2 :: l3 ->
  startIndex (cap_node c2) = startIndex (cap_node c1) ->
  endIndex (cap_node c2) = endIndex (cap_node c1) ->
  startIndex (cap_node c1) < endIndex (cap_node c1) ->
  (2 <= List.length (filter (same_span (cap_node c1)) (getHighlight q t)))%nat
  /\ spans_in_order 0 (getHighlight q t) to = false.
Proof.
  intros Hcaps Hs He Hne.
  assert (Htwo : (2 <= List.length (filter (same_span (cap_node c1))
                                           (getHighlight q t)))%nat).
  { rewrite getHighlight_eq, map_entries_eq, Hcaps.
    rewrite (filter_length_permutation _ _ _ (sort_by_start_permutation _)).
    rewrite map_app, filter_app, length_app. simpl.
    assert (E1 : same_span (cap_node c1) (entry_of c1) = true).
    { unfold same_span, entry_of. simpl. now rewrite !Z.eqb_refl. }
    rewrite E1. simpl. rewrite map_app, filter_app, length_app. simpl.
    assert (E2 : same_span (cap_node c1) (entry_of c2) = true).
    { unfold same_span, entry_of. simpl. rewrite Hs, He.
      now rewrite !Z.eqb_refl. }
    rewrite E2. simpl. lia. }
  split; [exact Htwo|].
  destruct (spans_in_order 0 (getHighlight q t) to) eqn:E; [|reflexivity].
  pose proof (spans_in_order_once (cap_node c1) _ Hne _ _ E). lia.
Qed.

Lemma captured_twice_breaks_layout_witness :
  let t := parse sums (js "1+23") None in
  let q := Some number_literal_query in
  let c1 := mkCapture (mkNode 1 0 1 []) "number"%string in
  let c2 := mkCapture (mkNode 1 0 1 []) "literal"%string in
  captures_of q t
  = [] ++ c1 :: [] ++ c2 :: [mkCapture (mkNode 3 2 4 []) "number"%string;
                             mkCapture (mkNode 3 2 4 []) "literal"%string]
  /\ startIndex (cap_node c1) < endIndex (cap_node c1)
  /\ spans_in_order 0 (getHighlight q t) (len (js "1+23")) = false.
Proof.
  intros t q c1 c2.
  assert (H : captures_of q t
              = [] ++ c1 :: [] ++ c2
                   :: [mkCapture (mkNode 3 2 4 []) "number"%string;
                       mkCapture (mkNode 3 2 4 []) "literal"%string])
    by reflexivity.
  split; [exact H|]. split; [reflexivity|].
  apply (captured_twice_breaks_layout q t c1 c2 _ _ _ _ H);
    reflexivity.
Defined.
